(** * SQL Schema Builder: the DDL generator, the mode converter and the
      advisory analysis, embedded from the TypeScript sources.

    - the data model: the interfaces of [types.ts]
    - [SQLGenerator] of [src/sqlGenerator.ts]: [generate],
      [addForeignKeyFields], [generateJunctionTable], [generateHeader],
      [generateCreateTable], [generateColumnDef], [mapDataType],
      [generateForeignKeyConstraint]
    - the component [App]: the [onClick] of the LOGICAL/CONCEPTUAL mode
      button and [handleAddConstraint]
    - the component [RecommendationPanel]: [analyzeSchema]
    - the dialogs [TableModal], [EntityModal] and [RelationshipModal]:
      their change, add, delete and save handlers
    - the canvas handlers of [App]: [hasHighPriorityRecommendations],
      [onConnect], [handleDeleteTable], [deleteTableById],
      [handleSaveTable], [handleSaveRelationship],
      [handleDeleteRelationship], the effect that relabels the edges,
      [handleCreateJunctionTable] and [generateSQL]

    JavaScript arrays are lists; [Array.prototype.find], [some], [filter]
    and [findIndex] are [List.find], [existsb], [List.filter] and
    [findIndex]; [tables[i] = v] is stdpp's list insert.  An uncaught
    [TypeError] is [None] in the [option] monad.  Template literals are
    written out with [+:+], the line feed being [nl]. *)

From stdpp Require Import base option list strings gmap.
From Stdlib Require Import ZArith Ascii String.

Local Open Scope string_scope.
Local Open Scope list_scope.

(** ** Text helpers *)

(** The line feed of the template literals. *)
Definition nl : string := String "010"%char EmptyString.

(** The double quote inside the message templates. *)
Definition quote : string := String "034"%char EmptyString.

(** [Array.prototype.join] *)
Definition join (sep : string) (l : list string) : string := String.concat sep l.

(** [Array.prototype.findIndex]; [None] stands for [-1]. *)
Fixpoint findIndex {A} (p : A → bool) (l : list A) : option nat :=
  match l with
  | [] => None
  | x :: l' => if p x then Some 0 else S <$> findIndex p l'
  end.

(** [String.prototype.includes] *)
Fixpoint includes (s sub : string) : bool :=
  String.prefix sub s ||
  match s with
  | EmptyString => false
  | String _ s' => includes s' sub
  end.

(** ** Data model ([types.ts]) *)

Inductive DataType :=
  | TEXT | INTEGER | LONG | DOUBLE | CURRENCY | DATETIME
  | BOOLEAN | AUTOINCREMENT | MEMO | OLE.

(** The string a [DataType] value is at run time. *)
Definition DataType_str (t : DataType) : string :=
  match t with
  | TEXT => "TEXT" | INTEGER => "INTEGER" | LONG => "LONG"
  | DOUBLE => "DOUBLE" | CURRENCY => "CURRENCY" | DATETIME => "DATETIME"
  | BOOLEAN => "BOOLEAN" | AUTOINCREMENT => "AUTOINCREMENT"
  | MEMO => "MEMO" | OLE => "OLE"
  end.

Inductive AttributeType := PRIMARY | NORMAL | MULTIVALUED | DERIVED.

Record Attribute := {
  a_id : string;
  a_name : string;
  a_type : AttributeType;
  dataType : option DataType
}.

Record Column := {
  c_id : string;
  c_name : string;
  c_type : DataType;
  primaryKey : bool;
  nullable : bool;
  unique : bool;
  autoIncrement : bool;
  isForeignKey : option bool;
  referencesTable : option string;
  referencesColumn : option string
}.

(** [x] and [y] are canvas coordinates; the generator carries them through
    untouched. *)
Record Table := {
  t_id : string;
  t_name : string;
  columns : list Column;
  t_x : Z;
  t_y : Z
}.

(** ['1:1' | '1:N' | 'N:1' | 'N:M'] *)
Inductive Cardinality := Card_1_1 | Card_1_N | Card_N_1 | Card_N_M.

(** ['CASCADE' | 'SET NULL' | 'RESTRICT' | 'NO ACTION'] *)
Inductive RefAction := CASCADE | SET_NULL | RESTRICT | NO_ACTION.

Definition RefAction_str (a : RefAction) : string :=
  match a with
  | CASCADE => "CASCADE" | SET_NULL => "SET NULL"
  | RESTRICT => "RESTRICT" | NO_ACTION => "NO ACTION"
  end.

Record Relationship := {
  r_id : string;
  sourceTableId : string;
  sourceColumnId : string;
  targetTableId : string;
  targetColumnId : string;
  cardinality : Cardinality;
  sourceOptional : bool;
  targetOptional : bool;
  onDelete : RefAction;
  onUpdate : RefAction
}.

Record Schema := {
  tables : list Table;
  relationships : list Relationship
}.

Inductive SQLDialect := ACCESS | SQLITE | MYSQL | POSTGRESQL.

Definition SQLDialect_str (d : SQLDialect) : string :=
  match d with
  | ACCESS => "ACCESS" | SQLITE => "SQLITE"
  | MYSQL => "MYSQL" | POSTGRESQL => "POSTGRESQL"
  end.

Inductive SchemaMode := CONCEPTUAL | LOGICAL.

Record Entity := {
  e_id : string;
  e_name : string;
  attributes : list Attribute;
  e_x : Z;
  e_y : Z
}.

Record ConceptualRelationship := {
  cr_id : string;
  sourceEntityId : string;
  targetEntityId : string;
  cr_cardinality : Cardinality;
  cr_sourceOptional : bool;
  cr_targetOptional : bool;
  role : string
}.

Definition is_N_M (c : Cardinality) : bool :=
  match c with Card_N_M => true | _ => false end.

Definition is_1_1 (c : Cardinality) : bool :=
  match c with Card_1_1 => true | _ => false end.

(** [{...t, columns: cs}] *)
Definition with_columns (t : Table) (cs : list Column) : Table :=
  {| t_id := t_id t; t_name := t_name t; columns := cs;
     t_x := t_x t; t_y := t_y t |}.

(** ** [SQLGenerator] ([sqlGenerator.ts]) *)

Module SQLGenerator.

(** [tables.find(t => t.id === id)] *)
Definition findTable (ts : list Table) (id : string) : option Table :=
  List.find (λ t, String.eqb (t_id t) id) ts.

(** [t.columns.find(c => c.id === id)] *)
Definition findColumn (t : Table) (id : string) : option Column :=
  List.find (λ c, String.eqb (c_id c) id) (columns t).

(** [t.columns.find(c => c.primaryKey)] *)
Definition findPK (t : Table) : option Column :=
  List.find primaryKey (columns t).

(** The [switch (rel.cardinality)] of [addForeignKeyFields]: the triple
    [(manyTableId, fkColumnName, pkColumn)], or [None] where the source
    says [continue]. *)
Definition fkSide (rel : Relationship) (sourcePK targetPK : Column)
  : option (string * string * Column) :=
  match cardinality rel with
  | Card_1_N => Some (targetTableId rel, c_name sourcePK, sourcePK)
  | Card_N_1 => Some (sourceTableId rel, c_name targetPK, targetPK)
  | Card_1_1 =>
      if targetOptional rel then
        Some (targetTableId rel, c_name sourcePK, sourcePK)
      else if sourceOptional rel then
        Some (sourceTableId rel, c_name targetPK, targetPK)
      else None
  | Card_N_M => None
  end.

(** The object literal [fkColumn] of [addForeignKeyFields]. *)
Definition fkColumn (rel : Relationship) (manyTableId fkColumnName : string)
    (pkColumn : Column) : Column :=
  {| c_id := "fk-" +:+ r_id rel +:+ "-" +:+ manyTableId;
     c_name := fkColumnName;
     c_type := c_type pkColumn;
     primaryKey := false;
     nullable := sourceOptional rel || targetOptional rel;
     unique := is_1_1 (cardinality rel);
     autoIncrement := false;
     isForeignKey := None;
     referencesTable := None;
     referencesColumn := None |}.

(** One iteration of [for (const rel of schema.relationships)] in
    [addForeignKeyFields], on the working copy [tables].  Every [continue]
    returns the array as it is.  The read [tables[tableIndex]] is the one
    place that could raise. *)
Definition fkStep (tables : list Table) (rel : Relationship)
  : option (list Table) :=
  match findTable tables (sourceTableId rel),
        findTable tables (targetTableId rel) with
  | Some sourceTable, Some targetTable =>
    match findColumn sourceTable (sourceColumnId rel),
          findColumn targetTable (targetColumnId rel) with
    | Some sourceColumn, Some targetColumn =>
      if is_N_M (cardinality rel) then Some tables else
      match findPK sourceTable, findPK targetTable with
      | Some sourcePK, Some targetPK =>
        match fkSide rel sourcePK targetPK with
        | Some (manyTableId, fkColumnName, pkColumn) =>
          match findTable tables manyTableId with
          | Some existingTable =>
            if existsb (λ c, String.eqb (c_name c) fkColumnName)
                 (columns existingTable)
            then Some tables
            else
              let fkc := fkColumn rel manyTableId fkColumnName pkColumn in
              match findIndex (λ t, String.eqb (t_id t) manyTableId) tables with
              | Some tableIndex =>
                  t ← tables !! tableIndex;
                  Some (<[tableIndex := with_columns t (columns t ++ [fkc])]>
                          tables)
              | None => Some tables
              end
          | None => Some tables
          end
        | None => Some tables
        end
      | _, _ => Some tables
      end
    | _, _ => Some tables
    end
  | _, _ => Some tables
  end.

(** The [for ... of] loop: the steps in list order, stopping at a raise. *)
Fixpoint fkLoop (rels : list Relationship) (tables : list Table)
  : option (list Table) :=
  match rels with
  | [] => Some tables
  | rel :: rels' => tables' ← fkStep tables rel; fkLoop rels' tables'
  end.

(** [addForeignKeyFields(schema)].  The first line copies every table and
    its column array; as values the copies equal the originals (the store
    model below keeps the references apart). *)
Definition addForeignKeyFields (schema : Schema) : option Schema :=
  let tables0 := map (λ t, with_columns t (columns t)) (tables schema) in
  tables' ← fkLoop (relationships schema) tables0;
  Some {| tables := tables'; relationships := relationships schema |}.

(** [typeMap] of [mapDataType]: an object used as a dictionary. *)
Definition typeMap : list (string * string) :=
  [ ("TEXT", "VARCHAR(255)"); ("INTEGER", "INTEGER"); ("LONG", "LONG");
    ("DOUBLE", "DOUBLE"); ("CURRENCY", "CURRENCY"); ("DATETIME", "DATETIME");
    ("BOOLEAN", "BIT"); ("AUTOINCREMENT", "COUNTER"); ("MEMO", "LONGTEXT");
    ("OLE", "OLEOBJECT") ].

(** [mapDataType(type)]: [typeMap[type] || 'VARCHAR(255)'].  The parameter
    is declared [string]; every call in the class passes the [type] of a
    [Column], which is a [DataType], and the model takes a [DataType].  On
    any other string the lookup would also reach [Object.prototype], which
    the object literal inherits; such a string is outside the model. *)
Definition mapDataType (type : DataType) : string :=
  match List.find (λ kv, String.eqb (fst kv) (DataType_str type)) typeMap with
  | Some (_, v) => v
  | None => "VARCHAR(255)"
  end.

(** [generateJunctionTable(rel, tables)] *)
Definition generateJunctionTable (rel : Relationship) (tables : list Table)
  : string :=
  match findTable tables (sourceTableId rel),
        findTable tables (targetTableId rel) with
  | Some sourceTable, Some targetTable =>
    match findPK sourceTable, findPK targetTable with
    | Some sourcePK, Some targetPK =>
      let junctionName := t_name sourceTable +:+ "_" +:+ t_name targetTable in
      let sourceType := mapDataType (c_type sourcePK) in
      let targetType := mapDataType (c_type targetPK) in
      let sourceColName := c_name sourcePK in
      let targetColName := c_name targetPK in
      let sql := "CREATE TABLE [" +:+ junctionName +:+ "] (" +:+ nl in
      let sql := sql +:+ "    [" +:+ sourceColName +:+ "] " +:+ sourceType
                     +:+ " NOT NULL," +:+ nl in
      let sql := sql +:+ "    [" +:+ targetColName +:+ "] " +:+ targetType
                     +:+ " NOT NULL," +:+ nl in
      let sql := sql +:+ "    CONSTRAINT [PK_" +:+ junctionName
                     +:+ "] PRIMARY KEY ([" +:+ sourceColName +:+ "], ["
                     +:+ targetColName +:+ "])," +:+ nl in
      let sql := sql +:+ "    CONSTRAINT [FK_" +:+ junctionName +:+ "_"
                     +:+ t_name sourceTable +:+ "] FOREIGN KEY (["
                     +:+ sourceColName +:+ "]) REFERENCES ["
                     +:+ t_name sourceTable +:+ "]([" +:+ c_name sourcePK
                     +:+ "])," +:+ nl in
      let sql := sql +:+ "    CONSTRAINT [FK_" +:+ junctionName +:+ "_"
                     +:+ t_name targetTable +:+ "] FOREIGN KEY (["
                     +:+ targetColName +:+ "]) REFERENCES ["
                     +:+ t_name targetTable +:+ "]([" +:+ c_name targetPK
                     +:+ "])" +:+ nl in
      let sql := sql +:+ ");" +:+ nl +:+ nl in
      sql
    | _, _ => EmptyString
    end
  | _, _ => EmptyString
  end.

(** [generateHeader()].  [now] is what [new Date().toLocaleString('ru-RU')]
    returns at the moment of the call. *)
Definition generateHeader (dialect : SQLDialect) (now : string) : string :=
  "-- SQL Schema Generated by SQL Schema Builder" +:+ nl +:+
  "-- Dialect: " +:+ SQLDialect_str dialect +:+ nl +:+
  "-- Generated: " +:+ now +:+ nl +:+
  nl.

(** [generateColumnDef(column)] *)
Definition generateColumnDef (column : Column) : string :=
  let def := "[" +:+ c_name column +:+ "] "
                 +:+ mapDataType (c_type column) in
  let def :=
    if autoIncrement column &&
       (match c_type column with AUTOINCREMENT => true | _ => false end)
    then def +:+ " COUNTER" else def in
  let def := if negb (nullable column) then def +:+ " NOT NULL" else def in
  let def :=
    if unique column && negb (primaryKey column)
    then def +:+ " UNIQUE" else def in
  def.

(** [generateCreateTable(table)] *)
Definition generateCreateTable (table : Table) : string :=
  let sql := "CREATE TABLE [" +:+ t_name table +:+ "] (" +:+ nl in
  let columnDefs := map generateColumnDef (columns table) in
  let sql := sql +:+ join ("," +:+ nl) (map (λ def, "    " +:+ def) columnDefs) in
  let primaryKeyColumns := List.filter primaryKey (columns table) in
  let sql :=
    if Nat.ltb 0 (List.length primaryKeyColumns) then
      let pkCols := join ", " (map (λ c, "[" +:+ c_name c +:+ "]")
                                   primaryKeyColumns) in
      sql +:+ "," +:+ nl +:+ "    CONSTRAINT [PK_" +:+ t_name table
          +:+ "] PRIMARY KEY (" +:+ pkCols +:+ ")"
    else sql in
  sql +:+ nl +:+ ");".

(** The [switch (rel.cardinality)] of [generateForeignKeyConstraint]: the
    triple [(fkColumnName, fkTable, pkColumn)], or [None] where the source
    returns the empty string. *)
Definition constraintSide (rel : Relationship)
    (sourceTable targetTable : Table) (sourcePK targetPK : Column)
  : option (string * Table * Column) :=
  match cardinality rel with
  | Card_1_N => Some (c_name sourcePK, targetTable, sourcePK)
  | Card_N_1 => Some (c_name targetPK, sourceTable, targetPK)
  | Card_1_1 =>
      if targetOptional rel then Some (c_name sourcePK, targetTable, sourcePK)
      else if sourceOptional rel then
        Some (c_name targetPK, sourceTable, targetPK)
      else None
  | Card_N_M => None
  end.

Definition is_NO_ACTION (a : RefAction) : bool :=
  match a with NO_ACTION => true | _ => false end.

(** [generateForeignKeyConstraint(rel, tables)] *)
Definition generateForeignKeyConstraint (rel : Relationship)
    (tables : list Table) : string :=
  match findTable tables (sourceTableId rel),
        findTable tables (targetTableId rel) with
  | Some sourceTable, Some targetTable =>
    match findPK sourceTable, findPK targetTable with
    | Some sourcePK, Some targetPK =>
      if is_N_M (cardinality rel) then EmptyString else
      match constraintSide rel sourceTable targetTable sourcePK targetPK with
      | Some (fkColumnName, fkTable, pkColumn) =>
        let fkName := "FK_" +:+ t_name fkTable +:+ "_" +:+ t_name targetTable in
        let sql := "ALTER TABLE [" +:+ t_name fkTable +:+ "]" +:+ nl in
        let sql := sql +:+ "    ADD CONSTRAINT [" +:+ fkName
                       +:+ "] FOREIGN KEY ([" +:+ fkColumnName +:+ "])" +:+ nl in
        let sql := sql +:+ "    REFERENCES [" +:+ t_name targetTable +:+ "](["
                       +:+ c_name pkColumn +:+ "])" in
        let sql :=
          if negb (is_NO_ACTION (onDelete rel))
          then sql +:+ nl +:+ "    ON DELETE " +:+ RefAction_str (onDelete rel)
          else sql in
        let sql :=
          if negb (is_NO_ACTION (onUpdate rel))
          then sql +:+ nl +:+ "    ON UPDATE " +:+ RefAction_str (onUpdate rel)
          else sql in
        sql +:+ ";"
      | None => EmptyString
      end
    | _, _ => EmptyString
    end
  | _, _ => EmptyString
  end.

(** A non-empty string is truthy: [if (alterSQL)]. *)
Definition truthy (s : string) : bool :=
  match s with EmptyString => false | _ => true end.

(** [generate(schema)] of a generator built for [dialect], called when the
    clock reads [now]. *)
Definition generate (dialect : SQLDialect) (now : string) (schema : Schema)
  : option string :=
  let sql := EmptyString in
  let sql := sql +:+ generateHeader dialect now in
  let sql := sql +:+ nl +:+ nl in
  let nonMNRelationships :=
    List.filter (λ rel, negb (is_N_M (cardinality rel))) (relationships schema) in
  let mnRelationships :=
    List.filter (λ rel, is_N_M (cardinality rel)) (relationships schema) in
  let sql :=
    fold_left (λ sql rel,
                 (sql +:+ generateJunctionTable rel (tables schema)) +:+ nl)
              mnRelationships sql in
  schemaWithFK ← addForeignKeyFields
                   {| tables := tables schema;
                      relationships := nonMNRelationships |};
  let sql :=
    fold_left (λ sql table, (sql +:+ generateCreateTable table) +:+ nl +:+ nl)
              (tables schemaWithFK) sql in
  let sql :=
    fold_left (λ sql rel,
                 let alterSQL :=
                   generateForeignKeyConstraint rel (tables schemaWithFK) in
                 if truthy alterSQL then sql +:+ (alterSQL +:+ nl) else sql)
              nonMNRelationships sql in
  Some sql.

End SQLGenerator.

(** ** [addForeignKeyFields] on a store of objects

    The same method with the JavaScript objects kept apart from the
    references to them: arrays and table objects live in a store, a
    variable holds a location, [{...t, columns: [...t.columns]}] and
    [[...cs, c]] allocate, and [tables[tableIndex] = v] writes into the
    array [tables] refers to.  [Column] and [Relationship] objects are only
    ever read by this method and stay values. *)

Module Store.

Abbreviation loc := nat (only parsing).

Inductive obj :=
  | OColumns (cs : list Column)
  | OTable (id name : string) (cols : loc) (x y : Z)
  | OTables (ts : list loc)
  | ORelationships (rs : list Relationship)
  | OSchema (tbls rels : loc).

Abbreviation heap := (gmap nat obj) (only parsing).

(** Store-passing computations; [None] is an uncaught [TypeError]. *)
Definition M (A : Type) : Type := heap → option (A * heap).

Definition ret {A} (a : A) : M A := λ h, Some (a, h).

Definition bind {A B} (m : M A) (k : A → M B) : M B :=
  λ h, match m h with
       | Some (a, h') => k a h'
       | None => None
       end.

Definition throw {A} : M A := λ _, None.

Notation "'do' x <- m ; k" := (bind m (λ x, k))
  (at level 10, x name, m at level 100, k at level 200).
Notation "'do' ' p <- m ; k" := (bind m (λ x, match x with p => k end))
  (at level 10, p pattern, m at level 100, k at level 200).

Definition alloc (o : obj) : M loc :=
  λ h, let l := fresh (dom h) in Some (l, <[l := o]> h).

Definition store (l : loc) (o : obj) : M unit :=
  λ h, match h !! l with
       | Some _ => Some (tt, <[l := o]> h)
       | None => None
       end.

Definition loadColumns (l : loc) : M (list Column) :=
  λ h, match h !! l with Some (OColumns cs) => Some (cs, h) | _ => None end.

Definition loadTable (l : loc) : M (string * string * loc * Z * Z) :=
  λ h, match h !! l with
       | Some (OTable id name cols x y) => Some ((id, name, cols, x, y), h)
       | _ => None
       end.

Definition loadTables (l : loc) : M (list loc) :=
  λ h, match h !! l with Some (OTables ts) => Some (ts, h) | _ => None end.

Definition loadRelationships (l : loc) : M (list Relationship) :=
  λ h, match h !! l with
       | Some (ORelationships rs) => Some (rs, h)
       | _ => None
       end.

Definition loadSchema (l : loc) : M (loc * loc) :=
  λ h, match h !! l with
       | Some (OSchema tbls rels) => Some ((tbls, rels), h)
       | _ => None
       end.

(** [t.id] *)
Definition idOf (t : loc) : M string :=
  do '(id, _, _, _, _) <- loadTable t; ret id.

(** [t.columns], read through to the array *)
Definition columnsOf (t : loc) : M (list Column) :=
  do '(_, _, cols, _, _) <- loadTable t; loadColumns cols.

(** [arr.find(t => t.id === id)] on an array of references *)
Fixpoint findTableH (arr : list loc) (id : string) : M (option loc) :=
  match arr with
  | [] => ret None
  | t :: arr' =>
      do i <- idOf t;
      if String.eqb i id then ret (Some t) else findTableH arr' id
  end.

(** [arr.findIndex(t => t.id === id)] *)
Fixpoint findIndexH (arr : list loc) (id : string) : M (option nat) :=
  match arr with
  | [] => ret None
  | t :: arr' =>
      do i <- idOf t;
      if String.eqb i id then ret (Some 0)
      else do r <- findIndexH arr' id; ret (S <$> r)
  end.

(** [t => ({...t, columns: [...t.columns]})] *)
Definition copyTable (t : loc) : M loc :=
  do '(id, name, cols, x, y) <- loadTable t;
  do cs <- loadColumns cols;
  do cols' <- alloc (OColumns cs);
  alloc (OTable id name cols' x y).

(** [arr.map(f)] *)
Fixpoint mapH {A B} (f : A → M B) (l : list A) : M (list B) :=
  match l with
  | [] => ret []
  | a :: l' => do b <- f a; do bs <- mapH f l'; ret (b :: bs)
  end.

(** [for (const a of l) f(a)] *)
Fixpoint forH {A} (f : A → M unit) (l : list A) : M unit :=
  match l with
  | [] => ret tt
  | a :: l' => do _ <- f a; forH f l'
  end.

(** The loop body; [tables] is the local variable, a reference to the
    working array. *)
Definition fkStepH (tables : loc) (rel : Relationship) : M unit :=
  do arr <- loadTables tables;
  do sourceTable <- findTableH arr (sourceTableId rel);
  do targetTable <- findTableH arr (targetTableId rel);
  match sourceTable, targetTable with
  | Some sourceTable, Some targetTable =>
    do scs <- columnsOf sourceTable;
    do tcs <- columnsOf targetTable;
    match List.find (λ c, String.eqb (c_id c) (sourceColumnId rel)) scs,
          List.find (λ c, String.eqb (c_id c) (targetColumnId rel)) tcs with
    | Some sourceColumn, Some targetColumn =>
      if is_N_M (cardinality rel) then ret tt else
      match List.find primaryKey scs, List.find primaryKey tcs with
      | Some sourcePK, Some targetPK =>
        match SQLGenerator.fkSide rel sourcePK targetPK with
        | Some (manyTableId, fkColumnName, pkColumn) =>
          do existingTable <- findTableH arr manyTableId;
          match existingTable with
          | Some existingTable =>
            do ecs <- columnsOf existingTable;
            if existsb (λ c, String.eqb (c_name c) fkColumnName) ecs
            then ret tt
            else
              let fkc :=
                SQLGenerator.fkColumn rel manyTableId fkColumnName pkColumn in
              do tableIndex <- findIndexH arr manyTableId;
              match tableIndex with
              | Some tableIndex =>
                  match arr !! tableIndex with
                  | Some t =>
                      do '(id, name, cols, x, y) <- loadTable t;
                      do cs <- loadColumns cols;
                      do cols' <- alloc (OColumns (cs ++ [fkc]));
                      do t' <- alloc (OTable id name cols' x y);
                      store tables (OTables (<[tableIndex := t']> arr))
                  | None => throw
                  end
              | None => ret tt
              end
          | None => ret tt
          end
        | None => ret tt
        end
      | _, _ => ret tt
      end
    | _, _ => ret tt
    end
  | _, _ => ret tt
  end.

(** [addForeignKeyFields(schema)]: the reference to the returned object. *)
Definition addForeignKeyFieldsH (schema : loc) : M loc :=
  do '(tbls, rels) <- loadSchema schema;
  do arr <- loadTables tbls;
  do arr' <- mapH copyTable arr;
  do tables <- alloc (OTables arr');
  do rs <- loadRelationships rels;
  do _ <- forH (fkStepH tables) rs;
  alloc (OSchema tables rels).

(** The value a reference denotes in a store. *)
Definition absTable (h : heap) (t : loc) : option Table :=
  match h !! t with
  | Some (OTable id name cols x y) =>
      match h !! cols with
      | Some (OColumns cs) =>
          Some {| t_id := id; t_name := name; columns := cs;
                  t_x := x; t_y := y |}
      | _ => None
      end
  | _ => None
  end.

Definition absTables (h : heap) (l : loc) : option (list Table) :=
  match h !! l with
  | Some (OTables arr) => mapM (absTable h) arr
  | _ => None
  end.

Definition absSchema (h : heap) (l : loc) : option Schema :=
  match h !! l with
  | Some (OSchema tbls rels) =>
      match absTables h tbls, h !! rels with
      | Some ts, Some (ORelationships rs) =>
          Some {| tables := ts; relationships := rs |}
      | _, _ => None
      end
  | _ => None
  end.

End Store.

(** ** The mode toggle and the remediation handlers ([App.tsx]) *)

Module App.

Inductive NodeType := tableNode | entityNode.

(** [node.data].  A table node carries a [Table], an entity node an
    [Entity]; the toggle builds the new object with a spread of the old one,
    so a converted node keeps the fields of both.  An absent field is
    [None].  The callbacks the toggle attaches ([onEditTable], ...) are
    left out. *)
Record NodeData := {
  d_id : string;
  d_name : string;
  d_x : Z;
  d_y : Z;
  d_columns : option (list Column);
  d_attributes : option (list Attribute)
}.

Record Node := {
  n_id : string;
  n_type : NodeType;
  n_position : Z * Z;
  n_data : NodeData
}.

Definition is_tableNode (n : Node) : bool :=
  match n_type n with tableNode => true | entityNode => false end.

Definition is_entityNode (n : Node) : bool :=
  match n_type n with entityNode => true | tableNode => false end.

Definition is_PRIMARY (a : AttributeType) : bool :=
  match a with PRIMARY => true | _ => false end.

(** [col => ({id: col.id, name: col.name,
              type: col.primaryKey ? 'PRIMARY' : 'NORMAL',
              dataType: col.type})] *)
Definition attributeOfColumn (col : Column) : Attribute :=
  {| a_id := c_id col;
     a_name := c_name col;
     a_type := if primaryKey col then PRIMARY else NORMAL;
     dataType := Some (c_type col) |}.

(** [attr => ({id: attr.id, name: attr.name,
               type: attr.dataType || (attr.type === 'PRIMARY' ? 'INTEGER' : 'TEXT'),
               primaryKey: attr.type === 'PRIMARY', ...})].
    Every [DataType] is a non-empty string, so a present [dataType] is
    truthy. *)
Definition columnOfAttribute (attr : Attribute) : Column :=
  {| c_id := a_id attr;
     c_name := a_name attr;
     c_type := match dataType attr with
               | Some d => d
               | None => if is_PRIMARY (a_type attr) then INTEGER else TEXT
               end;
     primaryKey := is_PRIMARY (a_type attr);
     nullable := negb (is_PRIMARY (a_type attr));
     unique := is_PRIMARY (a_type attr);
     autoIncrement := is_PRIMARY (a_type attr);
     isForeignKey := None;
     referencesTable := None;
     referencesColumn := None |}.

(** The callback of [tableNodes.map] in the LOGICAL branch;
    [table.columns.map] raises when [columns] is absent. *)
Definition entityOfTableNode (n : Node) : option Node :=
  cols ← d_columns (n_data n);
  Some {| n_id := n_id n;
          n_type := entityNode;
          n_position := n_position n;
          n_data :=
            {| d_id := d_id (n_data n);
               d_name := d_name (n_data n);
               d_x := d_x (n_data n);
               d_y := d_y (n_data n);
               d_columns := d_columns (n_data n);
               d_attributes := Some (map attributeOfColumn cols) |} |}.

(** The callback of [entityNodes.map] in the CONCEPTUAL branch. *)
Definition tableOfEntityNode (n : Node) : option Node :=
  attrs ← d_attributes (n_data n);
  Some {| n_id := n_id n;
          n_type := tableNode;
          n_position := n_position n;
          n_data :=
            {| d_id := d_id (n_data n);
               d_name := d_name (n_data n);
               d_x := d_x (n_data n);
               d_y := d_y (n_data n);
               d_columns := Some (map columnOfAttribute attrs);
               d_attributes := d_attributes (n_data n) |} |}.

(** The [onClick] of the mode button: the new node list and the new mode. *)
Definition toggleMode (schemaMode : SchemaMode) (nodes : list Node)
  : option (list Node * SchemaMode) :=
  match schemaMode with
  | LOGICAL =>
      let tableNodes := List.filter is_tableNode nodes in
      let entityNodes := List.filter is_entityNode nodes in
      newEntities ← mapM entityOfTableNode tableNodes;
      let allNodes := entityNodes ++ newEntities in
      Some (allNodes, CONCEPTUAL)
  | CONCEPTUAL =>
      let entityNodes := List.filter is_entityNode nodes in
      let tableNodes := List.filter is_tableNode nodes in
      newTables ← mapM tableOfEntityNode entityNodes;
      let allNodes := tableNodes ++ newTables in
      Some (allNodes, LOGICAL)
  end.

(** [table.columns.map((col, idx) => ({...col, primaryKey: idx === 0,
    nullable: idx !== 0}))] *)
Definition markFirstPrimary (cols : list Column) : list Column :=
  imap (λ idx col,
          {| c_id := c_id col; c_name := c_name col; c_type := c_type col;
             primaryKey := Nat.eqb idx 0;
             nullable := negb (Nat.eqb idx 0);
             unique := unique col;
             autoIncrement := autoIncrement col;
             isForeignKey := isForeignKey col;
             referencesTable := referencesTable col;
             referencesColumn := referencesColumn col |}) cols.

(** [handleAddConstraint(table, constraintType)] as the update it passes
    to [setNodes]; the [alert] calls are left out. *)
Definition handleAddConstraint (table : Table) (constraintType : string)
    (nds : list Node) : list Node :=
  if String.eqb constraintType "PRIMARY_KEY" &&
     Nat.ltb 0 (List.length (columns table))
  then
    map (λ n,
           if String.eqb (n_id n) (t_id table) then
             {| n_id := n_id n; n_type := n_type n;
                n_position := n_position n;
                n_data :=
                  {| d_id := t_id table; d_name := t_name table;
                     d_x := t_x table; d_y := t_y table;
                     d_columns := Some (markFirstPrimary (columns table));
                     d_attributes := None |} |}
           else n) nds
  else nds.

End App.

(** ** The advisory analysis ([RecommendationPanel]) *)

Module RecommendationPanel.

(** What the [action] closure of a finding calls when it is run. *)
Inductive Action :=
  | onCreateJunctionTable (sourceTable targetTable : Table)
  | onAddConstraint (table : Table) (constraintType : string)
  | onFixValidation (issue : string).

Inductive Severity := high | medium | low | info.

Record Finding := {
  f_id : string;
  f_type : string;
  title : string;
  description : string;
  severity : Severity;
  action : option Action;
  actionLabel : string
}.

(** [columnNames.filter((name, index) => columnNames.indexOf(name) !== index)] *)
Definition duplicateNames (columnNames : list string) : list string :=
  omap (λ p, let '(index, name) := p in
             match findIndex (String.eqb name) columnNames with
             | Some first => if Nat.eqb first index then None else Some name
             | None => Some name
             end)
       (imap pair columnNames).

Section Analyze.

(** [String.prototype.toLowerCase], a built-in of the host. *)
Variable toLowerCase : string → string.

Variable tables : list Table.
Variable entities : list Entity.
Variable relationships : list Relationship.
Variable conceptualRelationships : list ConceptualRelationship.
Variable schemaMode : SchemaMode.

(** The [forEach] callback of check 1: an N:M relationship whose two
    tables exist. *)
Definition nmFinding (rel : Relationship) : list Finding :=
  match SQLGenerator.findTable tables (sourceTableId rel),
        SQLGenerator.findTable tables (targetTableId rel) with
  | Some sourceTable, Some targetTable =>
      [ {| f_id := "rec-nm-" +:+ r_id rel;
           f_type := "n_m_relationship";
           title := "Связь многие-ко-многим обнаружена";
           description :=
             "Связь между " +:+ quote +:+ t_name sourceTable +:+ quote
               +:+ " и " +:+ quote +:+ t_name targetTable +:+ quote
               +:+ " имеет мощность N:M. Рекомендуется создать промежуточную таблицу.";
           severity := high;
           action := Some (onCreateJunctionTable sourceTable targetTable);
           actionLabel := "Создать промежуточную таблицу" |} ]
  | _, _ => []
  end.

(** Check 2: a table without a primary key. *)
Definition noPKFinding (table : Table) : list Finding :=
  let hasPrimaryKey := existsb primaryKey (columns table) in
  if negb hasPrimaryKey then
    [ {| f_id := "val-nopk-" +:+ t_id table;
         f_type := "no_primary_key";
         title := "Таблица без первичного ключа";
         description :=
           "Таблица " +:+ quote +:+ t_name table +:+ quote
             +:+ " не имеет первичного ключа.";
         severity := high;
         action := Some (onAddConstraint table "PRIMARY_KEY");
         actionLabel := "Добавить первичный ключ" |} ]
  else [].

(** Check 3: column names that repeat, ignoring case. *)
Definition dupColFinding (table : Table) : list Finding :=
  let columnNames := map (λ col, toLowerCase (c_name col)) (columns table) in
  let duplicateColumns := duplicateNames columnNames in
  if Nat.ltb 0 (List.length duplicateColumns) then
    [ {| f_id := "val-dupcol-" +:+ t_id table;
         f_type := "duplicate_columns";
         title := "Дублирующиеся имена колонок";
         description :=
           "В таблице " +:+ quote +:+ t_name table +:+ quote
             +:+ " найдены колонки с одинаковыми именами.";
         severity := medium;
         action := Some (onFixValidation
                           ("rename_duplicate_columns_" +:+ t_id table));
         actionLabel := "Исправить" |} ]
  else [].

(** Check 4: the source column of a relationship is not unique. *)
Definition indexFinding (rel : Relationship) : list Finding :=
  match SQLGenerator.findTable tables (sourceTableId rel) with
  | Some sourceTable =>
      match SQLGenerator.findColumn sourceTable (sourceColumnId rel) with
      | Some fkColumn =>
          if negb (unique fkColumn) then
            [ {| f_id := "rec-index-" +:+ r_id rel;
                 f_type := "missing_index";
                 title := "Внешний ключ без индекса";
                 description :=
                   "Колонка " +:+ quote +:+ c_name fkColumn +:+ quote
                     +:+ " в таблице " +:+ quote +:+ t_name sourceTable +:+ quote
                     +:+ " используется как внешний ключ, но не имеет индекса.";
                 severity := medium;
                 action := Some (onAddConstraint sourceTable "INDEX");
                 actionLabel := "Добавить индекс" |} ]
          else []
      | None => []
      end
  | None => []
  end.

Definition is_TEXT (t : DataType) : bool :=
  match t with TEXT => true | _ => false end.

(** Check 5: free-text columns whose name carries no length hint. *)
Definition textLenFinding (table : Table) : list Finding :=
  let longTextColumns :=
    List.filter (λ col, is_TEXT (c_type col)
                        && negb (includes (c_name col) "length")
                        && negb (includes (c_name col) "size"))
                (columns table) in
  if Nat.ltb 0 (List.length longTextColumns) then
    [ {| f_id := "rec-textlen-" +:+ t_id table;
         f_type := "text_length";
         title := "Текстовые поля без ограничения длины";
         description :=
           "В таблице " +:+ quote +:+ t_name table +:+ quote
             +:+ " есть текстовые поля без указания максимальной длины.";
         severity := low;
         action := Some (onAddConstraint table "CHECK_LENGTH");
         actionLabel := "Добавить ограничения" |} ]
  else [].

(** Conceptual check 1: an entity without a primary attribute. *)
Definition concNoPKFinding (entity : Entity) : list Finding :=
  let hasPrimaryKey :=
    existsb (λ attr, App.is_PRIMARY (a_type attr)) (attributes entity) in
  if negb hasPrimaryKey then
    [ {| f_id := "conc-nopk-" +:+ e_id entity;
         f_type := "no_primary_key";
         title := "Сущность без первичного ключа";
         description :=
           "Сущность " +:+ quote +:+ e_name entity +:+ quote
             +:+ " не имеет первичного ключа.";
         severity := high;
         action := Some (onFixValidation ("add_primary_key_" +:+ e_id entity));
         actionLabel := "Добавить первичный ключ" |} ]
  else [].

(** Conceptual check 2: an N:M relationship between two known entities. *)
Definition concNMFinding (rel : ConceptualRelationship) : list Finding :=
  match List.find (λ e, String.eqb (e_id e) (sourceEntityId rel)) entities,
        List.find (λ e, String.eqb (e_id e) (targetEntityId rel)) entities with
  | Some sourceEntity, Some targetEntity =>
      [ {| f_id := "conc-nm-" +:+ cr_id rel;
           f_type := "n_m_relationship";
           title := "Связь многие-ко-многим в концептуальной схеме";
           description :=
             "Связь между " +:+ quote +:+ e_name sourceEntity +:+ quote
               +:+ " и " +:+ quote +:+ e_name targetEntity +:+ quote
               +:+ " имеет мощность N:M. При преобразовании в логическую схему потребуется промежуточная таблица.";
           severity := info;
           action := None;
           actionLabel := "Пометить для преобразования" |} ]
  | _, _ => []
  end.

(** [analyzeSchema()]: the pair it hands to [setRecommendations] and
    [setValidationIssues].  Each [forEach] pushes in list order. *)
Definition analyzeSchema : list Finding * list Finding :=
  match schemaMode with
  | LOGICAL =>
      let nmRelationships :=
        List.filter (λ rel, is_N_M (cardinality rel)) relationships in
      let newRecommendations := List.concat (map nmFinding nmRelationships) in
      let newValidationIssues := List.concat (map noPKFinding tables) in
      let newValidationIssues :=
        newValidationIssues ++ List.concat (map dupColFinding tables) in
      let newRecommendations :=
        newRecommendations ++ List.concat (map indexFinding relationships) in
      let newRecommendations :=
        newRecommendations ++ List.concat (map textLenFinding tables) in
      (newRecommendations, newValidationIssues)
  | CONCEPTUAL =>
      let newValidationIssues := List.concat (map concNoPKFinding entities) in
      let nmConceptualRelationships :=
        List.filter (λ rel, is_N_M (cr_cardinality rel))
                    conceptualRelationships in
      let newRecommendations :=
        List.concat (map concNMFinding nmConceptualRelationships) in
      (newRecommendations, newValidationIssues)
  end.

End Analyze.

End RecommendationPanel.

(** ** Predicates and derived notions used by the statements *)

Import SQLGenerator.

(** The relationship names two existing tables and two existing columns:
    the first two guards of the loop body. *)
Definition idsResolve (ts : list Table) (rel : Relationship) : bool :=
  match findTable ts (sourceTableId rel), findTable ts (targetTableId rel) with
  | Some sourceTable, Some targetTable =>
      match findColumn sourceTable (sourceColumnId rel),
            findColumn targetTable (targetColumnId rel) with
      | Some _, Some _ => true
      | _, _ => false
      end
  | _, _ => false
  end.

(** The destination the remaining guards and the [switch] settle on. *)
Definition placement (ts : list Table) (rel : Relationship)
  : option (string * string * Column) :=
  match findTable ts (sourceTableId rel), findTable ts (targetTableId rel) with
  | Some sourceTable, Some targetTable =>
      if is_N_M (cardinality rel) then None else
      match findPK sourceTable, findPK targetTable with
      | Some sourcePK, Some targetPK => fkSide rel sourcePK targetPK
      | _, _ => None
      end
  | _, _ => None
  end.

(** [t'] is [t] with columns appended, none of them a primary key. *)
Definition grows (t t' : Table) : Prop :=
  t_id t' = t_id t ∧ t_name t' = t_name t ∧
  t_x t' = t_x t ∧ t_y t' = t_y t ∧
  ∃ added, columns t' = columns t ++ added ∧
           Forall (λ c, primaryKey c = false) added.

Definition extends (ts ts' : list Table) : Prop := Forall2 grows ts ts'.

(** Columns per table, and in total. *)
Definition columnCounts (ts : list Table) : list nat :=
  map (λ t, List.length (columns t)) ts.

Definition totalColumns (ts : list Table) : nat :=
  sum_list (columnCounts ts).

(** No relationship has declared column ids that are dangling in the
    schema yet resolve once the FK columns are in: no declared id names a
    column the pass itself creates. *)
Definition idsStable (S : Schema) : bool :=
  match addForeignKeyFields S with
  | Some S1 =>
      forallb (λ r, implb (idsResolve (tables S1) r) (idsResolve (tables S) r))
              (relationships S)
  | None => false
  end.

(** *** The statements of a generated script *)

Fixpoint concatAll (l : list string) : string :=
  match l with
  | [] => EmptyString
  | s :: l' => s +:+ concatAll l'
  end.

Definition nonMN (S : Schema) : list Relationship :=
  List.filter (λ rel, negb (is_N_M (cardinality rel))) (relationships S).

Definition onlyMN (S : Schema) : list Relationship :=
  List.filter (λ rel, is_N_M (cardinality rel)) (relationships S).

(** What [generateJunctionTable] returns for each N:M relationship, in
    relationship order. *)
Definition junctionStatements (S : Schema) : list string :=
  map (λ rel, generateJunctionTable rel (tables S)) (onlyMN S).

(** [schemaWithFK.tables] *)
Definition resolvedTables (S : Schema) : list Table :=
  match addForeignKeyFields
          {| tables := tables S; relationships := nonMN S |} with
  | Some schemaWithFK => tables schemaWithFK
  | None => []
  end.

Definition createStatements (S : Schema) : list string :=
  map generateCreateTable (resolvedTables S).

(** The ALTER TABLE statement of one relationship: what
    [generateForeignKeyConstraint] returns on the resolved tables, empty
    when it emits none. *)
Definition alterStatement (S : Schema) (rel : Relationship) : string :=
  generateForeignKeyConstraint rel (resolvedTables S).

(** The statements the last loop of [generate] appends. *)
Definition alterStatements (S : Schema) : list string :=
  List.filter truthy (map (alterStatement S) (nonMN S)).

(** The script after the header. *)
Definition ddlBody (S : Schema) : string :=
  concatAll (map (λ s, s +:+ nl) (junctionStatements S))
  +:+ concatAll (map (λ s, s +:+ nl +:+ nl) (createStatements S))
  +:+ concatAll (map (λ s, s +:+ nl) (alterStatements S)).

(** Building blocks of the example schemas. *)
Definition mkColumn (id name : string) (ty : DataType) (pk : bool) : Column :=
  {| c_id := id; c_name := name; c_type := ty;
     primaryKey := pk; nullable := negb pk; unique := pk;
     autoIncrement := false;
     isForeignKey := None; referencesTable := None;
     referencesColumn := None |}.

Definition mkTable (id name : string) (cs : list Column) : Table :=
  {| t_id := id; t_name := name; columns := cs; t_x := 0; t_y := 0 |}.

Definition mkRel (id src srcCol tgt tgtCol : string) (card : Cardinality)
    (so to : bool) : Relationship :=
  {| r_id := id; sourceTableId := src; sourceColumnId := srcCol;
     targetTableId := tgt; targetColumnId := tgtCol;
     cardinality := card; sourceOptional := so; targetOptional := to;
     onDelete := NO_ACTION; onUpdate := NO_ACTION |}.

(** Three tables; the first relationship declares as its source column
    the column the second relationship makes the pass create. *)
Definition lateIdSchema : Schema :=
  {| tables :=
       [ mkTable "A" "Author" [mkColumn "a1" "author_id" INTEGER true];
         mkTable "B" "Book" [mkColumn "b1" "book_id" INTEGER true];
         mkTable "C" "City" [mkColumn "c1" "city_id" INTEGER true] ];
     relationships :=
       [ mkRel "r1" "A" "fk-r2-A" "B" "b1" Card_1_N false false;
         mkRel "r2" "A" "a1" "C" "c1" Card_N_1 false false ] |}.

(** Two tables with distinct key names and one 1:N relationship. *)
Definition authorBookSchema : Schema :=
  {| tables :=
       [ mkTable "A" "Author" [mkColumn "a1" "author_id" INTEGER true];
         mkTable "B" "Book" [mkColumn "b1" "book_id" INTEGER true] ];
     relationships :=
       [ mkRel "r1" "A" "a1" "B" "b1" Card_1_N false false ] |}.

(** Two tables whose keys are both called [id], and one 1:N relationship
    between them. *)
Definition sameKeySchema : Schema :=
  {| tables :=
       [ mkTable "D" "Department" [mkColumn "d1" "id" INTEGER true];
         mkTable "E" "Employee" [mkColumn "e1" "id" INTEGER true] ];
     relationships :=
       [ mkRel "r1" "D" "d1" "E" "e1" Card_1_N false false ] |}.

(** A person and a passport, 1:1 with both ends optional. *)
Definition passportTables : list Table :=
  [ mkTable "P" "Person" [mkColumn "p1" "person_id" INTEGER true];
    mkTable "Q" "Passport" [mkColumn "q1" "passport_no" TEXT true] ].

Definition passportRel : Relationship :=
  mkRel "r1" "P" "p1" "Q" "q1" Card_1_1 true true.

(** *** The placement rule, in the words of the specification

    1:N puts the FK column on the target, N:1 on the source, 1:1 on the
    optional end (the target first), and nothing otherwise. *)
Inductive Side := onSource | onTarget.

Definition placementRule (rel : Relationship) : option Side :=
  match cardinality rel with
  | Card_1_N => Some onTarget
  | Card_N_1 => Some onSource
  | Card_1_1 =>
      if targetOptional rel then Some onTarget
      else if sourceOptional rel then Some onSource
      else None
  | Card_N_M => None
  end.

(** The FK column the specification describes: name and logical type of
    the referenced key, not a key itself, nullable when either end is
    optional, unique for 1:1 only. *)
Definition specFkColumn (rel : Relationship) (destId : string)
    (referenced : Column) : Column :=
  {| c_id := "fk-" +:+ r_id rel +:+ "-" +:+ destId;
     c_name := c_name referenced;
     c_type := c_type referenced;
     primaryKey := false;
     nullable := sourceOptional rel || targetOptional rel;
     unique := match cardinality rel with Card_1_1 => true | _ => false end;
     autoIncrement := false;
     isForeignKey := None;
     referencesTable := None;
     referencesColumn := None |}.

(** [ts] with the table at index [i] given one more column. *)
Definition appendColumn (ts : list Table) (i : nat) (t : Table) (c : Column)
  : list Table :=
  <[i := with_columns t (columns t ++ [c])]> ts.

Definition hasColumnNamed (t : Table) (n : string) : bool :=
  existsb (λ c, String.eqb (c_name c) n) (columns t).

(** Where the rule puts the FK column of a relationship whose two tables
    exist and have a key: the destination table and the referenced key.
    Nothing for a relationship the rule gives no side. *)
Definition ruleDestination (ts : list Table) (rel : Relationship)
  : option (Table * Column) :=
  match findTable ts (sourceTableId rel), findTable ts (targetTableId rel) with
  | Some sourceTable, Some targetTable =>
      match findPK sourceTable, findPK targetTable with
      | Some sourcePK, Some targetPK =>
          match placementRule rel with
          | Some onTarget => Some (targetTable, sourcePK)
          | Some onSource => Some (sourceTable, targetPK)
          | None => None
          end
      | _, _ => None
      end
  | _, _ => None
  end.

(** [c] is a column the rule dictates for the table [t] of [ts]: the FK
    column of a relationship of [rs] whose destination is [t]. *)
Definition dictated (ts : list Table) (rs : list Relationship) (t : Table)
    (c : Column) : Prop :=
  ∃ r referenced,
    In r rs ∧ ruleDestination ts r = Some (t, referenced) ∧
    c = specFkColumn r (t_id t) referenced.

(** [t'] is the table [t] of [ts] after a pass over [rs]: the same id,
    name and position; the columns of [t] in order, followed by added
    columns, each dictated by the rule, each under a name [t] did not
    have, no two under the same name. *)
Definition resolvedFrom (ts : list Table) (rs : list Relationship)
    (t t' : Table) : Prop :=
  t_id t' = t_id t ∧ t_name t' = t_name t ∧
  t_x t' = t_x t ∧ t_y t' = t_y t ∧
  ∃ added, columns t' = columns t ++ added ∧
           Forall (dictated ts rs t) added ∧
           Forall (λ c, hasColumnNamed t (c_name c) = false) added ∧
           NoDup (map c_name added).

(** *** The junction statement, in the words of the specification *)

(** The fixed table from logical to SQL types: text to bounded varchar,
    integer to integer, long integer to long, floating point to double,
    currency to currency, datetime to datetime, boolean to a single bit,
    auto-increment to counter, long text to long text, binary object to
    object reference. *)
Definition sqlTypeName (t : DataType) : string :=
  match t with
  | TEXT => "VARCHAR(255)"
  | INTEGER => "INTEGER"
  | LONG => "LONG"
  | DOUBLE => "DOUBLE"
  | CURRENCY => "CURRENCY"
  | DATETIME => "DATETIME"
  | BOOLEAN => "BIT"
  | AUTOINCREMENT => "COUNTER"
  | MEMO => "LONGTEXT"
  | OLE => "OLEOBJECT"
  end.

(** The junction statement of two tables with the keys [sp] and [tp]:
    named after the two tables; one column per endpoint with the name and
    the SQL type of that endpoint's key, both NOT NULL; a composite
    primary key in (source, target) order; one foreign key per column to
    the key of the table it comes from. *)
Definition junctionText (st tt : Table) (sp tp : Column) : string :=
  let name := t_name st +:+ "_" +:+ t_name tt in
  "CREATE TABLE [" +:+ name +:+ "] (" +:+ nl +:+
  "    [" +:+ c_name sp +:+ "] " +:+ sqlTypeName (c_type sp)
    +:+ " NOT NULL," +:+ nl +:+
  "    [" +:+ c_name tp +:+ "] " +:+ sqlTypeName (c_type tp)
    +:+ " NOT NULL," +:+ nl +:+
  "    CONSTRAINT [PK_" +:+ name +:+ "] PRIMARY KEY ([" +:+ c_name sp
    +:+ "], [" +:+ c_name tp +:+ "])," +:+ nl +:+
  "    CONSTRAINT [FK_" +:+ name +:+ "_" +:+ t_name st +:+ "] FOREIGN KEY (["
    +:+ c_name sp +:+ "]) REFERENCES [" +:+ t_name st +:+ "](["
    +:+ c_name sp +:+ "])," +:+ nl +:+
  "    CONSTRAINT [FK_" +:+ name +:+ "_" +:+ t_name tt +:+ "] FOREIGN KEY (["
    +:+ c_name tp +:+ "]) REFERENCES [" +:+ t_name tt +:+ "](["
    +:+ c_name tp +:+ "])" +:+ nl +:+
  ");" +:+ nl +:+ nl.

(** The script [generate] gives the junction table of a relationship, in
    the words of the specification: the junction statement when both
    tables exist and have a key, nothing otherwise. *)
Definition specJunction (ts : list Table) (rel : Relationship) : string :=
  match findTable ts (sourceTableId rel), findTable ts (targetTableId rel) with
  | Some sourceTable, Some targetTable =>
      match findPK sourceTable, findPK targetTable with
      | Some sourcePK, Some targetPK =>
          junctionText sourceTable targetTable sourcePK targetPK
      | _, _ => EmptyString
      end
  | _, _ => EmptyString
  end.

(** Students and courses, N:M. *)
Definition studentCourseSchema : Schema :=
  {| tables :=
       [ mkTable "S" "Student" [mkColumn "s1" "id" INTEGER true];
         mkTable "K" "Course" [mkColumn "k1" "id" INTEGER true] ];
     relationships :=
       [ mkRel "r1" "S" "s1" "K" "k1" Card_N_M false false ] |}.


(** A person and a passport as a schema, with the 1:1 relationship. *)
Definition passportSchema : Schema :=
  {| tables := passportTables; relationships := [passportRel] |}.

(** The same with both keys called [id]. *)
Definition sameKeyPassportSchema : Schema :=
  {| tables :=
       [ mkTable "P" "Person" [mkColumn "p1" "id" INTEGER true];
         mkTable "Q" "Passport" [mkColumn "q1" "id" TEXT true] ];
     relationships := [ passportRel ] |}.

(** The same with a relationship whose source column is gone. *)
Definition danglingPassportRel : Relationship :=
  mkRel "r1" "P" "removed" "Q" "q1" Card_1_1 true true.

Definition danglingPassportSchema : Schema :=
  {| tables := passportTables; relationships := [danglingPassportRel] |}.

(** The scenario of the specification: Customer and Invoice, each with the
    single column [id] (integer, primary key), and one 1:N relationship
    from Customer to Invoice on those columns.  Optionality and the
    referential actions are left open. *)
Definition customerInvoiceRel (so to : bool) (od ou : RefAction)
  : Relationship :=
  {| r_id := "r1"; sourceTableId := "T1"; sourceColumnId := "c1";
     targetTableId := "T2"; targetColumnId := "c2";
     cardinality := Card_1_N; sourceOptional := so; targetOptional := to;
     onDelete := od; onUpdate := ou |}.

Definition customerInvoice (so to : bool) (od ou : RefAction) : Schema :=
  {| tables :=
       [ mkTable "T1" "Customer" [mkColumn "c1" "id" INTEGER true];
         mkTable "T2" "Invoice" [mkColumn "c2" "id" INTEGER true] ];
     relationships := [ customerInvoiceRel so to od ou ] |}.

(** Customer and Invoice with distinct key names; the relationship still
    names a source column that has since been removed. *)
Definition danglingRel : Relationship :=
  mkRel "r1" "T1" "removed" "T2" "c2" Card_1_N false false.

Definition danglingSchema : Schema :=
  {| tables :=
       [ mkTable "T1" "Customer" [mkColumn "c1" "customer_id" INTEGER true];
         mkTable "T2" "Invoice" [mkColumn "c2" "invoice_id" INTEGER true] ];
     relationships := [ danglingRel ] |}.

(** *** Mode round trip and advisory findings *)

(** [t] is what the round trip made of the table node [n]: the same node
    and table identity, and column for column the same id, name, logical
    type and primary-key flag. *)
Definition roundTripOf (n t : App.Node) : Prop :=
  App.n_id t = App.n_id n ∧ App.n_type t = App.tableNode ∧
  App.n_position t = App.n_position n ∧
  App.d_id (App.n_data t) = App.d_id (App.n_data n) ∧
  App.d_name (App.n_data t) = App.d_name (App.n_data n) ∧
  ∃ cs cs',
    App.d_columns (App.n_data n) = Some cs ∧
    App.d_columns (App.n_data t) = Some cs' ∧
    map c_id cs' = map c_id cs ∧
    map c_name cs' = map c_name cs ∧
    map c_type cs' = map c_type cs ∧
    map primaryKey cs' = map primaryKey cs.

(** Every node carries the field its type promises. *)
Definition wellTyped (n : App.Node) : Prop :=
  match App.n_type n with
  | App.tableNode => is_Some (App.d_columns (App.n_data n))
  | App.entityNode => is_Some (App.d_attributes (App.n_data n))
  end.

Definition personNode : App.Node :=
  {| App.n_id := "T1"; App.n_type := App.tableNode;
     App.n_position := (100, 100)%Z;
     App.n_data :=
       {| App.d_id := "T1"; App.d_name := "Person";
          App.d_x := 100; App.d_y := 100;
          App.d_columns :=
            Some [ mkColumn "c1" "id" AUTOINCREMENT true;
                   mkColumn "c2" "name" TEXT false;
                   mkColumn "c3" "born" DATETIME false ];
          App.d_attributes := None |} |}.

Definition is_no_primary_key (f : RecommendationPanel.Finding) : bool :=
  String.eqb (RecommendationPanel.f_type f) "no_primary_key".

Definition lacksPrimaryKey (t : Table) : bool :=
  negb (existsb primaryKey (columns t)).

(** [f] is the missing-key issue of table [t]. *)
Definition noPKIssueOf (t : Table) (f : RecommendationPanel.Finding) : Prop :=
  RecommendationPanel.f_id f = "val-nopk-" +:+ t_id t ∧
  RecommendationPanel.f_type f = "no_primary_key" ∧
  RecommendationPanel.severity f = RecommendationPanel.high ∧
  RecommendationPanel.action f
    = Some (RecommendationPanel.onAddConstraint t "PRIMARY_KEY") ∧
  RecommendationPanel.actionLabel f = "Добавить первичный ключ".

(** A store holding [authorBookSchema]: two column arrays, two table
    objects, the [Table[]] array, the [Relationship[]] array and the schema
    object at location 6. *)
Definition authorBookStore : gmap nat Store.obj :=
  list_to_map
    [ (0, Store.OColumns [mkColumn "a1" "author_id" INTEGER true]);
      (1, Store.OTable "A" "Author" 0 0 0);
      (2, Store.OColumns [mkColumn "b1" "book_id" INTEGER true]);
      (3, Store.OTable "B" "Book" 2 0 0);
      (4, Store.OTables [1; 3]);
      (5, Store.ORelationships
            [mkRel "r1" "A" "a1" "B" "b1" Card_1_N false false]);
      (6, Store.OSchema 4 5) ].

(** *** Notions for the further properties of the generator *)

(** The column names of a table are pairwise distinct. *)
Definition distinctNames (t : Table) : Prop := NoDup (map c_name (columns t)).

(** * The editing layer

    The handlers of the table, entity and relationship dialogs and of the
    application component that change the canvas state (nodes, edges,
    relationships).  A handler that calls [setNodes], [setColumns], ... is
    the function from the state it reads to the state it sets; [alert] and
    the dialog flags are left out; [confirm] and the clock are
    arguments. *)



Fixpoint filteri_from {A} (k : nat) (p : A → nat → bool) (l : list A)
  : list A :=
  match l with
  | [] => []
  | a :: l' =>
      if p a k then a :: filteri_from (S k) p l' else filteri_from (S k) p l'
  end.

Definition filteri {A} (p : A → nat → bool) (l : list A) : list A :=
  filteri_from 0 p l.

(** [s.endsWith(suffix)] *)
Fixpoint endsWith (s suffix : string) : bool :=
  String.eqb s suffix ||
  match s with
  | EmptyString => false
  | String _ s' => endsWith s' suffix
  end.

(** Assignments to one field of a copy of a column. *)
Definition set_name (v : string) (c : Column) : Column :=
  {| c_id := c_id c; c_name := v; c_type := c_type c;
     primaryKey := primaryKey c; nullable := nullable c; unique := unique c;
     autoIncrement := autoIncrement c; isForeignKey := isForeignKey c;
     referencesTable := referencesTable c;
     referencesColumn := referencesColumn c |}.

Definition set_type (v : DataType) (c : Column) : Column :=
  {| c_id := c_id c; c_name := c_name c; c_type := v;
     primaryKey := primaryKey c; nullable := nullable c; unique := unique c;
     autoIncrement := autoIncrement c; isForeignKey := isForeignKey c;
     referencesTable := referencesTable c;
     referencesColumn := referencesColumn c |}.

Definition set_primaryKey (v : bool) (c : Column) : Column :=
  {| c_id := c_id c; c_name := c_name c; c_type := c_type c;
     primaryKey := v; nullable := nullable c; unique := unique c;
     autoIncrement := autoIncrement c; isForeignKey := isForeignKey c;
     referencesTable := referencesTable c;
     referencesColumn := referencesColumn c |}.

Definition set_nullable (v : bool) (c : Column) : Column :=
  {| c_id := c_id c; c_name := c_name c; c_type := c_type c;
     primaryKey := primaryKey c; nullable := v; unique := unique c;
     autoIncrement := autoIncrement c; isForeignKey := isForeignKey c;
     referencesTable := referencesTable c;
     referencesColumn := referencesColumn c |}.

Definition set_unique (v : bool) (c : Column) : Column :=
  {| c_id := c_id c; c_name := c_name c; c_type := c_type c;
     primaryKey := primaryKey c; nullable := nullable c; unique := v;
     autoIncrement := autoIncrement c; isForeignKey := isForeignKey c;
     referencesTable := referencesTable c;
     referencesColumn := referencesColumn c |}.

Definition set_autoIncrement (v : bool) (c : Column) : Column :=
  {| c_id := c_id c; c_name := c_name c; c_type := c_type c;
     primaryKey := primaryKey c; nullable := nullable c; unique := unique c;
     autoIncrement := v; isForeignKey := isForeignKey c;
     referencesTable := referencesTable c;
     referencesColumn := referencesColumn c |}.

(** ** The table dialog ([TableModal]) *)

Module TableModal.

(** The [(field, value)] pairs the form passes to [handleColumnChange]. *)
Inductive Change :=
  | primaryKey_ (value : bool)
  | type_ (value : DataType)
  | nullable_ (value : bool)
  | unique_ (value : bool)
  | name_ (value : string).

(** The body of [handleColumnChange] on the copy [col] of the column;
    [None] where the source returns before [setColumns]. *)
Definition changeColumn (col : Column) (ch : Change) : option Column :=
  match ch with
  | primaryKey_ value =>
      if value && autoIncrement col then None
      else
        let col := set_primaryKey value col in
        Some (if value then set_unique true (set_nullable false col) else col)
  | type_ value =>
      let col := set_type value col in
      Some (match value with
            | AUTOINCREMENT =>
                set_unique true
                  (set_nullable false
                     (set_primaryKey true (set_autoIncrement true col)))
            | _ =>
                if autoIncrement col then set_autoIncrement false col else col
            end)
  | nullable_ value =>
      if primaryKey col && value then None
      else Some (set_nullable value col)
  | unique_ value => Some (set_unique value col)
  | name_ value => Some (set_name value col)
  end.

(** [handleColumnChange(index, field, value)]: the next [columns].  The
    form only passes the index of a column it shows; for any other index
    the source would store an object with none of the fields of a column,
    which no [Column[]] holds: [None]. *)
Definition handleColumnChange (index : nat) (ch : Change)
    (columns : list Column) : option (list Column) :=
  col ← columns !! index;
  match changeColumn col ch with
  | Some col' => Some (<[index := col']> columns)
  | None => Some columns
  end.

(** [handleAddColumn()], the clock reading [now]. *)
Definition handleAddColumn (now : string) (columns : list Column)
  : list Column :=
  columns ++
  [ {| c_id := "col-" +:+ now; c_name := EmptyString; c_type := TEXT;
       primaryKey := false; nullable := true; unique := false;
       autoIncrement := false; isForeignKey := None;
       referencesTable := None; referencesColumn := None |} ].

(** [handleDeleteColumn(index)] *)
Definition handleDeleteColumn (index : nat) (columns : list Column)
  : list Column :=
  filteri (λ _ i, negb (Nat.eqb i index)) columns.

Section Save.

(** [String.prototype.trim], a built-in of the host. *)
Variable trim : string → string.

(** [handleSave()]: the table handed to [onSave], or [None] where the
    handler stops at an [alert].  [table] is the property of the dialog,
    absent for a new table. *)
Definition handleSave (table : option Table) (now : string)
    (tableName : string) (columns : list Column) : option Table :=
  if negb (SQLGenerator.truthy (trim tableName)) then None
  else if Nat.eqb (List.length columns) 0 then None
  else
    let hasEmptyName :=
      existsb (λ c, negb (SQLGenerator.truthy (trim (c_name c)))) columns in
    if hasEmptyName then None
    else
      Some {| t_id :=
                match table with
                | Some t =>
                    if SQLGenerator.truthy (t_id t) then t_id t
                    else "table-" +:+ now
                | None => "table-" +:+ now
                end;
              t_name := trim tableName;
              columns := map (λ c, set_name (trim (c_name c)) c) columns;
              t_x := match table with
                     | Some t => if Z.eqb (t_x t) 0 then 100%Z else t_x t
                     | None => 100%Z
                     end;
              t_y := match table with
                     | Some t => if Z.eqb (t_y t) 0 then 100%Z else t_y t
                     | None => 100%Z
                     end |}.

End Save.

End TableModal.

(** ** The entity dialog ([EntityModal]) *)

Module EntityModal.

(** The [(field, value)] pairs the form passes to
    [handleAttributeChange]. *)
Inductive Change :=
  | name_ (value : string)
  | type_ (value : AttributeType).





End EntityModal.

(** ** The relationship dialog ([RelationshipModal]) *)

Module RelationshipModal.

(** [handleSave()]: the relationship handed to [onSave]; nothing happens
    without a relationship. *)
Definition handleSave (relationship : option Relationship)
    (cardinality_ : Cardinality) (sourceOptional_ targetOptional_ : bool)
    (onDeleteAction onUpdateAction : RefAction) : option Relationship :=
  match relationship with
  | None => None
  | Some r =>
      Some {| r_id := r_id r;
              sourceTableId := sourceTableId r;
              sourceColumnId := sourceColumnId r;
              targetTableId := targetTableId r;
              targetColumnId := targetColumnId r;
              cardinality := cardinality_;
              sourceOptional := sourceOptional_;
              targetOptional := targetOptional_;
              onDelete := onDeleteAction;
              onUpdate := onUpdateAction |}
  end.

(** [getCardinalityLabel()] on the state of the dialog. *)
Definition getCardinalityLabel (cardinality_ : Cardinality)
    (sourceOptional_ targetOptional_ : bool) : string :=
  let sourceLabel := if sourceOptional_ then "0.." else EmptyString in
  let targetLabel := if targetOptional_ then "0.." else EmptyString in
  match cardinality_ with
  | Card_1_1 => sourceLabel +:+ "1 : " +:+ targetLabel +:+ "1"
  | Card_1_N => sourceLabel +:+ "1 : " +:+ targetLabel +:+ "N"
  | Card_N_1 => sourceLabel +:+ "N : " +:+ targetLabel +:+ "1"
  | Card_N_M => sourceLabel +:+ "N : " +:+ targetLabel +:+ "M"
  end.

End RelationshipModal.

(** ** The application component ([App]): handlers of the canvas *)

Module AppHandlers.
Import App.

(** An edge of the canvas; the styling fields are left out. *)
Record Edge := {
  ed_id : string;
  ed_source : string;
  ed_target : string;
  ed_sourceHandle : option string;
  ed_targetHandle : option string;
  ed_label : option string
}.

(** The [Connection] the canvas library hands to [onConnect]; the handler
    asserts the four fields present ([params.source!], ...). *)
Record Connection := {
  source : string;
  sourceHandle : string;
  target : string;
  targetHandle : string
}.

(** The three pieces of state the handlers set. *)
Record Canvas := {
  cv_nodes : list Node;
  cv_edges : list Edge;
  cv_relationships : list Relationship
}.

(** [a || b] on strings *)
Definition or_str (a b : string) : string :=
  if truthy a then a else b.

(** The fields of a [Table] read from [n.data as Table]; [columns] may be
    absent at run time. *)
Definition asTable (d : NodeData) : option Table :=
  cols ← d_columns d;
  Some {| t_id := d_id d; t_name := d_name d; columns := cols;
          t_x := d_x d; t_y := d_y d |}.

(** [{...table, onEditTable: ..., onDeleteTable: ...}] as node data. *)
Definition dataOfTable (table : Table) : NodeData :=
  {| d_id := t_id table; d_name := t_name table;
     d_x := t_x table; d_y := t_y table;
     d_columns := Some (columns table);
     d_attributes := None |}.

(** [{...n, data}] *)
Definition with_data (n : Node) (data : NodeData) : Node :=
  {| n_id := n_id n; n_type := n_type n; n_position := n_position n;
     n_data := data |}.

(** *** [hasHighPriorityRecommendations] *)

(** The body of the inner [for] at one relationship: [true] where it
    executes [return true]. *)
Definition relFlags (tables : list NodeData) (table : NodeData)
    (cols : list Column) (rel : Relationship) : bool :=
  if String.eqb (sourceTableId rel) (d_id table)
     || String.eqb (targetTableId rel) (d_id table)
  then
    let otherTableId :=
      if String.eqb (sourceTableId rel) (d_id table)
      then targetTableId rel else sourceTableId rel in
    match List.find (λ t, String.eqb (d_id t) otherTableId) tables with
    | None => false
    | Some _ =>
        let relatedColumnId :=
          if String.eqb (sourceTableId rel) (d_id table)
          then sourceColumnId rel else targetColumnId rel in
        let hasFK := existsb (λ c, String.eqb (c_id c) relatedColumnId) cols in
        negb hasFK
    end
  else false.

(** The outer [for] over the tables still to visit; [table.columns.some]
    raises when [columns] is absent. *)
Fixpoint tableLoop (tables rest : list NodeData)
    (nonMNRelationships : list Relationship) : option bool :=
  match rest with
  | [] => Some false
  | table :: rest' =>
      cols ← d_columns table;
      let hasPK := existsb primaryKey cols in
      if negb hasPK then Some true
      else if existsb (relFlags tables table cols) nonMNRelationships
      then Some true
      else tableLoop tables rest' nonMNRelationships
  end.

Definition hasHighPriorityRecommendations (nodes : list Node)
    (relationships : list Relationship) : option bool :=
  let tableNodes := List.filter is_tableNode nodes in
  let tables := map n_data tableNodes in
  let nonMNRelationships :=
    List.filter (λ r, negb (is_N_M (cardinality r))) relationships in
  tableLoop tables tables nonMNRelationships.

(** *** [onConnect] *)

(** The ids [TableNode] gives the two handles of a column row. *)
Definition sourceHandleId (column : Column) : string :=
  c_id column +:+ "-source".

Definition targetHandleId (column : Column) : string :=
  c_id column +:+ "-target".

Section Connect.

(** [addEdge] of the canvas library. *)
Variable addEdge : Edge → list Edge → list Edge.

(** [onConnect(params)]; [nowRel] and [nowCol] are the two clock readings.
    [None] is the TypeError of [columns.find] on a node without columns,
    raised before any state is set. *)
Definition onConnect (params : Connection) (nowRel nowCol : string)
    (s : Canvas) : option Canvas :=
  let nodes := cv_nodes s in
  let newId := "rel-" +:+ nowRel in
  let sourceNode := List.find (λ n, String.eqb (n_id n) (source params)) nodes in
  let targetNode := List.find (λ n, String.eqb (n_id n) (target params)) nodes in
  nodes' ←
    match sourceNode, targetNode with
    | Some sourceNode, Some targetNode =>
        let sourceTable := n_data sourceNode in
        let targetTable := n_data targetNode in
        sourceColumns ← d_columns sourceTable;
        match List.find primaryKey sourceColumns with
        | Some sourcePK =>
            let fkColumnName :=
              d_name sourceTable +:+ "_" +:+ c_name sourcePK in
            targetColumns ← d_columns targetTable;
            match List.find (λ col, String.eqb (c_name col) fkColumnName)
                            targetColumns with
            | Some _ => Some nodes
            | None =>
                let fkColumn :=
                  {| c_id := "col-" +:+ nowCol +:+ "-fk";
                     c_name := fkColumnName;
                     c_type := c_type sourcePK;
                     primaryKey := false;
                     nullable := true;
                     unique := false;
                     autoIncrement := false;
                     isForeignKey := Some true;
                     referencesTable := Some (d_name sourceTable);
                     referencesColumn := Some (c_name sourcePK) |} in
                Some (map (λ n,
                             if String.eqb (n_id n) (target params) then
                               with_data n
                                 {| d_id := d_id targetTable;
                                    d_name := d_name targetTable;
                                    d_x := d_x targetTable;
                                    d_y := d_y targetTable;
                                    d_columns :=
                                      Some (targetColumns ++ [fkColumn]);
                                    d_attributes :=
                                      d_attributes targetTable |}
                             else n) nodes)
            end
        | None => Some nodes
        end
    | _, _ => Some nodes
    end;
  let newEdge :=
    {| ed_id := newId;
       ed_source := source params;
       ed_target := target params;
       ed_sourceHandle := Some (sourceHandle params);
       ed_targetHandle := Some (targetHandle params);
       ed_label := Some "1:N" |} in
  let newRelationship :=
    {| r_id := newId;
       sourceTableId := source params;
       sourceColumnId := sourceHandle params;
       targetTableId := target params;
       targetColumnId := targetHandle params;
       cardinality := Card_1_N;
       sourceOptional := false;
       targetOptional := false;
       onDelete := CASCADE;
       onUpdate := CASCADE |} in
  Some {| cv_nodes := nodes';
          cv_edges := addEdge newEdge (cv_edges s);
          cv_relationships := cv_relationships s ++ [newRelationship] |}.

End Connect.

(** *** Deleting and saving *)

(** [handleDeleteTable(tableId)] *)
Definition handleDeleteTable (tableId : string) (s : Canvas) : Canvas :=
  {| cv_nodes :=
       List.filter (λ n, negb (String.eqb (n_id n) tableId)) (cv_nodes s);
     cv_edges :=
       List.filter (λ e, negb (String.eqb (ed_source e) tableId)
                         && negb (String.eqb (ed_target e) tableId))
                   (cv_edges s);
     cv_relationships :=
       List.filter (λ r, negb (String.eqb (sourceTableId r) tableId)
                         && negb (String.eqb (targetTableId r) tableId))
                   (cv_relationships s) |}.

(** [deleteTableById(tableId)]; [confirmed] is the answer to [confirm]. *)
Definition deleteTableById (confirmed : bool) (tableId : string)
    (s : Canvas) : Canvas :=
  if confirmed then
    {| cv_nodes :=
         List.filter (λ n, negb (String.eqb (n_id n) tableId)) (cv_nodes s);
       cv_edges :=
         List.filter (λ e, negb (String.eqb (ed_source e) tableId)
                           && negb (String.eqb (ed_target e) tableId))
                     (cv_edges s);
       cv_relationships :=
         List.filter (λ r, negb (String.eqb (sourceTableId r) tableId)
                           && negb (String.eqb (targetTableId r) tableId))
                     (cv_relationships s) |}
  else s.


(** [handleDeleteRelationship(relId)] *)
Definition handleDeleteRelationship (relId : string) (s : Canvas) : Canvas :=
  {| cv_nodes := cv_nodes s;
     cv_edges :=
       List.filter (λ e, negb (String.eqb (ed_id e) relId)) (cv_edges s);
     cv_relationships :=
       List.filter (λ r, negb (String.eqb (r_id r) relId))
                   (cv_relationships s) |}.

(** [handleSaveTable(table)] on the nodes. *)
Definition handleSaveTable (table : Table) (nodes : list Node) : list Node :=
  let existingNode :=
    List.find (λ n, String.eqb (n_id n) (t_id table)) nodes in
  match existingNode with
  | Some _ =>
      map (λ n, if String.eqb (n_id n) (t_id table)
                then with_data n (dataOfTable table) else n) nodes
  | None =>
      let tableCount := List.length (List.filter is_tableNode nodes) in
      let newNode :=
        {| n_id := t_id table;
           n_type := tableNode;
           n_position :=
             ((100 + Z.of_nat (tableCount mod 3) * 250)%Z,
              (100 + Z.of_nat (tableCount / 3) * 200)%Z);
           n_data := dataOfTable table |} in
      nodes ++ [newNode]
  end.

(** *** Edge labels *)

(** [labelText] of the effect that relabels the edges. *)
Definition labelText (rel : Relationship) : string :=
  let sourceLabel := if sourceOptional rel then "0.." else EmptyString in
  let targetLabel := if targetOptional rel then "0.." else EmptyString in
  match cardinality rel with
  | Card_1_1 => sourceLabel +:+ "1 : " +:+ targetLabel +:+ "1"
  | Card_1_N => sourceLabel +:+ "1 : " +:+ targetLabel +:+ "N"
  | Card_N_1 => sourceLabel +:+ "N : " +:+ targetLabel +:+ "1"
  | Card_N_M => sourceLabel +:+ "N : " +:+ targetLabel +:+ "M"
  end.


(** *** [handleCreateJunctionTable] *)

(** [handleCreateJunctionTable(sourceTable, targetTable)]; the five
    arguments after the tables are the clock readings, in the order the
    handler takes them. *)
Definition handleCreateJunctionTable (sourceTable targetTable : Table)
    (nowTable nowCol1 nowCol2 nowRel1 nowRel2 : string) (s : Canvas)
  : Canvas :=
  let sourcePK := List.find primaryKey (columns sourceTable) in
  let targetPK := List.find primaryKey (columns targetTable) in
  let junctionTableName := t_name sourceTable +:+ "_" +:+ t_name targetTable in
  let col1 :=
    {| c_id := "col-" +:+ nowCol1 +:+ "-1";
       c_name := t_name sourceTable +:+ "_" +:+
                 match sourcePK with
                 | Some pk => or_str (c_name pk) "id"
                 | None => "id"
                 end;
       c_type := match sourcePK with Some pk => c_type pk | None => INTEGER end;
       primaryKey := true; nullable := false; unique := true;
       autoIncrement := false; isForeignKey := None;
       referencesTable := None; referencesColumn := None |} in
  let col2 :=
    {| c_id := "col-" +:+ nowCol2 +:+ "-2";
       c_name := t_name targetTable +:+ "_" +:+
                 match targetPK with
                 | Some pk => or_str (c_name pk) "id"
                 | None => "id"
                 end;
       c_type := match targetPK with Some pk => c_type pk | None => INTEGER end;
       primaryKey := true; nullable := false; unique := true;
       autoIncrement := false; isForeignKey := None;
       referencesTable := None; referencesColumn := None |} in
  let newTable :=
    {| t_id := "table-" +:+ nowTable;
       t_name := junctionTableName;
       columns := [col1; col2];
       t_x := 300%Z; t_y := 300%Z |} in
  let newNode :=
    {| n_id := t_id newTable;
       n_type := tableNode;
       n_position := (300%Z, 300%Z);
       n_data := dataOfTable newTable |} in
  let relId1 := "rel-" +:+ nowRel1 +:+ "-1" in
  let relId2 := "rel-" +:+ nowRel2 +:+ "-2" in
  let edge1 :=
    {| ed_id := relId1; ed_source := t_id sourceTable;
       ed_target := t_id newTable;
       ed_sourceHandle := None; ed_targetHandle := None;
       ed_label := Some "1:N" |} in
  let edge2 :=
    {| ed_id := relId2; ed_source := t_id targetTable;
       ed_target := t_id newTable;
       ed_sourceHandle := None; ed_targetHandle := None;
       ed_label := Some "1:N" |} in
  let firstColumnId (t : Table) :=
    match columns t !! 0%nat with
    | Some c => or_str (c_id c) EmptyString
    | None => EmptyString
    end in
  {| cv_nodes := cv_nodes s ++ [newNode];
     cv_edges := cv_edges s ++ [edge1; edge2];
     cv_relationships :=
       cv_relationships s ++
       [ {| r_id := relId1;
            sourceTableId := t_id sourceTable;
            sourceColumnId :=
              match sourcePK with
              | Some pk => or_str (c_id pk) (firstColumnId sourceTable)
              | None => firstColumnId sourceTable
              end;
            targetTableId := t_id newTable;
            targetColumnId := c_id col1;
            cardinality := Card_1_N;
            sourceOptional := false; targetOptional := false;
            onDelete := CASCADE; onUpdate := CASCADE |};
         {| r_id := relId2;
            sourceTableId := t_id targetTable;
            sourceColumnId :=
              match targetPK with
              | Some pk => or_str (c_id pk) (firstColumnId targetTable)
              | None => firstColumnId targetTable
              end;
            targetTableId := t_id newTable;
            targetColumnId := c_id col2;
            cardinality := Card_1_N;
            sourceOptional := false; targetOptional := false;
            onDelete := CASCADE; onUpdate := CASCADE |} ] |}.

(** *** [generateSQL] *)

(** [generateSQL()]: the tables are the data of the table nodes.
    [generate] reads the columns of every table it is given (the copy in
    [addForeignKeyFields] spreads them), so it raises as soon as one table
    has none. *)
Definition generateSQL (dialect : SQLDialect) (now : string)
    (nodes : list Node) (relationships : list Relationship)
  : option string :=
  let tableNodes := List.filter is_tableNode nodes in
  ts ← mapM asTable (map n_data tableNodes);
  generate dialect now {| tables := ts; relationships := relationships |}.

End AppHandlers.

(** The tables the generator is given for a canvas. *)
Definition tablesOf (nodes : list App.Node) : option (list Table) :=
  mapM AppHandlers.asTable
       (map App.n_data (List.filter App.is_tableNode nodes)).

(** Every relationship of the canvas joins two of its nodes. *)
Definition endpointsExist (s : AppHandlers.Canvas) : Prop :=
  ∀ r, In r (AppHandlers.cv_relationships s) →
       In (sourceTableId r) (map App.n_id (AppHandlers.cv_nodes s)) ∧
       In (targetTableId r) (map App.n_id (AppHandlers.cv_nodes s)).



(** The flags of a column as the table dialog keeps them. *)
Definition keyNotNull (c : Column) : Prop :=
  primaryKey c = true → nullable c = false.

Definition counterTyped (c : Column) : Prop :=
  autoIncrement c = true ↔ c_type c = AUTOINCREMENT.

Definition counterIsKey (c : Column) : Prop :=
  autoIncrement c = true → primaryKey c = true.

(** A table as the node [handleSaveTable] would show it for. *)
Definition tableNodeOf (t : Table) : App.Node :=
  {| App.n_id := t_id t; App.n_type := App.tableNode;
     App.n_position := (t_x t, t_y t);
     App.n_data := AppHandlers.dataOfTable t |}.

(** A canvas with two tables and no relationship, and the connection
    drawn from the key of the first to the key of the second. *)
Definition shopCanvas : AppHandlers.Canvas :=
  {| AppHandlers.cv_nodes :=
       [ tableNodeOf
           (mkTable "t1" "Customer" [mkColumn "c1" "id" INTEGER true]);
         tableNodeOf
           (mkTable "t2" "Invoice" [mkColumn "c2" "number" INTEGER true]) ];
     AppHandlers.cv_edges := [];
     AppHandlers.cv_relationships := [] |}.

Definition drawnConnection : AppHandlers.Connection :=
  {| AppHandlers.source := "t1";
     AppHandlers.sourceHandle :=
       AppHandlers.sourceHandleId (mkColumn "c1" "id" INTEGER true);
     AppHandlers.target := "t2";
     AppHandlers.targetHandle :=
       AppHandlers.targetHandleId (mkColumn "c2" "number" INTEGER true) |}.

(** The canvas of [studentCourseSchema]. *)
Definition studentCourseCanvas : AppHandlers.Canvas :=
  {| AppHandlers.cv_nodes := map tableNodeOf (tables studentCourseSchema);
     AppHandlers.cv_edges := [];
     AppHandlers.cv_relationships := relationships studentCourseSchema |}.

(** No column id of the table looks like the id of a source handle. *)
Definition noHandleIds (t : Table) : Prop :=
  Forall (λ c, endsWith (c_id c) "-source" = false) (columns t).

(** Edges and relationships go in pairs: in order, the same id and the
    same two tables. *)
Definition edgesMatch (s : AppHandlers.Canvas) : Prop :=
  Forall2 (λ e r, AppHandlers.ed_id e = r_id r ∧
                  AppHandlers.ed_source e = sourceTableId r ∧
                  AppHandlers.ed_target e = targetTableId r)
          (AppHandlers.cv_edges s) (AppHandlers.cv_relationships s).

(** The edge the canvas shows for a relationship. *)
Definition edgeOf (r : Relationship) : AppHandlers.Edge :=
  {| AppHandlers.ed_id := r_id r;
     AppHandlers.ed_source := sourceTableId r;
     AppHandlers.ed_target := targetTableId r;
     AppHandlers.ed_sourceHandle := None;
     AppHandlers.ed_targetHandle := None;
     AppHandlers.ed_label := Some "1:N" |}.

(** Three tables in a chain: customers, their invoices, the lines of an
    invoice. *)
Definition chainCanvas : AppHandlers.Canvas :=
  {| AppHandlers.cv_nodes :=
       [ tableNodeOf
           (mkTable "t1" "Customer" [mkColumn "c1" "id" INTEGER true]);
         tableNodeOf
           (mkTable "t2" "Invoice" [mkColumn "c2" "number" INTEGER true]);
         tableNodeOf
           (mkTable "t3" "Line" [mkColumn "c3" "line_no" INTEGER true]) ];
     AppHandlers.cv_edges :=
       [ edgeOf (mkRel "r1" "t1" "c1" "t2" "c2" Card_1_N false false);
         edgeOf (mkRel "r2" "t2" "c2" "t3" "c3" Card_1_N false false) ];
     AppHandlers.cv_relationships :=
       [ mkRel "r1" "t1" "c1" "t2" "c2" Card_1_N false false;
         mkRel "r2" "t2" "c2" "t3" "c3" Card_1_N false false ] |}.

(** The customer table edited: a second column. *)
Definition customerEdited : Table :=
  {| t_id := "t1"; t_name := "Client";
     columns := [ mkColumn "c1" "id" INTEGER true;
                  mkColumn "c9" "name" TEXT false ];
     t_x := 100; t_y := 100 |}.

(** The person table of [personNode] with no key, the second column
    NOT NULL. *)
Definition unkeyedPerson : Table :=
  {| t_id := "T1"; t_name := "Person";
     columns := [ mkColumn "c1" "id" INTEGER false;
                  set_nullable false (mkColumn "c2" "name" TEXT false) ];
     t_x := 100; t_y := 100 |}.

(** * Proofs *)

(** ** Arrays *)

Lemma findIndex_Some {A} (p : A → bool) l i :
  findIndex p l = Some i →
  ∃ x, l !! i = Some x ∧ p x = true ∧ List.find p l = Some x.
Proof.
  revert i. induction l as [|a l IH]; intros i; simpl; [done|].
  destruct (p a) eqn:Hp.
  - intros [= <-]. eauto.
  - destruct (findIndex p l) as [j|]; simpl; [|done].
    intros [= <-]. destruct (IH j eq_refl) as (x & ? & ? & ?). eauto.
Qed.

Lemma find_findIndex {A} (p : A → bool) l x :
  List.find p l = Some x →
  ∃ i, findIndex p l = Some i ∧ l !! i = Some x.
Proof.
  induction l as [|a l IH]; simpl; [done|].
  destruct (p a).
  - intros [= <-]. by exists 0.
  - intros H. destruct (IH H) as (i & -> & ?). by exists (S i).
Qed.

Lemma find_insert_first {A} (p : A → bool) l i y :
  findIndex p l = Some i → p y = true →
  List.find p (<[i := y]> l) = Some y.
Proof.
  revert i. induction l as [|a l IH]; intros i; simpl; [done|].
  destruct (p a) eqn:Hp.
  - intros [= <-] Hy. simpl. by rewrite Hy.
  - destruct (findIndex p l) as [j|] eqn:Hj; simpl; [|done].
    intros [= <-] Hy. simpl. rewrite Hp. by apply IH.
Qed.

Lemma find_app_Some {A} (p : A → bool) l1 l2 x :
  List.find p l1 = Some x → List.find p (l1 ++ l2) = Some x.
Proof.
  induction l1 as [|a l1 IH]; simpl; [done|]. by destruct (p a).
Qed.

Lemma find_app_none_r {A} (p : A → bool) l1 l2 :
  Forall (λ x, p x = false) l2 → List.find p (l1 ++ l2) = List.find p l1.
Proof.
  intros H2. induction l1 as [|a l1 IH]; simpl.
  - induction H2 as [|b l2 Hb _ IH2]; simpl; [done|]. by rewrite Hb.
  - by destruct (p a).
Qed.

Lemma existsb_app_l {A} (p : A → bool) l1 l2 :
  existsb p l1 = true → existsb p (l1 ++ l2) = true.
Proof. intros H. rewrite existsb_app, H. done. Qed.

Lemma with_columns_id t : with_columns t (columns t) = t.
Proof. by destruct t. Qed.

Lemma map_with_columns_id ts : map (λ t, with_columns t (columns t)) ts = ts.
Proof.
  induction ts as [|t ts IH]; simpl; [done|].
  by rewrite with_columns_id, IH.
Qed.

(** ** The loop body of [addForeignKeyFields] *)

Lemma fkStep_unfold ts r :
  fkStep ts r =
  if idsResolve ts r then
    match placement ts r with
    | Some (d, n, pk) =>
        match findTable ts d with
        | Some et =>
            if existsb (λ c, String.eqb (c_name c) n) (columns et)
            then Some ts
            else
              match findIndex (λ t, String.eqb (t_id t) d) ts with
              | Some i =>
                  t ← ts !! i;
                  Some (<[i := with_columns t
                                 (columns t ++ [fkColumn r d n pk])]> ts)
              | None => Some ts
              end
        | None => Some ts
        end
    | None => Some ts
    end
  else Some ts.
Proof.
  unfold fkStep, idsResolve, placement.
  destruct (findTable ts (sourceTableId r)) as [st|]; [|done].
  destruct (findTable ts (targetTableId r)) as [tt|]; [|done].
  destruct (findColumn st (sourceColumnId r)); [|done].
  destruct (findColumn tt (targetColumnId r)); [|done].
  destruct (is_N_M (cardinality r)); [done|].
  destruct (findPK st); [|done].
  destruct (findPK tt); [|done].
  destruct (fkSide r c1 c2) as [[[d n] pk]|]; done.
Qed.

Lemma fkSide_dest r sp tp d n pk :
  fkSide r sp tp = Some (d, n, pk) →
  (d = targetTableId r ∧ pk = sp ∨ d = sourceTableId r ∧ pk = tp)
  ∧ n = c_name pk.
Proof.
  unfold fkSide.
  destruct (cardinality r), (targetOptional r), (sourceOptional r);
    intros [= <- <- <-]; auto.
Qed.

Lemma placement_dest ts r d n pk :
  placement ts r = Some (d, n, pk) →
  ∃ et, findTable ts d = Some et.
Proof.
  unfold placement.
  destruct (findTable ts (sourceTableId r)) as [st|] eqn:Hs; [|done].
  destruct (findTable ts (targetTableId r)) as [tt|] eqn:Ht; [|done].
  destruct (is_N_M (cardinality r)); [done|].
  destruct (findPK st) as [sp|]; [|done].
  destruct (findPK tt) as [tp|]; [|done].
  intros H. apply fkSide_dest in H as [[[-> _]|[-> _]] _]; eauto.
Qed.

(** A step either leaves the array alone or replaces the first table with
    the destination id by itself plus the FK column. *)
Lemma fkStep_cases ts r :
  fkStep ts r = Some ts ∨
  ∃ d n pk et i,
    idsResolve ts r = true ∧ placement ts r = Some (d, n, pk) ∧
    findTable ts d = Some et ∧
    existsb (λ c, String.eqb (c_name c) n) (columns et) = false ∧
    findIndex (λ t, String.eqb (t_id t) d) ts = Some i ∧
    ts !! i = Some et ∧
    fkStep ts r =
      Some (<[i := with_columns et (columns et ++ [fkColumn r d n pk])]> ts).
Proof.
  rewrite fkStep_unfold.
  destruct (idsResolve ts r); [|by left].
  destruct (placement ts r) as [[[d n] pk]|]; [|by left].
  destruct (findTable ts d) as [et|] eqn:Het; [|by left].
  destruct (existsb _ (columns et)) eqn:Hex; [by left|].
  destruct (find_findIndex _ _ _ Het) as (i & Hi & Hl).
  right. exists d, n, pk, et, i. rewrite Hi, Hl. simpl. done.
Qed.

Lemma fkStep_total ts r : is_Some (fkStep ts r).
Proof.
  destruct (fkStep_cases ts r) as [->|(?&?&?&?&?&?&?&?&?&?&?&->)]; eauto.
Qed.

Lemma fkLoop_total rs ts : is_Some (fkLoop rs ts).
Proof.
  revert ts. induction rs as [|r rs IH]; intros ts; simpl; [eauto|].
  destruct (fkStep_total ts r) as [ts' ->]. simpl. apply IH.
Qed.

(** ** Growth of the working array *)

Lemma grows_refl t : grows t t.
Proof.
  repeat split. exists []. by rewrite app_nil_r.
Qed.

Lemma grows_trans t1 t2 t3 : grows t1 t2 → grows t2 t3 → grows t1 t3.
Proof.
  intros (?&?&?&?&a1&E1&F1) (?&?&?&?&a2&E2&F2).
  repeat split; try congruence.
  exists (a1 ++ a2). rewrite E2, E1, app_assoc. split; [done|].
  by apply Forall_app.
Qed.

Lemma extends_refl ts : extends ts ts.
Proof. induction ts; constructor; auto using grows_refl. Qed.

Lemma extends_trans ts1 ts2 ts3 :
  extends ts1 ts2 → extends ts2 ts3 → extends ts1 ts3.
Proof.
  unfold extends. apply Forall2_trans, grows_trans.
Qed.

Lemma extends_insert ts i t t' :
  ts !! i = Some t → grows t t' → extends ts (<[i := t']> ts).
Proof.
  revert i. induction ts as [|a ts IH]; intros [|i]; simpl; try done.
  - intros [= ->] G. constructor; [done|apply extends_refl].
  - intros Hl G. constructor; [apply grows_refl|by eapply IH].
Qed.

Lemma grows_fkColumn t r d n pk :
  grows t (with_columns t (columns t ++ [fkColumn r d n pk])).
Proof.
  repeat split. exists [fkColumn r d n pk]. split; [done|].
  by repeat constructor.
Qed.

Lemma fkStep_extends ts r ts' : fkStep ts r = Some ts' → extends ts ts'.
Proof.
  destruct (fkStep_cases ts r) as [->|(d&n&pk&et&i&_&_&_&_&_&Hl&->)];
    intros [= <-].
  - apply extends_refl.
  - eapply extends_insert; [done|apply grows_fkColumn].
Qed.

Lemma fkLoop_extends rs ts ts' : fkLoop rs ts = Some ts' → extends ts ts'.
Proof.
  revert ts. induction rs as [|r rs IH]; intros ts; simpl.
  - intros [= <-]. apply extends_refl.
  - destruct (fkStep ts r) as [ts1|] eqn:H1; simpl; [|done].
    intros H. eapply extends_trans; [by eapply fkStep_extends|by apply IH].
Qed.

Lemma findTable_extends ts ts' d :
  extends ts ts' →
  match findTable ts d with
  | Some t => ∃ t', findTable ts' d = Some t' ∧ grows t t'
  | None => findTable ts' d = None
  end.
Proof.
  unfold findTable. induction 1 as [|t t' ts ts' G _ IH]; simpl; [done|].
  destruct G as (Hid&G). rewrite Hid.
  destruct (String.eqb (t_id t) d); [|done].
  exists t'. split; [done|]. by split.
Qed.

Lemma findPK_grows t t' : grows t t' → findPK t' = findPK t.
Proof.
  intros (_&_&_&_&a&E&Ha). unfold findPK. rewrite E.
  by apply find_app_none_r.
Qed.

Lemma findColumn_grows t t' id c :
  grows t t' → findColumn t id = Some c → findColumn t' id = Some c.
Proof.
  intros (_&_&_&_&a&E&_). unfold findColumn. rewrite E. apply find_app_Some.
Qed.

Lemma hasName_grows t t' n :
  grows t t' →
  existsb (λ c, String.eqb (c_name c) n) (columns t) = true →
  existsb (λ c, String.eqb (c_name c) n) (columns t') = true.
Proof. intros (_&_&_&_&a&->&_). apply existsb_app_l. Qed.

Lemma placement_extends ts ts' r :
  extends ts ts' → placement ts' r = placement ts r.
Proof.
  intros E. unfold placement.
  pose proof (findTable_extends _ _ (sourceTableId r) E) as Hs.
  pose proof (findTable_extends _ _ (targetTableId r) E) as Ht.
  destruct (findTable ts (sourceTableId r)) as [st|];
    [destruct Hs as (st'&->&Gs)|by rewrite Hs].
  destruct (findTable ts (targetTableId r)) as [tt|];
    [destruct Ht as (tt'&->&Gt)|by rewrite Ht].
  by rewrite (findPK_grows _ _ Gs), (findPK_grows _ _ Gt).
Qed.

Lemma idsResolve_extends ts ts' r :
  extends ts ts' → idsResolve ts r = true → idsResolve ts' r = true.
Proof.
  intros E. unfold idsResolve.
  pose proof (findTable_extends _ _ (sourceTableId r) E) as Hs.
  pose proof (findTable_extends _ _ (targetTableId r) E) as Ht.
  destruct (findTable ts (sourceTableId r)) as [st|]; [|done].
  destruct (findTable ts (targetTableId r)) as [tt|]; [|done].
  destruct Hs as (st'&->&Gs), Ht as (tt'&->&Gt).
  destruct (findColumn st _) eqn:Hsc; [|done].
  destruct (findColumn tt _) eqn:Htc; [|done].
  by rewrite (findColumn_grows _ _ _ _ Gs Hsc),
             (findColumn_grows _ _ _ _ Gt Htc).
Qed.

(** ** A second pass over a resolved schema *)

Lemma step_ensures_name ts r d n pk ts' :
  idsResolve ts r = true →
  placement ts r = Some (d, n, pk) →
  fkStep ts r = Some ts' →
  ∃ et', findTable ts' d = Some et' ∧
         existsb (λ c, String.eqb (c_name c) n) (columns et') = true.
Proof.
  intros Hids Hp. destruct (placement_dest _ _ _ _ _ Hp) as [et Het].
  rewrite fkStep_unfold, Hids, Hp, Het.
  destruct (existsb _ (columns et)) eqn:Hex.
  { intros [= <-]. eauto. }
  destruct (find_findIndex _ _ _ Het) as (i & Hi & Hl).
  rewrite Hi, Hl. simpl. intros [= <-].
  eexists. split.
  - unfold findTable. apply find_insert_first; [done|]. simpl.
    apply (find_some _ _ Het).
  - simpl. rewrite existsb_app. simpl. rewrite String.eqb_refl.
    by rewrite orb_true_r.
Qed.

Lemma loop_settles rs ts ts1 r :
  fkLoop rs ts = Some ts1 → In r rs →
  ∃ tsk tsk', extends ts tsk ∧ fkStep tsk r = Some tsk' ∧ extends tsk' ts1.
Proof.
  revert ts. induction rs as [|r0 rs IH]; intros ts; simpl; [done|].
  destruct (fkStep ts r0) as [ts'|] eqn:H0; simpl; [|done].
  intros Hl [->|Hin].
  - exists ts, ts'. split; [apply extends_refl|]. split; [done|].
    by apply fkLoop_extends in Hl.
  - destruct (IH _ Hl Hin) as (tsk & tsk' & E1 & Hs & E2).
    exists tsk, tsk'. split; [|done].
    eapply extends_trans; [by eapply fkStep_extends|done].
Qed.

(** A relationship the first pass has dealt with leaves the resolved
    array alone. *)
Lemma step_fixed ts0 tsk tsk' ts1 r :
  extends ts0 tsk → fkStep tsk r = Some tsk' → extends tsk' ts1 →
  (idsResolve ts1 r = true → idsResolve ts0 r = true) →
  fkStep ts1 r = Some ts1.
Proof.
  intros E0 Hs E1 Hids.
  pose proof (fkStep_extends _ _ _ Hs) as Ek.
  rewrite fkStep_unfold.
  destruct (idsResolve ts1 r) eqn:H1; [|done].
  specialize (Hids eq_refl).
  pose proof (idsResolve_extends _ _ _ E0 Hids) as Hk.
  rewrite (placement_extends tsk ts1) by (by eapply extends_trans).
  destruct (placement tsk r) as [[[d n] pk]|] eqn:Hp; [|done].
  destruct (step_ensures_name _ _ _ _ _ _ Hk Hp Hs) as (et' & Het' & Hn).
  pose proof (findTable_extends _ _ d E1) as Hf. rewrite Het' in Hf.
  destruct Hf as (et1 & -> & G).
  by rewrite (hasName_grows _ _ _ G Hn).
Qed.

Lemma fkLoop_fixed rs ts :
  (∀ r, In r rs → fkStep ts r = Some ts) → fkLoop rs ts = Some ts.
Proof.
  induction rs as [|r rs IH]; intros H; simpl; [done|].
  rewrite (H r) by (by left). simpl. apply IH. intros; apply H. by right.
Qed.

Lemma fkLoop_idempotent rs ts0 ts1 :
  fkLoop rs ts0 = Some ts1 →
  (∀ r, In r rs → idsResolve ts1 r = true → idsResolve ts0 r = true) →
  fkLoop rs ts1 = Some ts1.
Proof.
  intros Hl Hids. apply fkLoop_fixed. intros r Hin.
  destruct (loop_settles _ _ _ _ Hl Hin) as (tsk & tsk' & E0 & Hs & E1).
  eapply step_fixed; [exact E0|exact Hs|exact E1|by apply Hids].
Qed.

Lemma addForeignKeyFields_total S : is_Some (addForeignKeyFields S).
Proof.
  unfold addForeignKeyFields.
  destruct (fkLoop_total (relationships S)
              (map (λ t, with_columns t (columns t)) (tables S))) as [ts ->].
  simpl. eauto.
Qed.

Lemma addForeignKeyFields_fkLoop S S1 :
  addForeignKeyFields S = Some S1 ↔
  ∃ ts, fkLoop (relationships S) (tables S) = Some ts ∧
        S1 = {| tables := ts; relationships := relationships S |}.
Proof.
  unfold addForeignKeyFields. rewrite map_with_columns_id.
  destruct (fkLoop _ _) as [ts|]; simpl; split.
  - intros [= <-]. eauto.
  - by intros (ts' & [= <-] & ->).
  - done.
  - by intros (? & ? & _).
Qed.

(** In particular a schema whose relationships all name existing columns
    is stable. *)
Lemma idsStable_all_resolve S :
  forallb (idsResolve (tables S)) (relationships S) = true →
  idsStable S = true.
Proof.
  intros H. unfold idsStable.
  destruct (addForeignKeyFields_total S) as [S1 ->].
  apply forallb_forall. intros r Hr.
  rewrite forallb_forall in H. rewrite (H r Hr). apply implb_true_r.
Qed.

Lemma addForeignKeyFields_idempotent S S1 :
  addForeignKeyFields S = Some S1 → idsStable S = true →
  addForeignKeyFields S1 = Some S1.
Proof.
  intros H1 Hst. unfold idsStable in Hst. rewrite H1 in Hst.
  apply addForeignKeyFields_fkLoop in H1 as (ts & Hl & ->). simpl in *.
  apply addForeignKeyFields_fkLoop. simpl. exists ts. split; [|done].
  apply (fkLoop_idempotent _ _ _ Hl). intros r Hin H.
  rewrite forallb_forall in Hst. specialize (Hst r Hin).
  rewrite H in Hst. done.
Qed.

(** ** The shape of the generated script *)

Lemma append_assoc (a b c : string) : (a +:+ b) +:+ c = a +:+ (b +:+ c).
Proof.
  induction a as [|x a IH]; [done|].
  change (String x ((a +:+ b) +:+ c) = String x (a +:+ (b +:+ c))).
  by rewrite IH.
Qed.

Lemma append_nil_r (a : string) : a +:+ EmptyString = a.
Proof.
  induction a as [|x a IH]; [done|].
  change (String x (a +:+ EmptyString) = String x a). by rewrite IH.
Qed.

Lemma fold_left_append {A} (step : string → A → string) (h : A → string)
    (l : list A) (acc : string) :
  (∀ sql x, step sql x = sql +:+ h x) →
  fold_left step l acc = acc +:+ concatAll (map h l).
Proof.
  intros Hstep. revert acc. induction l as [|x l IH]; intros acc; simpl.
  - by rewrite append_nil_r.
  - by rewrite IH, Hstep, append_assoc.
Qed.

Lemma concatAll_filter_truthy (g : string → string) (l : list string) :
  concatAll (map (λ a, if truthy a then g a else EmptyString) l)
  = concatAll (map g (List.filter truthy l)).
Proof.
  induction l as [|a l IH]; simpl; [done|].
  destruct (truthy a); simpl; by rewrite IH.
Qed.

Lemma resolvedTables_eq S :
  addForeignKeyFields {| tables := tables S; relationships := nonMN S |}
  = Some {| tables := resolvedTables S; relationships := nonMN S |}.
Proof.
  unfold resolvedTables.
  destruct (addForeignKeyFields_total
              {| tables := tables S; relationships := nonMN S |}) as [S1 H].
  rewrite H. apply addForeignKeyFields_fkLoop in H as (ts & _ & ->). done.
Qed.

(** [generate] emits the header, two line feeds, then the junction
    statements, the CREATE TABLE statements and the ALTER TABLE statements,
    each list in order. *)
Lemma generate_sections d now S :
  generate d now S
  = Some (generateHeader d now +:+ nl +:+ nl +:+ ddlBody S).
Proof.
  unfold generate. fold (nonMN S). fold (onlyMN S).
  rewrite resolvedTables_eq. simpl. f_equal.
  rewrite (fold_left_append _
             (λ rel, let a := alterStatement S rel in
                     if truthy a then a +:+ nl else EmptyString)).
  2:{ intros sql rel. unfold alterStatement. simpl.
      destruct (truthy _); [done|by rewrite append_nil_r]. }
  rewrite (fold_left_append _ (λ t, generateCreateTable t +:+ nl +:+ nl))
    by (intros; apply append_assoc).
  rewrite (fold_left_append _
             (λ rel, generateJunctionTable rel (tables S) +:+ nl))
    by (intros; apply append_assoc).
  unfold ddlBody, alterStatements, createStatements, junctionStatements.
  rewrite <- (concatAll_filter_truthy (λ a, a +:+ nl)).
  rewrite !map_map. rewrite !append_assoc. done.
Qed.

(** ** Placement of the FK column *)

Lemma findTable_id ts d t : findTable ts d = Some t → t_id t = d.
Proof.
  intros H. apply find_some in H as [_ H]. by apply String.eqb_eq in H.
Qed.

Lemma fkSide_placementRule r sp tp :
  fkSide r sp tp =
  match placementRule r with
  | Some onTarget => Some (targetTableId r, c_name sp, sp)
  | Some onSource => Some (sourceTableId r, c_name tp, tp)
  | None => None
  end.
Proof.
  unfold fkSide, placementRule.
  by destruct (cardinality r), (targetOptional r), (sourceOptional r).
Qed.

Lemma fkColumn_spec r d pk : fkColumn r d (c_name pk) pk = specFkColumn r d pk.
Proof. unfold fkColumn, specFkColumn. by destruct (cardinality r). Qed.

Lemma placementRule_N_M r : is_N_M (cardinality r) = true → placementRule r = None.
Proof. unfold placementRule. by destruct (cardinality r). Qed.

Lemma placement_inv ts r d n pk :
  placement ts r = Some (d, n, pk) →
  ∃ st tt sp tp,
    findTable ts (sourceTableId r) = Some st ∧
    findTable ts (targetTableId r) = Some tt ∧
    findPK st = Some sp ∧ findPK tt = Some tp ∧
    fkSide r sp tp = Some (d, n, pk).
Proof.
  unfold placement.
  destruct (findTable ts (sourceTableId r)) as [st|]; [|done].
  destruct (findTable ts (targetTableId r)) as [tt|]; [|done].
  destruct (is_N_M (cardinality r)); [done|].
  destruct (findPK st) as [sp|] eqn:Hsp; [|done].
  destruct (findPK tt) as [tp|] eqn:Htp; [|done].
  intros H. exists st, tt, sp, tp. by split_and!.
Qed.

(** ** The pass as a whole *)

Lemma ruleDestination_placement ts r dest referenced :
  ruleDestination ts r = Some (dest, referenced) →
  placement ts r = Some (t_id dest, c_name referenced, referenced) ∧
  findTable ts (t_id dest) = Some dest.
Proof.
  unfold ruleDestination, placement.
  destruct (findTable ts (sourceTableId r)) as [st|] eqn:Hs; [|done].
  destruct (findTable ts (targetTableId r)) as [tt|] eqn:Ht; [|done].
  destruct (findPK st) as [sp|]; [|done].
  destruct (findPK tt) as [tp|]; [|done].
  rewrite fkSide_placementRule.
  destruct (placementRule r) as [[|]|] eqn:Hrule; [| |done];
    intros [= <- <-];
    (assert (is_N_M (cardinality r) = false) as ->;
     [unfold placementRule in Hrule; by destruct (cardinality r)|]).
  - by rewrite (findTable_id _ _ _ Hs).
  - by rewrite (findTable_id _ _ _ Ht).
Qed.

Lemma placement_ruleDestination ts r d n pk :
  placement ts r = Some (d, n, pk) →
  ∃ dest, ruleDestination ts r = Some (dest, pk) ∧
          findTable ts d = Some dest ∧ n = c_name pk.
Proof.
  intros Hp.
  destruct (placement_inv _ _ _ _ _ Hp)
    as (st & tt & sp & tp & Hs & Ht & Hsp & Htp & Hside).
  unfold ruleDestination. rewrite Hs, Ht, Hsp, Htp.
  rewrite fkSide_placementRule in Hside.
  destruct (placementRule r) as [[|]|]; [| |done];
    injection Hside as <- <- <-; eauto.
Qed.

Lemma dictated_mono ts rs rs' t c :
  (∀ r, In r rs → In r rs') → dictated ts rs t c → dictated ts rs' t c.
Proof. intros H (r & ref & Hin & ?). exists r, ref. auto. Qed.

Lemma resolvedFrom_mono ts rs rs' t t' :
  (∀ r, In r rs → In r rs') →
  resolvedFrom ts rs t t' → resolvedFrom ts rs' t t'.
Proof.
  intros H (?&?&?&?&added&?&Hd&?&?). split_and!; try done.
  exists added. split_and!; try done.
  eapply Forall_impl; [exact Hd|]. intros c. by apply dictated_mono.
Qed.

Lemma resolvedFrom_refl ts rs t : resolvedFrom ts rs t t.
Proof.
  split_and!; try done. exists []. rewrite app_nil_r.
  split_and!; try done. constructor.
Qed.

Lemma resolvedFrom_grows ts rs t t' : resolvedFrom ts rs t t' → grows t t'.
Proof.
  intros (?&?&?&?&added&?&Hd&_). split_and!; try done.
  exists added. split; [done|].
  eapply Forall_impl; [exact Hd|]. by intros c (r & ref & _ & _ & ->).
Qed.

Lemma resolvedFrom_extends ts rs l k :
  Forall2 (resolvedFrom ts rs) l k → extends l k.
Proof.
  intros H. eapply Forall2_impl; [exact H|].
  intros; by eapply resolvedFrom_grows.
Qed.

Lemma findIndex_same_ids (P : Table → Table → Prop) l k d :
  (∀ a b, P a b → t_id b = t_id a) → Forall2 P l k →
  findIndex (λ t, String.eqb (t_id t) d) k
  = findIndex (λ t, String.eqb (t_id t) d) l.
Proof.
  intros HP. induction 1 as [|a b l k Hab _ IH]; simpl; [done|].
  by rewrite (HP _ _ Hab), IH.
Qed.

Lemma findTable_Forall2 (P : Table → Table → Prop) l k d t :
  (∀ a b, P a b → t_id b = t_id a) → Forall2 P l k →
  findTable l d = Some t → ∃ t', findTable k d = Some t' ∧ P t t'.
Proof.
  intros HP. unfold findTable.
  induction 1 as [|a b l k Hab _ IH]; simpl; [done|].
  rewrite (HP _ _ Hab). destruct (String.eqb (t_id a) d).
  - intros [= <-]. eauto.
  - exact IH.
Qed.

Lemma Forall2_insert_r {A B} (P : A → B → Prop) l k i x y :
  Forall2 P l k → l !! i = Some x → P x y → Forall2 P l (<[i := y]> k).
Proof.
  intros H Hi Hxy. rewrite <- (list_insert_id l i x Hi).
  by apply Forall2_insert.
Qed.

(** One step keeps the description of the working tables in terms of the
    tables the pass started from. *)
Lemma fkStep_resolvedFrom ts0 rs tsk r tsk' :
  Forall2 (resolvedFrom ts0 rs) ts0 tsk →
  fkStep tsk r = Some tsk' →
  Forall2 (resolvedFrom ts0 (rs ++ [r])) ts0 tsk'.
Proof.
  intros Hinv Hstep.
  assert (Hmono : Forall2 (resolvedFrom ts0 (rs ++ [r])) ts0 tsk).
  { eapply Forall2_impl; [exact Hinv|]. intros t t'.
    apply resolvedFrom_mono. intros; apply in_app_iff; by left. }
  destruct (fkStep_cases tsk r)
    as [H|(d & n & pk & et & i & _ & Hp & Het & Hno & Hi & Hl & H)];
    rewrite H in Hstep; injection Hstep as <-; [done|].
  pose proof (resolvedFrom_extends _ _ _ _ Hinv) as Hext.
  rewrite (placement_extends _ _ _ Hext) in Hp.
  destruct (placement_ruleDestination _ _ _ _ _ Hp) as (t0 & Hrule & Ht0 & ->).
  assert (Hi0 : ts0 !! i = Some t0).
  { destruct (find_findIndex _ _ _ Ht0) as (j & Hj & Hlj).
    rewrite (findIndex_same_ids (resolvedFrom ts0 rs) ts0 tsk) in Hi;
      [|by intros a b (?&_)|done].
    congruence. }
  destruct (Forall2_lookup_l _ _ _ _ _ Hmono Hi0) as (et0 & Het0 & Hr0).
  rewrite Hl in Het0. injection Het0 as <-.
  eapply Forall2_insert_r; [exact Hmono|exact Hi0|].
  destruct Hr0 as (E1&E2&E3&E4&added&Hcols&Hd&Hnew&Hnd).
  pose proof (findTable_id _ _ _ Ht0) as Hid.
  split_and!; try done.
  exists (added ++ [fkColumn r d (c_name pk) pk]). simpl.
  rewrite Hcols, existsb_app in Hno. apply orb_false_iff in Hno as [Hno0 Hnoa].
  split_and!.
  - by rewrite Hcols, app_assoc.
  - apply Forall_app. split; [done|]. constructor; [|constructor].
    exists r, pk. split_and!; [apply in_app_iff; right; by left|done|].
    by rewrite fkColumn_spec, Hid.
  - apply Forall_app. split; [done|]. by constructor.
  - rewrite map_app. simpl. apply NoDup_app. split_and!.
    + done.
    + intros x Hx ->%list_elem_of_singleton.
      apply list_elem_of_fmap in Hx as (c & Hc & Hin).
      assert (existsb (λ c, String.eqb (c_name c) (c_name pk)) added = true)
        as Hyes; [|congruence].
      apply existsb_exists. exists c. split; [by apply list_elem_of_In|].
      rewrite <- Hc. apply String.eqb_refl.
    + apply NoDup_singleton.
Qed.

Lemma fkLoop_resolvedFrom ts0 rs done tsk ts' :
  Forall2 (resolvedFrom ts0 done) ts0 tsk →
  fkLoop rs tsk = Some ts' →
  Forall2 (resolvedFrom ts0 (done ++ rs)) ts0 ts'.
Proof.
  revert done tsk. induction rs as [|r rs IH]; intros done tsk Hinv; simpl.
  - intros [= <-]. by rewrite app_nil_r.
  - destruct (fkStep tsk r) as [tsk1|] eqn:H1; simpl; [|done].
    intros Hl. replace (done ++ r :: rs) with ((done ++ [r]) ++ rs)
      by (by rewrite <- app_assoc).
    eapply IH; [|exact Hl]. by eapply fkStep_resolvedFrom.
Qed.

Lemma pass_resolvedFrom rs ts ts' :
  fkLoop rs ts = Some ts' → Forall2 (resolvedFrom ts rs) ts ts'.
Proof.
  intros H. apply (fkLoop_resolvedFrom ts rs [] ts ts'); [|done].
  apply Forall_Forall2_diag, Forall_forall. intros; apply resolvedFrom_refl.
Qed.

(** A relationship that passes the guards finds its column on the
    destination once the pass is over. *)
Lemma pass_places_name rs ts ts' r dest referenced :
  fkLoop rs ts = Some ts' → In r rs →
  idsResolve ts r = true →
  ruleDestination ts r = Some (dest, referenced) →
  ∃ dest', findTable ts' (t_id dest) = Some dest' ∧
           resolvedFrom ts rs dest dest' ∧
           hasColumnNamed dest' (c_name referenced) = true.
Proof.
  intros Hl Hin Hids Hrule.
  destruct (ruleDestination_placement _ _ _ _ Hrule) as [Hp Hdest].
  pose proof (pass_resolvedFrom _ _ _ Hl) as Hall.
  destruct (findTable_Forall2 _ _ _ _ _ (λ a b H, proj1 H) Hall Hdest)
    as (dest' & Hdest' & Hres).
  exists dest'. split_and!; [done|done|].
  destruct (loop_settles _ _ _ _ Hl Hin) as (tsk & tsk' & E0 & Hs & E1).
  pose proof (idsResolve_extends _ _ _ E0 Hids) as Hk.
  rewrite <- (placement_extends _ _ _ E0) in Hp.
  destruct (step_ensures_name _ _ _ _ _ _ Hk Hp Hs) as (et' & Het' & Hn).
  pose proof (findTable_extends _ _ (t_id dest) E1) as Hf. rewrite Het' in Hf.
  destruct Hf as (et1 & Het1 & G).
  rewrite Hdest' in Het1. injection Het1 as <-.
  unfold hasColumnNamed. by rewrite (hasName_grows _ _ _ G Hn).
Qed.

Lemma fkLoop_app l1 l2 ts :
  fkLoop (l1 ++ l2) ts = fkLoop l1 ts ≫= fkLoop l2.
Proof.
  revert ts. induction l1 as [|r l1 IH]; intros ts; simpl; [done|].
  destruct (fkStep ts r) as [ts1|]; simpl; [apply IH|done].
Qed.

(** What the pass does when it reaches a relationship that passes the
    guards: nothing if the destination has a column of the name by then,
    otherwise it appends the dictated column, which is still there when
    the pass is over. *)
Lemma pass_at pre r post ts ts' dest referenced tsk dk :
  fkLoop (pre ++ r :: post) ts = Some ts' →
  idsResolve ts r = true →
  ruleDestination ts r = Some (dest, referenced) →
  fkLoop pre ts = Some tsk →
  findTable tsk (t_id dest) = Some dk →
  if hasColumnNamed dk (c_name referenced)
  then fkLoop (pre ++ [r]) ts = Some tsk
  else ∃ i dest',
         tsk !! i = Some dk ∧
         fkLoop (pre ++ [r]) ts
         = Some (appendColumn tsk i dk
                   (specFkColumn r (t_id dest) referenced)) ∧
         findTable ts' (t_id dest) = Some dest' ∧
         In (specFkColumn r (t_id dest) referenced) (columns dest').
Proof.
  intros Hl Hids Hrule Hpre Hdk.
  destruct (ruleDestination_placement _ _ _ _ Hrule) as [Hp _].
  pose proof (fkLoop_extends _ _ _ Hpre) as E0.
  pose proof (idsResolve_extends _ _ _ E0 Hids) as Hk.
  rewrite <- (placement_extends _ _ _ E0) in Hp.
  rewrite fkLoop_app, Hpre in Hl. simpl in Hl.
  rewrite fkLoop_app, Hpre. simpl.
  rewrite fkStep_unfold, Hk, Hp, Hdk in Hl.
  rewrite fkStep_unfold, Hk, Hp, Hdk.
  unfold hasColumnNamed.
  destruct (existsb _ (columns dk)) eqn:Hex; [done|].
  destruct (find_findIndex _ _ _ Hdk) as (i & Hi & Hli).
  rewrite Hi, Hli in Hl. rewrite Hi, Hli. simpl in *.
  rewrite fkColumn_spec in *.
  set (dk' := with_columns dk
                (columns dk ++ [specFkColumn r (t_id dest) referenced])) in *.
  assert (Hfind : findTable (<[i := dk']> tsk) (t_id dest) = Some dk').
  { unfold findTable. apply find_insert_first; [done|]. simpl.
    apply (find_some _ _ Hdk). }
  pose proof (fkLoop_extends _ _ _ Hl) as E1.
  pose proof (findTable_extends _ _ (t_id dest) E1) as Hf.
  rewrite Hfind in Hf. destruct Hf as (dest' & Hdest' & G).
  exists i, dest'. split_and!; try done.
  destruct G as (_&_&_&_&added&->&_). simpl.
  apply in_app_iff. left. apply in_app_iff. right. by left.
Qed.

(** C1 (amended).  The pass as a whole, on any schema.  It returns, with
    the relationships as they were and every table under its id, name and
    position with its columns in order, followed by added columns.  Every
    added column is one the placement rule dictates for a relationship of
    the schema whose two tables exist and have a key: the destination is
    the target with the source's key for 1:N and for 1:1 with an optional
    target, the source with the target's key for N:1 and for 1:1 with only
    the source optional, no table at all for 1:1 with neither end optional
    and for N:M; the column has the name and the logical type of the
    referenced key, [primaryKey = false],
    [nullable = sourceOptional || targetOptional], [unique] exactly for
    1:1; its name is one the table did not have, and no name is added
    twice.  And every relationship whose declared column ids resolve and
    to which the rule gives a destination finds a column with the name of
    the referenced key on that table after the pass.  When the pass
    reaches the relationship, that is after the pass over the
    relationships before it, either the table has a column of that name
    by then and the relationship adds nothing, or the pass appends
    exactly the column dictated for this relationship, which the table
    still has when the pass is over. *)
Theorem addForeignKeyFields_follows_placementRule S :
  ∃ S',
    addForeignKeyFields S = Some S' ∧
    relationships S' = relationships S ∧
    Forall2 (resolvedFrom (tables S) (relationships S))
            (tables S) (tables S') ∧
    ∀ r dest referenced,
      In r (relationships S) →
      idsResolve (tables S) r = true →
      ruleDestination (tables S) r = Some (dest, referenced) →
      ∃ dest',
        findTable (tables S') (t_id dest) = Some dest' ∧
        resolvedFrom (tables S) (relationships S) dest dest' ∧
        hasColumnNamed dest' (c_name referenced) = true ∧
        ∀ pre post Spre dk,
          relationships S = pre ++ r :: post →
          addForeignKeyFields {| tables := tables S; relationships := pre |}
          = Some Spre →
          findTable (tables Spre) (t_id dest) = Some dk →
          if hasColumnNamed dk (c_name referenced)
          then addForeignKeyFields
                 {| tables := tables S; relationships := pre ++ [r] |}
               = Some {| tables := tables Spre;
                         relationships := pre ++ [r] |}
          else ∃ i,
                 tables Spre !! i = Some dk ∧
                 addForeignKeyFields
                   {| tables := tables S; relationships := pre ++ [r] |}
                 = Some {| tables :=
                             appendColumn (tables Spre) i dk
                               (specFkColumn r (t_id dest) referenced);
                           relationships := pre ++ [r] |} ∧
                 In (specFkColumn r (t_id dest) referenced) (columns dest').
Proof.
  destruct (addForeignKeyFields_total S) as [S' HS'].
  exists S'. split; [done|].
  apply addForeignKeyFields_fkLoop in HS' as (ts' & Hl & ->). simpl.
  split_and!; [done|by apply pass_resolvedFrom|].
  intros r dest referenced Hin Hids Hrule.
  destruct (pass_places_name _ _ _ _ _ _ Hl Hin Hids Hrule)
    as (dest' & Hdest' & Hres & Hname).
  exists dest'. split_and!; try done.
  intros pre post Spre dk Hsplit Hpre Hdk.
  apply addForeignKeyFields_fkLoop in Hpre as (tsk & Hpre & ->).
  simpl in Hpre, Hdk. rewrite Hsplit in Hl.
  pose proof (pass_at _ _ _ _ _ _ _ _ _ Hl Hids Hrule Hpre Hdk) as Hat.
  simpl. destruct (hasColumnNamed dk (c_name referenced)).
  - apply addForeignKeyFields_fkLoop. simpl. by exists tsk.
  - destruct Hat as (i & dest'' & Hi & Hstep & Hdest'' & Hcol).
    rewrite Hdest' in Hdest''. injection Hdest'' as <-.
    exists i. split_and!; [done| |done].
    apply addForeignKeyFields_fkLoop. simpl. eauto.
Qed.

Lemma addForeignKeyFields_follows_placementRule_witness :
  ∃ S' dest',
    addForeignKeyFields authorBookSchema = Some S' ∧
    findTable (tables S') "B" = Some dest' ∧
    In (specFkColumn (mkRel "r1" "A" "a1" "B" "b1" Card_1_N false false) "B"
          (mkColumn "a1" "author_id" INTEGER true))
       (columns dest').
Proof.
  destruct (addForeignKeyFields_follows_placementRule authorBookSchema)
    as (S' & HS' & _ & _ & H).
  destruct (H (mkRel "r1" "A" "a1" "B" "b1" Card_1_N false false)
              (mkTable "B" "Book" [mkColumn "b1" "book_id" INTEGER true])
              (mkColumn "a1" "author_id" INTEGER true))
    as (dest' & Hdest' & _ & _ & Hcol).
  - by left.
  - reflexivity.
  - reflexivity.
  - exists S', dest'. split_and!; [exact HS'|exact Hdest'|].
    destruct (Hcol [] []
                {| tables := tables authorBookSchema; relationships := [] |}
                (mkTable "B" "Book" [mkColumn "b1" "book_id" INTEGER true])
                eq_refl eq_refl eq_refl) as (i & _ & _ & Hin).
    exact Hin.
Defined.

(** C1, as stated, fails.  In [danglingSchema] the 1:N relationship
    names a source column that no longer exists: the pass returns the
    schema as it was, and no table has a column with the name of the
    source's key other than the source itself.  In [sameKeySchema] every
    guard passes, yet the target's own key already has the name of the
    source's key, so nothing is added: no table has a column with
    [primaryKey = false]. *)
Lemma fk_not_placed_for_every_relationship :
  (cardinality danglingRel = Card_1_N ∧
   addForeignKeyFields danglingSchema = Some danglingSchema ∧
   ¬ ∃ S' t c, addForeignKeyFields danglingSchema = Some S' ∧
               In t (tables S') ∧ t_id t = targetTableId danglingRel ∧
               In c (columns t) ∧ c_name c = "customer_id") ∧
  (idsResolve (tables sameKeySchema)
     (mkRel "r1" "D" "d1" "E" "e1" Card_1_N false false) = true ∧
   addForeignKeyFields sameKeySchema = Some sameKeySchema ∧
   ¬ ∃ S' t c, addForeignKeyFields sameKeySchema = Some S' ∧
               In t (tables S') ∧ In c (columns t) ∧ primaryKey c = false).
Proof.
  split; split_and!; try reflexivity.
  - intros (S' & t & c & [= <-] & Ht & Hid & Hc & Hn).
    simpl in Ht. destruct Ht as [<-|[<-|[]]]; [discriminate|].
    simpl in Hc. destruct Hc as [<-|[]]. discriminate.
  - intros (S' & t & c & [= <-] & Ht & Hc & Hpk).
    simpl in Ht. destruct Ht as [<-|[<-|[]]];
      simpl in Hc; destruct Hc as [<-|[]]; discriminate.
Qed.

(** ** C5: a second pass *)

(** C5 (amended).  For every schema in which no declared column id is one
    that only the resolved schema has ([idsStable]), both passes return,
    and the per-table column counts after the second pass equal those
    after the first; and whenever the destination of a relationship
    already has a column with the resolved FK name, the step adds
    nothing. *)
Theorem resolve_twice_same_column_counts S :
  idsStable S = true →
  (∃ S1 S2, addForeignKeyFields S = Some S1 ∧
            addForeignKeyFields S1 = Some S2 ∧
            columnCounts (tables S2) = columnCounts (tables S1)) ∧
  (∀ ts r d n pk et,
     placement ts r = Some (d, n, pk) → findTable ts d = Some et →
     hasColumnNamed et n = true → fkStep ts r = Some ts).
Proof.
  intros Hst. split.
  - destruct (addForeignKeyFields_total S) as [S1 H1].
    exists S1, S1. split; [done|]. split; [|done].
    by apply addForeignKeyFields_idempotent with S.
  - intros ts r d n pk et Hp Het Hn. rewrite fkStep_unfold, Hp, Het.
    unfold hasColumnNamed in Hn. rewrite Hn. by destruct (idsResolve ts r).
Qed.

Lemma resolve_twice_same_column_counts_witness :
  idsStable authorBookSchema = true ∧
  ∃ S1 S2, addForeignKeyFields authorBookSchema = Some S1 ∧
           addForeignKeyFields S1 = Some S2 ∧
           columnCounts (tables S2) = columnCounts (tables S1).
Proof.
  split; [reflexivity|].
  exact (proj1 (resolve_twice_same_column_counts authorBookSchema eq_refl)).
Defined.

(** C5, as stated, fails: in [lateIdSchema] the first relationship is
    skipped by the first pass (its source column id is dangling) and
    placed by the second (the id is now that of the column the first pass
    created), so table [B] has one column after one pass and two after
    two. *)
Lemma resolve_twice_adds_a_column :
  ∃ S1 S2, addForeignKeyFields lateIdSchema = Some S1 ∧
           addForeignKeyFields S1 = Some S2 ∧
           columnCounts (tables S1) = [2; 1; 1] ∧
           columnCounts (tables S2) = [2; 2; 1].
Proof. do 2 eexists. repeat split; reflexivity. Qed.

(** ** C10: 1:1 with both ends optional *)

Lemma generateForeignKeyConstraint_extends ts ts' r :
  extends ts ts' →
  generateForeignKeyConstraint r ts' = generateForeignKeyConstraint r ts.
Proof.
  intros E. unfold generateForeignKeyConstraint.
  pose proof (findTable_extends _ _ (sourceTableId r) E) as Hs.
  pose proof (findTable_extends _ _ (targetTableId r) E) as Ht.
  destruct (findTable ts (sourceTableId r)) as [st|];
    [destruct Hs as (st'&->&Gs)|by rewrite Hs].
  destruct (findTable ts (targetTableId r)) as [tt|];
    [destruct Ht as (tt'&->&Gt)|by rewrite Ht].
  rewrite (findPK_grows _ _ Gs), (findPK_grows _ _ Gt).
  destruct Gs as (_&Ns&_), Gt as (_&Nt&_).
  destruct (findPK st) as [sp|]; [|done].
  destruct (findPK tt) as [tp|]; [|done].
  unfold constraintSide.
  destruct (cardinality r), (targetOptional r), (sourceOptional r);
    simpl; by rewrite ?Ns, ?Nt.
Qed.

Lemma resolvedTables_fkLoop S :
  fkLoop (nonMN S) (tables S) = Some (resolvedTables S).
Proof.
  pose proof (resolvedTables_eq S) as H.
  apply addForeignKeyFields_fkLoop in H as (ts & Hl & [= <-]). exact Hl.
Qed.

(** C10, as stated, fails: the pass does not place a column for every
    1:1 relationship with both ends optional.  In
    [sameKeyPassportSchema] every guard passes, yet the target's own
    key already has the name of the source's key, so the pass returns
    the schema as it was and no table has a column that is no key; in
    [danglingPassportSchema] the declared source column is gone and the
    pass again returns the schema as it was.  In both the constraint path
    still emits its statement on the target. *)
Lemma one_to_one_both_optional_nothing_placed :
  (cardinality passportRel = Card_1_1 ∧
   sourceOptional passportRel = true ∧ targetOptional passportRel = true ∧
   idsResolve (tables sameKeyPassportSchema) passportRel = true ∧
   addForeignKeyFields sameKeyPassportSchema = Some sameKeyPassportSchema ∧
   (¬ ∃ S' t c, addForeignKeyFields sameKeyPassportSchema = Some S' ∧
                In t (tables S') ∧ In c (columns t) ∧ primaryKey c = false) ∧
   truthy (alterStatement sameKeyPassportSchema passportRel) = true) ∧
  (cardinality danglingPassportRel = Card_1_1 ∧
   sourceOptional danglingPassportRel = true ∧
   targetOptional danglingPassportRel = true ∧
   addForeignKeyFields danglingPassportSchema = Some danglingPassportSchema ∧
   ¬ ∃ S' t c, addForeignKeyFields danglingPassportSchema = Some S' ∧
               In t (tables S') ∧ t_id t = targetTableId danglingPassportRel ∧
               In c (columns t) ∧ c_name c = "person_id").
Proof.
  split; split_and!; try reflexivity.
  - intros (S' & t & c & [= <-] & Ht & Hc & Hpk).
    simpl in Ht. destruct Ht as [<-|[<-|[]]];
      simpl in Hc; destruct Hc as [<-|[]]; discriminate.
  - intros (S' & t & c & [= <-] & Ht & Hid & Hc & Hn).
    simpl in Ht. destruct Ht as [<-|[<-|[]]]; [discriminate|].
    simpl in Hc. destruct Hc as [<-|[]]. discriminate.
Qed.

(** C10 (amended).  A 1:1 relationship of the schema with both ends
    optional, whose two tables exist and have a key and whose declared
    column ids resolve; [generate] is run once on the schema.  The rule
    names the target as destination and the source's key as referenced
    key.  In the tables the FK-field pass hands on, the target has a
    column with the name of the source's key, and its CREATE TABLE
    statement is in the script; unless the target has a column of that
    name by the time the pass reaches the relationship, the column is the
    one the pass appended for this relationship, typed like the source's
    key;
    whatever column the source table has gained comes from another
    relationship, when source and target are two tables.  The constraint
    pass, on those same tables, emits for the relationship an ALTER TABLE
    on the target with that column as FOREIGN KEY.  So both paths take the
    target. *)
Theorem one_to_one_both_optional_target_first d now S r st tt sc tc sp tp :
  In r (relationships S) →
  cardinality r = Card_1_1 →
  sourceOptional r = true → targetOptional r = true →
  findTable (tables S) (sourceTableId r) = Some st →
  findTable (tables S) (targetTableId r) = Some tt →
  findColumn st (sourceColumnId r) = Some sc →
  findColumn tt (targetColumnId r) = Some tc →
  findPK st = Some sp → findPK tt = Some tp →
  ruleDestination (tables S) r = Some (tt, sp) ∧
  ∃ st' tt' name rest,
    generate d now S
    = Some (generateHeader d now +:+ nl +:+ nl +:+ ddlBody S) ∧
    findTable (resolvedTables S) (sourceTableId r) = Some st' ∧
    findTable (resolvedTables S) (targetTableId r) = Some tt' ∧
    resolvedFrom (tables S) (nonMN S) st st' ∧
    resolvedFrom (tables S) (nonMN S) tt tt' ∧
    In (generateCreateTable tt') (createStatements S) ∧
    hasColumnNamed tt' (c_name sp) = true ∧
    (∀ pre post Spre tk,
       nonMN S = pre ++ r :: post →
       addForeignKeyFields {| tables := tables S; relationships := pre |}
       = Some Spre →
       findTable (tables Spre) (targetTableId r) = Some tk →
       hasColumnNamed tk (c_name sp) = false →
       In (specFkColumn r (targetTableId r) sp) (columns tt')) ∧
    (st ≠ tt →
     ∀ c, In c (columns st') →
          In c (columns st) ∨
          ∃ r' ref', r' ≠ r ∧ In r' (nonMN S) ∧
                     ruleDestination (tables S) r' = Some (st, ref') ∧
                     c = specFkColumn r' (sourceTableId r) ref') ∧
    alterStatement S r
    = "ALTER TABLE [" +:+ t_name tt +:+ "]" +:+ nl
      +:+ "    ADD CONSTRAINT [" +:+ name +:+ "] FOREIGN KEY (["
      +:+ c_name sp +:+ "])" +:+ rest ∧
    In (alterStatement S r) (alterStatements S).
Proof.
  intros Hin Hc Hso Hto Hs Ht Hsc Htc Hsp Htp.
  assert (Hrule : ruleDestination (tables S) r = Some (tt, sp)).
  { unfold ruleDestination, placementRule.
    by rewrite Hs, Ht, Hsp, Htp, Hc, Hto. }
  assert (Hids : idsResolve (tables S) r = true).
  { unfold idsResolve. by rewrite Hs, Ht, Hsc, Htc. }
  assert (Hnon : In r (nonMN S)).
  { unfold nonMN. apply filter_In. split; [done|]. by rewrite Hc. }
  pose proof (resolvedTables_fkLoop S) as Hl.
  pose proof (pass_resolvedFrom _ _ _ Hl) as Hall.
  pose proof (findTable_id _ _ _ Hs) as Ids.
  pose proof (findTable_id _ _ _ Ht) as Idt.
  destruct (findTable_Forall2 _ _ _ _ _ (λ a b H, proj1 H) Hall Hs)
    as (st' & Hst' & Hrs).
  destruct (pass_places_name _ _ _ _ _ _ Hl Hnon Hids Hrule)
    as (tt' & Htt' & Hrt & Hname).
  rewrite Idt in Htt'.
  assert (Halter : ∃ name rest,
             alterStatement S r
             = "ALTER TABLE [" +:+ t_name tt +:+ "]" +:+ nl
               +:+ "    ADD CONSTRAINT [" +:+ name +:+ "] FOREIGN KEY (["
               +:+ c_name sp +:+ "])" +:+ rest).
  { unfold alterStatement.
    rewrite (generateForeignKeyConstraint_extends (tables S));
      [|by eapply fkLoop_extends].
    unfold generateForeignKeyConstraint, constraintSide.
    rewrite Hs, Ht, Hsp, Htp, Hc, Hto. simpl.
    exists ("FK_" +:+ t_name tt +:+ "_" +:+ t_name tt).
    destruct (negb (is_NO_ACTION (onDelete r))),
             (negb (is_NO_ACTION (onUpdate r)));
      eexists; rewrite !append_assoc; reflexivity. }
  destruct Halter as (name & rest & Halter).
  split; [done|]. exists st', tt', name, rest. split_and!; try done.
  - apply generate_sections.
  - unfold createStatements. apply in_map. by apply (find_some _ _ Htt').
  - intros pre post Spre tk Hsplit Hpre Htk Hno.
    apply addForeignKeyFields_fkLoop in Hpre as (tsk & Hpre & ->).
    simpl in Hpre, Htk. rewrite Hsplit in Hl. rewrite <- Idt in Htk.
    pose proof (pass_at _ _ _ _ _ _ _ _ _ Hl Hids Hrule Hpre Htk) as Hat.
    rewrite Hno in Hat. destruct Hat as (i & tt'' & _ & _ & Htt'' & Hcol).
    rewrite Idt, Htt' in Htt''. injection Htt'' as <-. by rewrite <- Idt.
  - intros Hne c Hcin.
    destruct Hrs as (_&_&_&_&added&Hcols&Hd&_&_).
    rewrite Hcols in Hcin. apply in_app_iff in Hcin as [?|Hcin]; [by left|].
    right. rewrite Forall_forall in Hd.
    destruct (Hd c) as (r' & ref' & Hin' & Hrule' & ->);
      [by apply list_elem_of_In|].
    exists r', ref'. split_and!; try done; [|by rewrite Ids].
    intros ->. rewrite Hrule in Hrule'. by injection Hrule' as -> _.
  - unfold alterStatements. apply filter_In. split.
    + by apply in_map.
    + by rewrite Halter.
Qed.

Lemma one_to_one_both_optional_target_first_witness :
  ∃ tt',
    findTable (resolvedTables passportSchema) "Q" = Some tt' ∧
    In (specFkColumn passportRel "Q"
          (mkColumn "p1" "person_id" INTEGER true)) (columns tt') ∧
    ∃ name rest,
      alterStatement passportSchema passportRel
      = "ALTER TABLE [Passport]" +:+ nl
        +:+ "    ADD CONSTRAINT [" +:+ name +:+ "] FOREIGN KEY (["
        +:+ "person_id" +:+ "])" +:+ rest.
Proof.
  destruct (one_to_one_both_optional_target_first ACCESS EmptyString
              passportSchema passportRel
              (mkTable "P" "Person" [mkColumn "p1" "person_id" INTEGER true])
              (mkTable "Q" "Passport" [mkColumn "q1" "passport_no" TEXT true])
              (mkColumn "p1" "person_id" INTEGER true)
              (mkColumn "q1" "passport_no" TEXT true)
              (mkColumn "p1" "person_id" INTEGER true)
              (mkColumn "q1" "passport_no" TEXT true))
    as (_ & st' & tt' & name & rest & _ & _ & Htt' & _ & _ & _ & _
          & Hcol & _ & Halter & _);
    try reflexivity.
  - by left.
  - exists tt'. split_and!; [exact Htt'| |by exists name, rest].
    apply (Hcol [] []
             {| tables := passportTables; relationships := [] |}
             (mkTable "Q" "Passport" [mkColumn "q1" "passport_no" TEXT true]));
      reflexivity.
Defined.

(** ** C2: junction tables *)

Lemma concatAll_app l1 l2 : concatAll (l1 ++ l2) = concatAll l1 +:+ concatAll l2.
Proof.
  induction l1 as [|a l1 IH]; simpl; [done|]. by rewrite IH, append_assoc.
Qed.

Lemma mapDataType_sqlTypeName t : mapDataType t = sqlTypeName t.
Proof. by destruct t. Qed.

Lemma generateJunctionTable_text rel ts st tt sp tp :
  findTable ts (sourceTableId rel) = Some st →
  findTable ts (targetTableId rel) = Some tt →
  findPK st = Some sp → findPK tt = Some tp →
  generateJunctionTable rel ts = junctionText st tt sp tp.
Proof.
  intros Hs Ht Hsp Htp. unfold generateJunctionTable, junctionText.
  rewrite Hs, Ht, Hsp, Htp. cbn zeta.
  rewrite !mapDataType_sqlTypeName. by rewrite !append_assoc.
Qed.

Lemma generateJunctionTable_spec rel ts :
  generateJunctionTable rel ts = specJunction ts rel.
Proof.
  unfold specJunction.
  destruct (findTable ts (sourceTableId rel)) as [st|] eqn:Hs;
    [|unfold generateJunctionTable; by rewrite Hs].
  destruct (findTable ts (targetTableId rel)) as [tt|] eqn:Ht;
    [|unfold generateJunctionTable; by rewrite Hs, Ht].
  destruct (findPK st) as [sp|] eqn:Hsp;
    [|unfold generateJunctionTable; by rewrite Hs, Ht, Hsp].
  destruct (findPK tt) as [tp|] eqn:Htp;
    [|unfold generateJunctionTable; by rewrite Hs, Ht, Hsp, Htp].
  by apply generateJunctionTable_text.
Qed.

(** C2.  The whole script [generate] returns: the header; then, for the
    N:M relationships in relationship order, one block each, which is the
    junction statement described by the specification when both tables
    exist and have a primary key (named after the two tables; two
    columns with the names and SQL types of the two keys, both NOT NULL;
    the composite primary key in (source, target) order; one foreign key
    per column to the key of its table), and nothing but the line feed of
    the loop when a key is missing; then one CREATE TABLE per table of the
    schema, in table order, and none for a junction; then ALTER TABLE
    statements, each for a relationship that is not N:M.  So an N:M
    relationship with both keys gets exactly one junction statement and
    nothing else, and one with a key missing gets nothing. *)
Theorem junction_table_emitted d now S :
  generate d now S
  = Some (generateHeader d now +:+ nl +:+ nl
          +:+ concatAll (map (λ rel, specJunction (tables S) rel +:+ nl)
                             (List.filter (λ rel, is_N_M (cardinality rel))
                                          (relationships S)))
          +:+ concatAll (map (λ s, s +:+ nl +:+ nl) (createStatements S))
          +:+ concatAll (map (λ s, s +:+ nl) (alterStatements S))) ∧
  (∀ rel st tt sp tp,
     findTable (tables S) (sourceTableId rel) = Some st →
     findTable (tables S) (targetTableId rel) = Some tt →
     findPK st = Some sp → findPK tt = Some tp →
     specJunction (tables S) rel = junctionText st tt sp tp) ∧
  (∀ rel st tt,
     findTable (tables S) (sourceTableId rel) = Some st →
     findTable (tables S) (targetTableId rel) = Some tt →
     findPK st = None ∨ findPK tt = None →
     specJunction (tables S) rel = EmptyString) ∧
  Forall2 (λ t s, ∃ t', grows t t' ∧ s = generateCreateTable t')
          (tables S) (createStatements S) ∧
  Forall (λ s, ∃ r, In r (relationships S) ∧ cardinality r ≠ Card_N_M ∧
                    s = alterStatement S r)
         (alterStatements S).
Proof.
  split_and!.
  - rewrite generate_sections. unfold ddlBody, junctionStatements, onlyMN.
    rewrite map_map.
    rewrite (map_ext (λ x, generateJunctionTable x (tables S) +:+ nl)
                     (λ rel, specJunction (tables S) rel +:+ nl)); [done|].
    intros rel. by rewrite generateJunctionTable_spec.
  - intros rel st tt sp tp Hs Ht Hsp Htp. unfold specJunction.
    by rewrite Hs, Ht, Hsp, Htp.
  - intros rel st tt Hs Ht Hpk. unfold specJunction. rewrite Hs, Ht.
    destruct Hpk as [->| ->]; [done|]. by destruct (findPK st).
  - unfold createStatements. apply Forall2_fmap_r.
    pose proof (fkLoop_extends _ _ _ (resolvedTables_fkLoop S)) as He.
    eapply Forall2_impl; [exact He|]. intros t t' G. by exists t'.
  - unfold alterStatements. apply Forall_forall. intros s Hs.
    apply list_elem_of_In, filter_In in Hs as [Hs _].
    apply in_map_iff in Hs as (r & <- & Hr).
    unfold nonMN in Hr. apply filter_In in Hr as [Hr Hc].
    exists r. split_and!; [done| |done]. intros E. by rewrite E in Hc.
Qed.

Lemma junction_table_emitted_witness :
  generate ACCESS EmptyString studentCourseSchema
  = Some (generateHeader ACCESS EmptyString +:+ nl +:+ nl
          +:+ (junctionText
                 (mkTable "S" "Student" [mkColumn "s1" "id" INTEGER true])
                 (mkTable "K" "Course" [mkColumn "k1" "id" INTEGER true])
                 (mkColumn "s1" "id" INTEGER true)
                 (mkColumn "k1" "id" INTEGER true) +:+ nl)
          +:+ concatAll (map (λ s, s +:+ nl +:+ nl)
                             (createStatements studentCourseSchema))
          +:+ concatAll (map (λ s, s +:+ nl)
                             (alterStatements studentCourseSchema))).
Proof.
  destruct (junction_table_emitted ACCESS EmptyString studentCourseSchema)
    as (Hgen & Hj & _).
  rewrite Hgen.
  rewrite <- (Hj (mkRel "r1" "S" "s1" "K" "k1" Card_N_M false false)
                 (mkTable "S" "Student" [mkColumn "s1" "id" INTEGER true])
                 (mkTable "K" "Course" [mkColumn "k1" "id" INTEGER true])
                 (mkColumn "s1" "id" INTEGER true)
                 (mkColumn "k1" "id" INTEGER true)
                 eq_refl eq_refl eq_refl eq_refl).
  vm_compute. reflexivity.
Defined.

(** ** C7: the header carries the clock *)



(** ** C3: the Customer/Invoice scenario *)

(** C3, as stated, fails twice on the scenario: the resolved Invoice has
    gained nothing (its own key is already called [id]), and the one ALTER
    TABLE references [Invoice], not [Customer]. *)
Lemma customer_invoice_no_column_gained :
  resolvedTables (customerInvoice false false NO_ACTION NO_ACTION)
  = [ mkTable "T1" "Customer" [mkColumn "c1" "id" INTEGER true];
      mkTable "T2" "Invoice" [mkColumn "c2" "id" INTEGER true] ] ∧
  alterStatements (customerInvoice false false NO_ACTION NO_ACTION)
  = [ "ALTER TABLE [Invoice]" +:+ nl
      +:+ "    ADD CONSTRAINT [FK_Invoice_Invoice] FOREIGN KEY ([id])" +:+ nl
      +:+ "    REFERENCES [Invoice]([id]);" ].
Proof. split; reflexivity. Qed.

(** C3 (amended).  In the scenario, whatever the optionality flags and
    referential actions, foreign-key resolution leaves both tables as they
    are (Invoice already has a column named [id], so none is added), and
    the script is the header, a CREATE TABLE for [Customer], a CREATE
    TABLE for [Invoice] with the column definition [[id] INTEGER], and
    exactly one ALTER TABLE, on [Invoice], adding a FOREIGN KEY on
    [[id]]. *)
Theorem customer_invoice_scenario d now so to od ou :
  addForeignKeyFields (customerInvoice so to od ou)
  = Some (customerInvoice so to od ou) ∧
  resolvedTables (customerInvoice so to od ou)
  = tables (customerInvoice so to od ou) ∧
  createStatements (customerInvoice so to od ou)
  = [ "CREATE TABLE [Customer] (" +:+ nl
      +:+ "    [id] INTEGER NOT NULL," +:+ nl
      +:+ "    CONSTRAINT [PK_Customer] PRIMARY KEY ([id])" +:+ nl +:+ ");";
      "CREATE TABLE [Invoice] (" +:+ nl
      +:+ "    [id] INTEGER NOT NULL," +:+ nl
      +:+ "    CONSTRAINT [PK_Invoice] PRIMARY KEY ([id])" +:+ nl +:+ ");" ] ∧
  (∃ name rest,
     alterStatements (customerInvoice so to od ou)
     = [ "ALTER TABLE [Invoice]" +:+ nl
         +:+ "    ADD CONSTRAINT [" +:+ name +:+ "] FOREIGN KEY ([id])"
         +:+ rest ]) ∧
  generate d now (customerInvoice so to od ou)
  = Some (generateHeader d now +:+ nl +:+ nl
          +:+ concatAll (map (λ s, s +:+ nl +:+ nl)
                             (createStatements (customerInvoice so to od ou)))
          +:+ concatAll (map (λ s, s +:+ nl)
                             (alterStatements (customerInvoice so to od ou)))).
Proof.
  split_and!.
  - by destruct so, to, od, ou.
  - by destruct so, to, od, ou.
  - by destruct so, to, od, ou.
  - exists "FK_Invoice_Invoice",
      (nl +:+ "    REFERENCES [Invoice]([id])"
       +:+ (if negb (is_NO_ACTION od)
            then nl +:+ "    ON DELETE " +:+ RefAction_str od
            else EmptyString)
       +:+ (if negb (is_NO_ACTION ou)
            then nl +:+ "    ON UPDATE " +:+ RefAction_str ou
            else EmptyString)
       +:+ ";").
    by destruct so, to, od, ou.
  - rewrite generate_sections. by destruct so, to, od, ou.
Qed.

(** ** C4: skipped relationships and ALTER TABLE *)

(** The constraint pass emits a statement exactly when the two tables
    exist, both have a primary key and the [switch] names a side; it never
    looks at the declared column ids. *)
Lemma alter_emitted_iff_placement ts r :
  truthy (generateForeignKeyConstraint r ts) = true ↔ is_Some (placement ts r).
Proof.
  unfold generateForeignKeyConstraint, placement.
  destruct (findTable ts (sourceTableId r)) as [st|];
    [|split; [done|by intros [? ?]]].
  destruct (findTable ts (targetTableId r)) as [tt|];
    [|split; [done|by intros [? ?]]].
  destruct (findPK st) as [sp|], (findPK tt) as [tp|];
    try (destruct (is_N_M (cardinality r));
         (split; [done|by intros [? ?]])).
  unfold constraintSide, fkSide.
  destruct (cardinality r), (targetOptional r), (sourceOptional r); simpl;
    try (split; [done|by intros [? ?]]);
    destruct (negb (is_NO_ACTION (onUpdate r))),
             (negb (is_NO_ACTION (onDelete r)));
    (split; [eauto|reflexivity]).
Qed.

(** C4 at the failing input: in [danglingSchema] the relationship's source
    column id resolves to nothing, the resolver skips it and adds no column
    to Invoice, and [generate] still emits an ALTER TABLE for it, on a
    column Invoice does not have. *)
Theorem dangling_relationship_still_altered d now :
  idsResolve (tables danglingSchema) danglingRel = false ∧
  nonMN danglingSchema = [danglingRel] ∧
  resolvedTables danglingSchema = tables danglingSchema ∧
  alterStatements danglingSchema
  = [ "ALTER TABLE [Invoice]" +:+ nl
      +:+ "    ADD CONSTRAINT [FK_Invoice_Invoice] FOREIGN KEY ([customer_id])"
      +:+ nl +:+ "    REFERENCES [Invoice]([customer_id]);" ] ∧
  generate d now danglingSchema
  = Some (generateHeader d now +:+ nl +:+ nl
          +:+ concatAll (map (λ s, s +:+ nl +:+ nl)
                             (createStatements danglingSchema))
          +:+ concatAll (map (λ s, s +:+ nl)
                             (alterStatements danglingSchema))).
Proof.
  split_and!; try reflexivity. rewrite generate_sections. reflexivity.
Qed.

(** ** C6: to conceptual mode and back *)

Section RoundTrip.
Import App.

Lemma column_round_trip c :
  let c' := columnOfAttribute (attributeOfColumn c) in
  c_id c' = c_id c ∧ c_name c' = c_name c ∧ c_type c' = c_type c ∧
  primaryKey c' = primaryKey c.
Proof. simpl. by destruct (primaryKey c). Qed.

Lemma columns_round_trip cs :
  let cs' := map columnOfAttribute (map attributeOfColumn cs) in
  map c_id cs' = map c_id cs ∧ map c_name cs' = map c_name cs ∧
  map c_type cs' = map c_type cs ∧ map primaryKey cs' = map primaryKey cs.
Proof.
  induction cs as [|c cs (I1 & I2 & I3 & I4)]; simpl; [done|].
  destruct (column_round_trip c) as (E1 & E2 & E3 & E4). simpl in *.
  rewrite I1, I2, I3, I4, E4. done.
Qed.

Lemma node_round_trip n :
  n_type n = tableNode → wellTyped n →
  ∃ e t, entityOfTableNode n = Some e ∧ n_type e = entityNode ∧
         tableOfEntityNode e = Some t ∧ roundTripOf n t.
Proof.
  unfold wellTyped. intros -> [cs Hcs].
  unfold entityOfTableNode, tableOfEntityNode. rewrite Hcs. simpl.
  do 2 eexists. split_and!; try done.
  unfold roundTripOf. simpl. split_and!; try done.
  exists cs, (map columnOfAttribute (map attributeOfColumn cs)).
  split; [done|]. split; [done|]. apply columns_round_trip.
Qed.

Lemma tables_round_trip l :
  Forall (λ n, n_type n = tableNode ∧ wellTyped n) l →
  ∃ es ts, mapM entityOfTableNode l = Some es ∧
           Forall (λ e, n_type e = entityNode) es ∧
           mapM tableOfEntityNode es = Some ts ∧
           Forall2 roundTripOf l ts.
Proof.
  induction 1 as [|n l [Hty Hwt] _ (es & ts & H1 & H2 & H3 & H4)]; simpl.
  - by exists [], [].
  - destruct (node_round_trip n Hty Hwt) as (e & t & He & Hte & Ht & Hrt).
    exists (e :: es), (t :: ts). simpl. rewrite He, H1, Ht, H3. simpl.
    split_and!; auto.
Qed.

Lemma entities_to_tables l :
  Forall (λ n, n_type n = entityNode ∧ wellTyped n) l →
  is_Some (mapM tableOfEntityNode l).
Proof.
  intros H. apply mapM_is_Some. eapply Forall_impl; [exact H|].
  intros n [Hty Hwt]. unfold wellTyped in Hwt. rewrite Hty in Hwt.
  destruct Hwt as [attrs Ha]. unfold tableOfEntityNode. simpl.
  rewrite Ha. simpl. eauto.
Qed.

Lemma mapM_app_Some {A B} (f : A → option B) l1 l2 k1 k2 :
  mapM f l1 = Some k1 → mapM f l2 = Some k2 →
  mapM f (l1 ++ l2) = Some (k1 ++ k2).
Proof.
  rewrite !mapM_Some. apply Forall2_app.
Qed.

Lemma filter_all {A} (p : A → bool) l :
  Forall (λ x, p x = true) l → List.filter p l = l.
Proof.
  induction 1 as [|x l Hx _ IH]; simpl; [done|]. by rewrite Hx, IH.
Qed.

Lemma filter_none {A} (p : A → bool) l :
  Forall (λ x, p x = false) l → List.filter p l = [].
Proof.
  induction 1 as [|x l Hx _ IH]; simpl; [done|]. by rewrite Hx, IH.
Qed.

Lemma Forall_filter_bool {A} (P : A → Prop) (p : A → bool) l :
  Forall P l → Forall (λ x, p x = true ∧ P x) (List.filter p l).
Proof.
  induction 1 as [|x l Hx _ IH]; simpl; [done|].
  destruct (p x) eqn:E; [constructor|]; auto.
Qed.

(** C6.  From LOGICAL mode, with every node carrying the field of its
    type, the toggle to CONCEPTUAL and the toggle back both succeed, and
    the nodes that come back are the converted former entity nodes
    followed by one table node per original table node, in order, each
    with the same node and table identity and, column for column, the same
    id, name, logical type and primary-key flag. *)
Theorem toLogical_toConceptual_preserves_columns nodes :
  Forall wellTyped nodes →
  ∃ conceptual logical fromEntities fromTables,
    toggleMode LOGICAL nodes = Some (conceptual, CONCEPTUAL) ∧
    toggleMode CONCEPTUAL conceptual = Some (logical, LOGICAL) ∧
    logical = fromEntities ++ fromTables ∧
    Forall2 roundTripOf (List.filter is_tableNode nodes) fromTables.
Proof.
  intros Hwt.
  assert (Ht : Forall (λ n, n_type n = tableNode ∧ wellTyped n)
                      (List.filter is_tableNode nodes)).
  { eapply Forall_impl; [apply (Forall_filter_bool wellTyped is_tableNode), Hwt|].
    intros n [Hn ?]. split; [|done].
    unfold is_tableNode in Hn. by destruct (n_type n). }
  assert (He : Forall (λ n, n_type n = entityNode ∧ wellTyped n)
                      (List.filter is_entityNode nodes)).
  { eapply Forall_impl; [apply (Forall_filter_bool wellTyped is_entityNode), Hwt|].
    intros n [Hn ?]. split; [|done].
    unfold is_entityNode in Hn. by destruct (n_type n). }
  destruct (tables_round_trip _ Ht) as (es & ts & H1 & Hes & H2 & Hrt).
  destruct (entities_to_tables _ He) as [ts0 H0].
  exists (List.filter is_entityNode nodes ++ es), (ts0 ++ ts), ts0, ts.
  assert (Hall : Forall (λ n, n_type n = entityNode)
                        (List.filter is_entityNode nodes ++ es)).
  { apply Forall_app. split; [|done].
    eapply Forall_impl; [exact He|]. by intros n [? _]. }
  split_and!; try done.
  - unfold toggleMode. rewrite H1. done.
  - unfold toggleMode.
    rewrite (filter_all is_entityNode
               (List.filter is_entityNode nodes ++ es)),
            (filter_none is_tableNode
               (List.filter is_entityNode nodes ++ es)).
    + rewrite (mapM_app_Some _ _ _ _ _ H0 H2). done.
    + eapply Forall_impl; [exact Hall|]. intros n Hn.
      unfold is_tableNode. by rewrite Hn.
    + eapply Forall_impl; [exact Hall|]. intros n Hn.
      unfold is_entityNode. by rewrite Hn.
Qed.

Lemma toLogical_toConceptual_preserves_columns_witness :
  ∃ conceptual logical fromEntities fromTables,
    toggleMode LOGICAL [personNode] = Some (conceptual, CONCEPTUAL) ∧
    toggleMode CONCEPTUAL conceptual = Some (logical, LOGICAL) ∧
    logical = fromEntities ++ fromTables ∧
    Forall2 roundTripOf (List.filter is_tableNode [personNode]) fromTables.
Proof.
  apply (toLogical_toConceptual_preserves_columns [personNode]).
  constructor; [|constructor]. unfold wellTyped. simpl. eauto.
Defined.

End RoundTrip.

(** ** C9: tables without a primary key *)

Section Advisory.
Import RecommendationPanel.

Lemma noPK_findings ts :
  List.filter is_no_primary_key (List.concat (map noPKFinding ts))
  = List.concat (map noPKFinding ts) ∧
  Forall2 noPKIssueOf (List.filter lacksPrimaryKey ts)
          (List.concat (map noPKFinding ts)).
Proof.
  induction ts as [|t ts [IH1 IH2]]; simpl; [by split|].
  rewrite List.filter_app. unfold lacksPrimaryKey at 1.
  assert (Hcase :
    existsb primaryKey (columns t) = true ∧ noPKFinding t = [] ∨
    existsb primaryKey (columns t) = false ∧
    ∃ f, noPKFinding t = [f] ∧ noPKIssueOf t f).
  { unfold noPKFinding.
    destruct (existsb primaryKey (columns t)); [by left|right].
    split; [done|]. eexists. split; [done|]. by repeat split. }
  destruct Hcase as [[-> ->]|[-> (f & -> & Hf)]]; simpl; [done|].
  unfold is_no_primary_key at 1. destruct Hf as (Hi & Hty & Hrest).
  rewrite Hty. simpl. rewrite IH1. split; [done|].
  constructor; [|done]. unfold noPKIssueOf. by rewrite Hi, Hty.
Qed.

Lemma filter_concat_nil {A B} (p : B → bool) (f : A → list B) l :
  (∀ a, List.filter p (f a) = []) →
  List.filter p (List.concat (map f l)) = [].
Proof.
  intros H. induction l as [|a l IH]; simpl; [done|].
  by rewrite List.filter_app, H, IH.
Qed.

(** The remediation behind the action: [handleAddConstraint] with
    ['PRIMARY_KEY'] makes the first column of the table's node the key. *)
Lemma markFirstPrimary_has_key cols :
  cols ≠ [] → existsb primaryKey (App.markFirstPrimary cols) = true.
Proof. by destruct cols. Qed.

Lemma handleAddConstraint_sets_key t n nds :
  In n nds → App.n_id n = t_id t → columns t ≠ [] →
  ∃ n' cs, In n' (App.handleAddConstraint t "PRIMARY_KEY" nds) ∧
           App.n_id n' = t_id t ∧
           App.d_columns (App.n_data n') = Some cs ∧
           existsb primaryKey cs = true.
Proof.
  intros Hin Hid Hne. unfold App.handleAddConstraint.
  assert (Nat.ltb 0 (List.length (columns t)) = true) as ->.
  { destruct (columns t); [done|reflexivity]. }
  simpl. eexists _, _. split.
  - apply in_map_iff. exists n. split; [|done].
    rewrite Hid, String.eqb_refl. reflexivity.
  - simpl. split_and!; [done|done|]. by apply markFirstPrimary_has_key.
Qed.

(** C9.  In LOGICAL mode the validation issues of kind [no_primary_key]
    are, in table order, exactly one per table without a primaryKey column:
    severity high, with the action that calls [onAddConstraint] on that
    table with ['PRIMARY_KEY'].  A table with a primaryKey column gets none,
    and no recommendation has that kind. *)
Theorem no_primary_key_issues lower ts es rs crs :
  ∃ found,
    List.filter is_no_primary_key
      (snd (analyzeSchema lower ts es rs crs LOGICAL)) = found ∧
    Forall2 noPKIssueOf (List.filter lacksPrimaryKey ts) found ∧
    List.filter is_no_primary_key
      (fst (analyzeSchema lower ts es rs crs LOGICAL)) = [].
Proof.
  exists (List.concat (map noPKFinding ts)).
  destruct (noPK_findings ts) as [H1 H2].
  unfold analyzeSchema. simpl. split_and!.
  - rewrite List.filter_app, H1.
    rewrite (filter_concat_nil _ (dupColFinding lower)).
    + by rewrite app_nil_r.
    + intros t. unfold dupColFinding. by destruct (Nat.ltb _ _).
  - done.
  - rewrite !List.filter_app.
    rewrite (filter_concat_nil _ (nmFinding ts)),
            (filter_concat_nil _ (indexFinding ts)),
            (filter_concat_nil _ textLenFinding); [done|..];
      intros x; unfold textLenFinding, indexFinding, nmFinding;
      repeat case_match; done.
Qed.

End Advisory.

(** ** C8: the pass on the store *)

Section StoreRefinement.
Import Store.

Lemma absTable_weaken (h h' : gmap nat obj) t T :
  h ⊆ h' → absTable h t = Some T → absTable h' t = Some T.
Proof.
  intros Hsub. unfold absTable.
  destruct (h !! t) as [[| id name cols x y | | |]|] eqn:Ht; try done.
  destruct (h !! cols) as [[cs| | | |]|] eqn:Hc; try done.
  intros [= <-].
  by rewrite (lookup_weaken _ _ _ _ Ht Hsub), (lookup_weaken _ _ _ _ Hc Hsub).
Qed.

Lemma absTables_Forall2 (h : gmap nat obj) l ts :
  absTables h l = Some ts ↔
  ∃ arr, h !! l = Some (OTables arr) ∧
         Forall2 (λ t T, absTable h t = Some T) arr ts.
Proof.
  unfold absTables. split.
  - destruct (h !! l) as [[| |arr| |]|]; try done.
    intros H. exists arr. split; [done|]. by apply mapM_Some.
  - intros (arr & -> & H). by apply mapM_Some.
Qed.

Lemma Forall2_absTable_weaken (h h' : gmap nat obj) arr ts :
  h ⊆ h' →
  Forall2 (λ t T, absTable h t = Some T) arr ts →
  Forall2 (λ t T, absTable h' t = Some T) arr ts.
Proof.
  intros Hsub H. eapply Forall2_impl; [exact H|].
  intros t T. by apply absTable_weaken.
Qed.

Lemma absSchema_weaken (h h' : gmap nat obj) l S :
  h ⊆ h' → absSchema h l = Some S → absSchema h' l = Some S.
Proof.
  intros Hsub. unfold absSchema.
  destruct (h !! l) as [[| | | |tbls rels]|] eqn:Hl; try done.
  destruct (absTables h tbls) as [ts|] eqn:Hts; [|done].
  destruct (h !! rels) as [[| | |rs|]|] eqn:Hr; try done.
  intros [= <-].
  rewrite (lookup_weaken _ _ _ _ Hl Hsub), (lookup_weaken _ _ _ _ Hr Hsub).
  apply absTables_Forall2 in Hts as (arr & Harr & HF).
  assert (absTables h' tbls = Some ts) as ->; [|done].
  apply absTables_Forall2. exists arr.
  split; [by eapply lookup_weaken|by eapply Forall2_absTable_weaken].
Qed.

(** A write that replaces one [Table[]] array by another changes what no
    table reference denotes. *)
Lemma absTable_store_tables (h : gmap nat obj) l arr arr' t :
  h !! l = Some (OTables arr) →
  absTable (<[l := OTables arr']> h) t = absTable h t.
Proof.
  intros Hl. unfold absTable.
  destruct (decide (t = l)) as [->|Hne].
  { by rewrite lookup_insert_eq, Hl. }
  rewrite lookup_insert_ne by done.
  destruct (h !! t) as [[| id name cols x y | | |]|]; try done.
  destruct (decide (cols = l)) as [->|Hne'].
  { by rewrite lookup_insert_eq, Hl. }
  by rewrite lookup_insert_ne.
Qed.

Lemma alloc_spec (h : gmap nat obj) o :
  ∃ l, alloc o h = Some (l, <[l := o]> h) ∧ h !! l = None.
Proof.
  exists (fresh (dom h)). split; [done|].
  apply not_elem_of_dom, is_fresh.
Qed.

Lemma loadTable_spec (h : gmap nat obj) t T :
  absTable h t = Some T →
  ∃ cols, loadTable t h
          = Some ((t_id T, t_name T, cols, t_x T, t_y T), h) ∧
          h !! cols = Some (OColumns (columns T)).
Proof.
  unfold absTable, loadTable.
  destruct (h !! t) as [[| id name cols x y | | |]|]; try done.
  destruct (h !! cols) as [[cs| | | |]|] eqn:Hc; try done.
  intros [= <-]. exists cols. by rewrite Hc.
Qed.

Lemma idOf_spec (h : gmap nat obj) t T :
  absTable h t = Some T → idOf t h = Some (t_id T, h).
Proof.
  intros H. destruct (loadTable_spec _ _ _ H) as (cols & Hl & _).
  unfold idOf, bind. by rewrite Hl.
Qed.

Lemma columnsOf_spec (h : gmap nat obj) t T :
  absTable h t = Some T → columnsOf t h = Some (columns T, h).
Proof.
  intros H. destruct (loadTable_spec _ _ _ H) as (cols & Hl & Hc).
  unfold columnsOf, bind, loadColumns. by rewrite Hl, Hc.
Qed.

Lemma findTableH_spec (h : gmap nat obj) arr ts id :
  Forall2 (λ t T, absTable h t = Some T) arr ts →
  ∃ r, findTableH arr id h = Some (r, h) ∧
       match r with
       | Some t => ∃ T, absTable h t = Some T ∧
                        SQLGenerator.findTable ts id = Some T
       | None => SQLGenerator.findTable ts id = None
       end.
Proof.
  unfold SQLGenerator.findTable.
  induction 1 as [|t T arr ts HT _ (r & Hr & IH)]; simpl.
  - by exists None.
  - unfold bind. rewrite (idOf_spec _ _ _ HT).
    destruct (String.eqb (t_id T) id).
    + exists (Some t). split; [done|]. eauto.
    + exists r. by split.
Qed.

Lemma findIndexH_spec (h : gmap nat obj) arr ts id :
  Forall2 (λ t T, absTable h t = Some T) arr ts →
  findIndexH arr id h
  = Some (findIndex (λ t, String.eqb (t_id t) id) ts, h).
Proof.
  induction 1 as [|t T arr ts HT _ IH]; simpl; [done|].
  unfold bind. rewrite (idOf_spec _ _ _ HT).
  destruct (String.eqb (t_id T) id); [done|]. by rewrite IH.
Qed.

(** Allocating a column array and a table object over it. *)
Lemma alloc_table (h : gmap nat obj) id name cs x y :
  ∃ cols t,
    alloc (OColumns cs) h = Some (cols, <[cols := OColumns cs]> h) ∧
    alloc (OTable id name cols x y) (<[cols := OColumns cs]> h)
    = Some (t, <[t := OTable id name cols x y]> (<[cols := OColumns cs]> h)) ∧
    h !! cols = None ∧ h !! t = None ∧ t ≠ cols ∧
    h ⊆ <[t := OTable id name cols x y]> (<[cols := OColumns cs]> h) ∧
    absTable (<[t := OTable id name cols x y]> (<[cols := OColumns cs]> h)) t
    = Some {| t_id := id; t_name := name; columns := cs;
              t_x := x; t_y := y |}.
Proof.
  destruct (alloc_spec h (OColumns cs)) as (cols & Ha1 & Hc).
  destruct (alloc_spec (<[cols := OColumns cs]> h) (OTable id name cols x y))
    as (t & Ha2 & Ht).
  assert (t ≠ cols) as Hne.
  { intros ->. by rewrite lookup_insert_eq in Ht. }
  rewrite lookup_insert_ne in Ht by done.
  exists cols, t. split_and!; try done.
  - trans (<[cols := OColumns cs]> h); apply insert_subseteq;
      [done|by rewrite lookup_insert_ne].
  - unfold absTable. rewrite lookup_insert_eq.
    rewrite lookup_insert_ne by done. by rewrite lookup_insert_eq.
Qed.

Lemma copyTable_spec (h : gmap nat obj) t T :
  absTable h t = Some T →
  ∃ t' h', copyTable t h = Some (t', h') ∧ h ⊆ h' ∧
           absTable h' t' = Some T.
Proof.
  intros H. destruct (loadTable_spec _ _ _ H) as (cols & Hl & Hc).
  destruct (alloc_table h (t_id T) (t_name T) (columns T) (t_x T) (t_y T))
    as (cols' & t' & Ha1 & Ha2 & _ & _ & _ & Hsub & Habs).
  exists t', (<[t' := OTable (t_id T) (t_name T) cols' (t_x T) (t_y T)]>
               (<[cols' := OColumns (columns T)]> h)).
  split_and!; [|done|by destruct T].
  unfold copyTable, bind, loadColumns. by rewrite Hl, Hc, Ha1, Ha2.
Qed.

Lemma mapH_copyTable_spec (h : gmap nat obj) arr ts :
  Forall2 (λ t T, absTable h t = Some T) arr ts →
  ∃ arr' h', mapH copyTable arr h = Some (arr', h') ∧ h ⊆ h' ∧
             Forall2 (λ t T, absTable h' t = Some T) arr' ts.
Proof.
  intros H. revert h ts H.
  induction arr as [|t arr IH]; intros h ts H;
    inversion H as [|? T ? ts' HT HF]; subst; simpl.
  - exists [], h. by split_and!.
  - destruct (copyTable_spec _ _ _ HT) as (t' & h1 & Hc & Hs1 & Ht').
    destruct (IH h1 ts' (Forall2_absTable_weaken _ _ _ _ Hs1 HF))
      as (arr' & h2 & Hm & Hs2 & HF').
    exists (t' :: arr'), h2. unfold bind. rewrite Hc, Hm. split_and!.
    + done.
    + by etrans.
    + constructor; [by eapply absTable_weaken|done].
Qed.

(** One iteration on the store does what [fkStep] does on the array the
    local variable denotes, and writes to no object of the caller. *)
Lemma fkStepH_spec (h0 h : gmap nat obj) tablesL ts r :
  h0 ⊆ h → h0 !! tablesL = None → absTables h tablesL = Some ts →
  ∃ h' ts', fkStepH tablesL r h = Some (tt, h') ∧ h0 ⊆ h' ∧
            SQLGenerator.fkStep ts r = Some ts' ∧
            absTables h' tablesL = Some ts'.
Proof.
  intros Hsub Hfresh Habs.
  pose proof Habs as Habs0.
  apply absTables_Forall2 in Habs as (arr & Harr & HF).
  assert (Hskip : ∃ h' ts', ret tt h = Some (tt, h') ∧ h0 ⊆ h' ∧
                            Some ts = Some ts' ∧
                            absTables h' tablesL = Some ts').
  { by exists h, ts. }
  unfold fkStepH, SQLGenerator.fkStep.
  unfold bind at 1. unfold loadTables at 1. rewrite Harr.
  destruct (findTableH_spec h arr ts (sourceTableId r) HF) as (rs & Hrs & Hs).
  unfold bind at 1. rewrite Hrs.
  destruct (findTableH_spec h arr ts (targetTableId r) HF) as (rt & Hrt & Ht).
  unfold bind at 1. rewrite Hrt.
  destruct rs as [st|]; [destruct Hs as (ST & HST & ->)|by rewrite Hs].
  destruct rt as [tt'|]; [destruct Ht as (TT & HTT & ->)|by rewrite Ht].
  unfold bind at 1. rewrite (columnsOf_spec _ _ _ HST).
  unfold bind at 1. rewrite (columnsOf_spec _ _ _ HTT).
  unfold SQLGenerator.findColumn, SQLGenerator.findPK.
  destruct (List.find _ (columns ST)); [|done].
  destruct (List.find _ (columns TT)); [|done].
  destruct (is_N_M (cardinality r)); [done|].
  destruct (List.find primaryKey (columns ST)) as [sp|]; [|done].
  destruct (List.find primaryKey (columns TT)) as [tp|]; [|done].
  destruct (SQLGenerator.fkSide r sp tp) as [[[d n] pk]|]; [|done].
  destruct (findTableH_spec h arr ts d HF) as (re & Hre & He).
  unfold bind at 1. rewrite Hre.
  destruct re as [et|]; [destruct He as (ET & HET & ->)|by rewrite He].
  unfold bind at 1. rewrite (columnsOf_spec _ _ _ HET).
  destruct (existsb _ (columns ET)); [done|].
  unfold bind at 1. rewrite (findIndexH_spec _ _ _ _ HF).
  destruct (findIndex _ ts) as [i|] eqn:Hi; [|done].
  destruct (findIndex_Some _ _ _ Hi) as (T & HTi & _).
  destruct (Forall2_lookup_r _ _ _ _ _ HF HTi) as (tl & Htl & HT).
  rewrite Htl, HTi. simpl.
  destruct (loadTable_spec _ _ _ HT) as (cols & Hl & Hc).
  unfold bind at 1. rewrite Hl.
  unfold bind at 1. unfold loadColumns at 1. rewrite Hc.
  set (fkc := SQLGenerator.fkColumn r d n pk).
  destruct (alloc_table h (t_id T) (t_name T) (columns T ++ [fkc])
              (t_x T) (t_y T))
    as (cols' & t' & Ha1 & Ha2 & Hc' & Ht' & Hne & Hsub' & Habs').
  unfold bind at 1. rewrite Ha1. unfold bind at 1. rewrite Ha2.
  set (h2 := <[t' := OTable (t_id T) (t_name T) cols' (t_x T) (t_y T)]>
               (<[cols' := OColumns (columns T ++ [fkc])]> h)) in *.
  assert (Hh2 : h2 !! tablesL = Some (OTables arr)).
  { by eapply lookup_weaken. }
  unfold store. rewrite Hh2.
  eexists _, _. split_and!; [done| |done|].
  - apply insert_subseteq_r; [done|]. by etrans.
  - apply absTables_Forall2. exists (<[i := t']> arr).
    split; [by rewrite lookup_insert_eq|].
    apply Forall2_insert.
    + eapply Forall2_impl; [exact HF|]. intros x X HX.
      rewrite (absTable_store_tables _ _ arr) by done.
      by eapply absTable_weaken.
    + by rewrite (absTable_store_tables _ _ arr).
Qed.

Lemma forH_fkStepH_spec (h0 h : gmap nat obj) tablesL rs ts :
  h0 ⊆ h → h0 !! tablesL = None → absTables h tablesL = Some ts →
  ∃ h' ts', forH (fkStepH tablesL) rs h = Some (tt, h') ∧ h0 ⊆ h' ∧
            SQLGenerator.fkLoop rs ts = Some ts' ∧
            absTables h' tablesL = Some ts'.
Proof.
  revert h ts. induction rs as [|r rs IH]; intros h ts Hsub Hfresh Habs; simpl.
  - by exists h, ts.
  - destruct (fkStepH_spec h0 h tablesL ts r Hsub Hfresh Habs)
      as (h1 & ts1 & Hstep & Hsub1 & Hpure & Habs1).
    destruct (IH h1 ts1 Hsub1 Hfresh Habs1) as (h2 & ts2 & Hl & ? & ? & ?).
    exists h2, ts2. unfold bind. rewrite Hstep, Hpure. by split_and!.
Qed.

Lemma addForeignKeyFieldsH_spec (h : gmap nat obj) l S :
  absSchema h l = Some S →
  ∃ l' h' S',
    addForeignKeyFieldsH l h = Some (l', h') ∧
    h ⊆ h' ∧ h !! l' = None ∧
    SQLGenerator.addForeignKeyFields S = Some S' ∧
    absSchema h' l' = Some S'.
Proof.
  intros Habs. unfold absSchema in Habs.
  destruct (h !! l) as [[| | | |tbls rels]|] eqn:Hl; try done.
  destruct (absTables h tbls) as [ts|] eqn:Hts; [|done].
  destruct (h !! rels) as [[| | |rs|]|] eqn:Hr; try done.
  injection Habs as <-.
  apply absTables_Forall2 in Hts as (arr & Harr & HF).
  destruct (mapH_copyTable_spec h arr ts HF) as (arr' & h1 & Hm & Hs1 & HF1).
  destruct (alloc_spec h1 (OTables arr')) as (tablesL & Ha & Hfresh1).
  set (h2 := <[tablesL := OTables arr']> h1) in *.
  assert (Hs2 : h1 ⊆ h2) by (by apply insert_subseteq).
  assert (Hfresh : h !! tablesL = None).
  { destruct (h !! tablesL) eqn:E; [|done].
    by rewrite (lookup_weaken _ _ _ _ E Hs1) in Hfresh1. }
  assert (Habs2 : absTables h2 tablesL = Some ts).
  { apply absTables_Forall2. exists arr'.
    split; [by apply lookup_insert_eq|].
    by eapply Forall2_absTable_weaken. }
  destruct (forH_fkStepH_spec h h2 tablesL rs ts) as
    (h3 & ts' & Hloop & Hs3 & Hpure & Habs3); [by etrans|done|done|].
  destruct (alloc_spec h3 (OSchema tablesL rels)) as (l' & Ha' & Hfresh').
  exists l', (<[l' := OSchema tablesL rels]> h3),
    {| tables := ts'; relationships := rs |}.
  split_and!.
  - unfold addForeignKeyFieldsH, bind, loadSchema, loadTables,
      loadRelationships.
    rewrite Hl, Harr, Hm, Ha.
    rewrite (lookup_weaken _ _ _ _ Hr (transitivity Hs1 Hs2)).
    by rewrite Hloop, Ha'.
  - etrans; [exact Hs3|by apply insert_subseteq].
  - destruct (h !! l') eqn:E; [|done].
    by rewrite (lookup_weaken _ _ _ _ E Hs3) in Hfresh'.
  - unfold SQLGenerator.addForeignKeyFields. simpl.
    by rewrite map_with_columns_id, Hpure.
  - assert (Hs4 : h3 ⊆ <[l' := OSchema tablesL rels]> h3)
      by (by apply insert_subseteq).
    unfold absSchema. rewrite lookup_insert_eq.
    apply absTables_Forall2 in Habs3 as (arr3 & Harr3 & HF3).
    assert (absTables (<[l' := OSchema tablesL rels]> h3) tablesL = Some ts')
      as ->.
    { apply absTables_Forall2. exists arr3.
      split; [by eapply lookup_weaken|by eapply Forall2_absTable_weaken]. }
    by rewrite (lookup_weaken _ _ _ _ Hr (transitivity Hs3 Hs4)).
Qed.

End StoreRefinement.

(** *** What the pass changes in the value it returns *)

(** A table for which the rule dictates no column comes back as it was. *)
Lemma resolvedFrom_untouched ts rs t t' :
  resolvedFrom ts rs t t' →
  (∀ r referenced, In r rs → ruleDestination ts r ≠ Some (t, referenced)) →
  t' = t.
Proof.
  intros (E1&E2&E3&E4&added&Hcols&Hd&_) Hno.
  destruct added as [|c added].
  - rewrite app_nil_r in Hcols. destruct t, t'; simpl in *. by subst.
  - apply Forall_cons in Hd as [(r & ref & Hin & Hrule & _) _].
    by destruct (Hno r ref Hin).
Qed.

Lemma totalColumns_insert ts i t c :
  ts !! i = Some t →
  totalColumns (<[i := with_columns t (columns t ++ [c])]> ts)
  = S (totalColumns ts).
Proof.
  unfold totalColumns, columnCounts.
  revert i. induction ts as [|a ts IH]; intros [|i]; simpl; try done.
  - intros [= ->]. rewrite length_app. simpl. lia.
  - intros H. rewrite (IH _ H). lia.
Qed.

Lemma fkStep_totalColumns ts r ts' :
  fkStep ts r = Some ts' → (totalColumns ts' ≤ S (totalColumns ts))%nat.
Proof.
  destruct (fkStep_cases ts r)
    as [H|(d&n&pk&et&j&_&_&_&_&_&Hj&H)]; rewrite H; intros [= <-]; [lia|].
  by rewrite totalColumns_insert.
Qed.

Lemma fkLoop_totalColumns rs ts ts' :
  fkLoop rs ts = Some ts' →
  (totalColumns ts' ≤ totalColumns ts + List.length rs)%nat.
Proof.
  revert ts. induction rs as [|r rs IH]; intros ts; simpl.
  - intros [= <-]. lia.
  - destruct (fkStep ts r) as [ts1|] eqn:H1; simpl; [|done].
    intros Hl. apply IH in Hl. apply fkStep_totalColumns in H1. lia.
Qed.

(** C8.  Run on a store in which [l] denotes the schema [S], the pass
    returns a reference to a new object; every object of the store before
    the call is still there with the same content, so [l] still denotes
    [S]; the returned object denotes the schema [addForeignKeyFields]
    computes, whose relationships are those of [S] and whose tables are
    those of [S], in order, with the same id, name and position and the
    same columns in the same order, followed by the added ones, each the
    FK column the rule dictates for a relationship with that table as
    destination; at most one column is added per relationship; and a
    table that is the destination of no relationship is returned as it
    was. *)
Theorem addForeignKeyFields_frame (h : gmap nat Store.obj) l S :
  Store.absSchema h l = Some S →
  ∃ l' h' S',
    Store.addForeignKeyFieldsH l h = Some (l', h') ∧
    (∀ k o, h !! k = Some o → h' !! k = Some o) ∧
    Store.absSchema h' l = Some S ∧
    h !! l' = None ∧
    Store.absSchema h' l' = Some S' ∧
    addForeignKeyFields S = Some S' ∧
    relationships S' = relationships S ∧
    extends (tables S) (tables S') ∧
    Forall2 (resolvedFrom (tables S) (relationships S))
            (tables S) (tables S') ∧
    (totalColumns (tables S')
       ≤ totalColumns (tables S) + List.length (relationships S))%nat ∧
    (∀ i t, tables S !! i = Some t →
            (∀ r referenced,
               In r (relationships S) →
               ruleDestination (tables S) r ≠ Some (t, referenced)) →
            tables S' !! i = Some t).
Proof.
  intros Habs.
  destruct (addForeignKeyFieldsH_spec h l S Habs)
    as (l' & h' & S' & Hrun & Hsub & Hfresh & Hpure & Habs').
  exists l', h', S'.
  pose proof Hpure as Hloop.
  apply addForeignKeyFields_fkLoop in Hloop as (ts & Hloop & ->). simpl.
  pose proof (pass_resolvedFrom _ _ _ Hloop) as Hall.
  split_and!; try done.
  - intros k o Hk. by eapply lookup_weaken.
  - by eapply absSchema_weaken.
  - by eapply fkLoop_extends.
  - by eapply fkLoop_totalColumns.
  - intros i t Hi Hr.
    destruct (Forall2_lookup_l _ _ _ _ _ Hall Hi) as (t' & Hi' & Hres).
    by rewrite Hi', (resolvedFrom_untouched _ _ _ _ Hres Hr).
Qed.

Lemma addForeignKeyFields_frame_witness :
  ∃ l' h' S',
    Store.addForeignKeyFieldsH 6 authorBookStore = Some (l', h') ∧
    (∀ k o, authorBookStore !! k = Some o → h' !! k = Some o) ∧
    Store.absSchema h' 6 = Some authorBookSchema ∧
    authorBookStore !! l' = None ∧
    Store.absSchema h' l' = Some S' ∧
    addForeignKeyFields authorBookSchema = Some S' ∧
    relationships S' = relationships authorBookSchema ∧
    extends (tables authorBookSchema) (tables S') ∧
    (totalColumns (tables S')
       ≤ totalColumns (tables authorBookSchema)
         + List.length (relationships authorBookSchema))%nat ∧
    tables S' !! 0%nat
    = Some (mkTable "A" "Author" [mkColumn "a1" "author_id" INTEGER true]).
Proof.
  destruct (addForeignKeyFields_frame authorBookStore 6 authorBookSchema)
    as (l' & h' & S' & H1 & H2 & H3 & H4 & H5 & H6 & H7 & H8 & _ & H9 & H10).
  { vm_compute. reflexivity. }
  exists l', h', S'. split_and!; try done.
  apply H10; [reflexivity|].
  intros r referenced [<-|[]]. vm_compute. discriminate.
Defined.

(** * Further properties of the generator *)


(** * Further properties of the generator *)

(** ** The resolver and N:M relationships *)

Lemma fkStep_N_M ts r : is_N_M (cardinality r) = true → fkStep ts r = Some ts.
Proof.
  intros H. rewrite fkStep_unfold. unfold placement. rewrite H.
  destruct (idsResolve ts r); [|done].
  by destruct (findTable ts (sourceTableId r)), (findTable ts (targetTableId r)).
Qed.

Lemma fkLoop_filter_N_M rs ts :
  fkLoop (List.filter (λ rel, negb (is_N_M (cardinality rel))) rs) ts
  = fkLoop rs ts.
Proof.
  revert ts. induction rs as [|r rs IH]; intros ts; simpl; [done|].
  destruct (is_N_M (cardinality r)) eqn:H; simpl.
  - rewrite (fkStep_N_M _ _ H). simpl. apply IH.
  - destruct (fkStep ts r); simpl; [apply IH|done].
Qed.

(** X1.  [addForeignKeyFields] takes no notice of N:M relationships: the
    tables it returns for a schema are the tables it returns when the N:M
    relationships are filtered out first, as [generate] does. *)
Theorem addForeignKeyFields_ignores_N_M S :
  ∃ ts,
    addForeignKeyFields S
    = Some {| tables := ts; relationships := relationships S |} ∧
    addForeignKeyFields {| tables := tables S; relationships := nonMN S |}
    = Some {| tables := ts; relationships := nonMN S |}.
Proof.
  destruct (addForeignKeyFields_total S) as [S1 H1].
  apply addForeignKeyFields_fkLoop in H1 as (ts & Hl & ->).
  exists ts. split.
  - apply addForeignKeyFields_fkLoop. eauto.
  - apply addForeignKeyFields_fkLoop. exists ts. split; [|done]. simpl.
    unfold nonMN. by rewrite fkLoop_filter_N_M.
Qed.

(** ** Column names and keys under resolution *)

Lemma hasColumnNamed_false t n :
  hasColumnNamed t n = false → n ∉ map c_name (columns t).
Proof.
  unfold hasColumnNamed. intros H Hin.
  apply list_elem_of_In, in_map_iff in Hin as (c & <- & Hc).
  assert (existsb (λ c0, String.eqb (c_name c0) (c_name c)) (columns t) = true)
    as Hex; [|by rewrite Hex in H].
  apply existsb_exists. exists c. split; [done|apply String.eqb_refl].
Qed.

Lemma fkStep_distinctNames ts r ts' :
  fkStep ts r = Some ts' → Forall distinctNames ts → Forall distinctNames ts'.
Proof.
  destruct (fkStep_cases ts r)
    as [H|(d & n & pk & et & i & _ & _ & _ & Hex & _ & Hi & H)];
    rewrite H; intros [= <-] HF; [done|].
  apply Forall_insert; [done|].
  unfold distinctNames. simpl. rewrite map_app. simpl.
  apply NoDup_app. split_and!.
  - by eapply (Forall_lookup_1 distinctNames).
  - intros x Hx Hx'. apply list_elem_of_singleton in Hx' as ->.
    by eapply hasColumnNamed_false.
  - apply NoDup_singleton.
Qed.

(** X2.  Resolution keeps column names distinct: when in every table of
    the schema the column names are pairwise distinct, the same holds in
    every table [addForeignKeyFields] returns. *)
Theorem addForeignKeyFields_keeps_names_distinct S S' :
  Forall distinctNames (tables S) →
  addForeignKeyFields S = Some S' →
  Forall distinctNames (tables S').
Proof.
  intros HF H. apply addForeignKeyFields_fkLoop in H as (ts & Hl & ->). simpl.
  revert Hl HF. generalize (tables S).
  induction (relationships S) as [|r rs IH]; intros ts0; simpl.
  - by intros [= <-].
  - destruct (fkStep ts0 r) as [ts1|] eqn:H1; simpl; [|done].
    intros Hl HF. apply (IH ts1 Hl). by eapply fkStep_distinctNames.
Qed.

Lemma addForeignKeyFields_keeps_names_distinct_witness :
  ∃ S', addForeignKeyFields authorBookSchema = Some S' ∧
        Forall distinctNames (tables S').
Proof.
  eexists. split; [reflexivity|].
  apply (addForeignKeyFields_keeps_names_distinct authorBookSchema).
  - constructor; [apply NoDup_singleton|].
    constructor; [apply NoDup_singleton|constructor].
  - reflexivity.
Defined.

Lemma filter_app_none {A} (p : A → bool) l1 l2 :
  Forall (λ x, p x = false) l2 → List.filter p (l1 ++ l2) = List.filter p l1.
Proof.
  intros H. rewrite List.filter_app.
  assert (List.filter p l2 = []) as ->; [|by rewrite app_nil_r].
  induction H as [|x l Hx _ IH]; simpl; [done|]. by rewrite Hx.
Qed.

(** X3.  Resolution never touches a primary key: table for table, the
    columns flagged primaryKey after the pass are those before it, in the
    same order, so the first of them, which every later step takes as the
    key, is the same, and every column the pass adds is not a key. *)
Theorem addForeignKeyFields_keeps_primary_keys S S' :
  addForeignKeyFields S = Some S' →
  Forall2 (λ t t',
             List.filter primaryKey (columns t')
             = List.filter primaryKey (columns t) ∧
             findPK t' = findPK t ∧
             ∃ added, columns t' = columns t ++ added ∧
                      Forall (λ c, primaryKey c = false) added)
          (tables S) (tables S').
Proof.
  intros H. apply addForeignKeyFields_fkLoop in H as (ts & Hl & ->). simpl.
  apply fkLoop_extends in Hl.
  eapply Forall2_impl; [exact Hl|]. intros t t' G.
  split_and!.
  - destruct G as (_&_&_&_&a&->&Ha). by apply filter_app_none.
  - by apply findPK_grows.
  - by destruct G as (_&_&_&_&G).
Qed.

Lemma addForeignKeyFields_keeps_primary_keys_witness :
  ∃ S', addForeignKeyFields authorBookSchema = Some S' ∧
        Forall2 (λ t t', List.filter primaryKey (columns t')
                         = List.filter primaryKey (columns t))
                (tables authorBookSchema) (tables S').
Proof.
  eexists. split; [reflexivity|].
  eapply Forall2_impl;
    [exact (addForeignKeyFields_keeps_primary_keys authorBookSchema _ eq_refl)|].
  by intros t t' [H _].
Defined.

(** ** ALTER TABLE and the columns of the resolved tables *)

Lemma alter_text_of_placement ts r d n pk :
  placement ts r = Some (d, n, pk) →
  ∃ ft name rest,
    findTable ts d = Some ft ∧
    generateForeignKeyConstraint r ts
    = "ALTER TABLE [" +:+ t_name ft +:+ "]" +:+ nl
      +:+ "    ADD CONSTRAINT [" +:+ name +:+ "] FOREIGN KEY (["
      +:+ n +:+ "])" +:+ rest.
Proof.
  intros Hp.
  destruct (placement_inv _ _ _ _ _ Hp)
    as (st & tt & sp & tp & Hs & Ht & Hsp & Htp & Hside).
  unfold generateForeignKeyConstraint, constraintSide.
  rewrite Hs, Ht, Hsp, Htp. revert Hside. unfold fkSide.
  destruct (cardinality r), (targetOptional r), (sourceOptional r);
    try done; intros [= <- <- <-]; simpl;
    destruct (negb (is_NO_ACTION (onDelete r))),
             (negb (is_NO_ACTION (onUpdate r)));
    first
      [ exists tt, ("FK_" +:+ t_name tt +:+ "_" +:+ t_name tt); eexists;
        split; [exact Ht|]; rewrite !append_assoc; reflexivity
      | exists st, ("FK_" +:+ t_name st +:+ "_" +:+ t_name tt); eexists;
        split; [exact Hs|]; rewrite !append_assoc; reflexivity ].
Qed.

(** X4.  When the column ids a non-N:M relationship declares resolve in
    the schema, an ALTER TABLE emitted for it is sound: it alters a table
    of the resolved schema that does have the FOREIGN KEY column it
    names. *)
Theorem alter_names_existing_column S r :
  In r (nonMN S) →
  idsResolve (tables S) r = true →
  truthy (alterStatement S r) = true →
  ∃ ft n name rest,
    In ft (resolvedTables S) ∧ hasColumnNamed ft n = true ∧
    alterStatement S r
    = "ALTER TABLE [" +:+ t_name ft +:+ "]" +:+ nl
      +:+ "    ADD CONSTRAINT [" +:+ name +:+ "] FOREIGN KEY (["
      +:+ n +:+ "])" +:+ rest.
Proof.
  intros Hin Hids Htr. unfold alterStatement in *.
  pose proof (resolvedTables_eq S) as Hres.
  apply addForeignKeyFields_fkLoop in Hres as (ts1 & Hl & Heq).
  injection Heq as Heq. simpl in Hl. rewrite Heq in *. clear Heq.
  apply alter_emitted_iff_placement in Htr as [[[d n] pk] Hp].
  destruct (loop_settles _ _ _ _ Hl Hin) as (tsk & tsk' & E0 & Hs & E1).
  pose proof (fkStep_extends _ _ _ Hs) as Ek.
  assert (Hpk : placement tsk r = Some (d, n, pk)).
  { rewrite <- Hp. symmetry. apply placement_extends. by eapply extends_trans. }
  destruct (step_ensures_name _ _ _ _ _ _
              (idsResolve_extends _ _ _ E0 Hids) Hpk Hs) as (et' & Het' & Hn).
  pose proof (findTable_extends _ _ d E1) as Hf. rewrite Het' in Hf.
  destruct Hf as (ft & Hft & G).
  destruct (alter_text_of_placement _ _ _ _ _ Hp)
    as (ft' & name & rest & Hft' & Htxt).
  rewrite Hft in Hft'. injection Hft' as <-.
  exists ft, n, name, rest. split_and!; [|by eapply hasName_grows|done].
  by apply (find_some _ _ Hft).
Qed.

Lemma alter_names_existing_column_witness :
  ∃ ft n name rest,
    In ft (resolvedTables authorBookSchema) ∧ hasColumnNamed ft n = true ∧
    alterStatement authorBookSchema
      (mkRel "r1" "A" "a1" "B" "b1" Card_1_N false false)
    = "ALTER TABLE [" +:+ t_name ft +:+ "]" +:+ nl
      +:+ "    ADD CONSTRAINT [" +:+ name +:+ "] FOREIGN KEY (["
      +:+ n +:+ "])" +:+ rest.
Proof.
  exact (alter_names_existing_column authorBookSchema
           (mkRel "r1" "A" "a1" "B" "b1" Card_1_N false false)
           (or_introl eq_refl) eq_refl eq_refl).
Defined.

(** ** The type map *)

(** X5.  Every declared data type has an entry of its own in the type
    map, so the fallback is never used for one; the SQL type it gets is
    the one the fixed table of the specification gives; and two different
    declared types never get the same SQL type. *)
Theorem mapDataType_declared_types :
  (∀ t, In (DataType_str t, mapDataType t) typeMap) ∧
  (∀ t, mapDataType t = sqlTypeName t) ∧
  (∀ t1 t2, mapDataType t1 = mapDataType t2 → t1 = t2).
Proof.
  split_and!.
  - intros t. destruct t; vm_compute; tauto.
  - apply mapDataType_sqlTypeName.
  - intros t1 t2. by destruct t1, t2.
Qed.

(** ** Duplicate column names in the advisory analysis *)

Lemma findIndex_first {A} (p : A → bool) l i x :
  l !! i = Some x → p x = true →
  ∃ f, findIndex p l = Some f ∧ (f ≤ i)%nat.
Proof.
  revert i. induction l as [|a l IH]; intros i; simpl; [done|].
  destruct (p a) eqn:Hp; [intros; exists 0; split; [done|lia]|].
  destruct i as [|i]; simpl.
  - intros [= ->] Hx. congruence.
  - intros Hl Hx. destruct (IH i Hl Hx) as (f & -> & Hf).
    exists (S f). split; [done|lia].
Qed.

Lemma duplicateNames_nil l :
  RecommendationPanel.duplicateNames l = [] ↔ NoDup l.
Proof.
  unfold RecommendationPanel.duplicateNames. split.
  - intros Hnil. apply NoDup_alt.
    assert (Hfirst : ∀ i x, l !! i = Some x →
                            findIndex (String.eqb x) l = Some i).
    { intros i x Hi.
      destruct (findIndex_first (String.eqb x) l i x Hi (String.eqb_refl x))
        as (f & Hf & _).
      destruct (decide (f = i)) as [->|Hne]; [done|].
      assert (x ∈ @nil string) as Hin; [|by apply not_elem_of_nil in Hin].
      rewrite <- Hnil. apply list_elem_of_omap. exists (i, x). split.
      - apply elem_of_lookup_imap. eauto.
      - simpl. rewrite Hf. by apply Nat.eqb_neq in Hne as ->. }
    intros i j x Hi Hj.
    apply Hfirst in Hi, Hj. congruence.
  - intros Hnd.
    destruct (omap _ _) as [|y rest] eqn:E; [done|].
    assert (Hy : y ∈ y :: rest) by apply list_elem_of_here.
    rewrite <- E in Hy.
    apply list_elem_of_omap in Hy as ([i x] & Hix & Hf).
    apply elem_of_lookup_imap in Hix as (i' & x' & [= -> ->] & Hi).
    destruct (findIndex_first (String.eqb x') l i' x' Hi (String.eqb_refl x'))
      as (f & Hfi & _).
    destruct (findIndex_Some _ _ _ Hfi) as (z & Hz & Hpz & _).
    apply String.eqb_eq in Hpz as <-.
    rewrite (NoDup_lookup _ _ _ _ Hnd Hz Hi) in Hfi.
    simpl in Hf. rewrite Hfi, Nat.eqb_refl in Hf. done.
Qed.

(** X6.  Check 3 of the analysis reports a table exactly when two of its
    columns have the same name up to case: [dupColFinding] returns
    nothing if and only if the lower-cased column names are pairwise
    distinct, and otherwise exactly one issue, of kind
    [duplicate_columns]. *)
Theorem duplicate_columns_reported lower t :
  (RecommendationPanel.dupColFinding lower t = [] ↔
   NoDup (map (λ c, lower (c_name c)) (columns t))) ∧
  (¬ NoDup (map (λ c, lower (c_name c)) (columns t)) →
   ∃ f, RecommendationPanel.dupColFinding lower t = [f] ∧
        RecommendationPanel.f_type f = "duplicate_columns" ∧
        RecommendationPanel.f_id f = "val-dupcol-" +:+ t_id t).
Proof.
  rewrite <- duplicateNames_nil. unfold RecommendationPanel.dupColFinding.
  destruct (RecommendationPanel.duplicateNames _) as [|y rest]; simpl.
  - split; [done|]. by intros H.
  - split; [by split|]. intros _. by eexists.
Qed.

(** * The table dialog *)

Lemma truthy_ne s : truthy s = true ↔ s ≠ EmptyString.
Proof. destruct s; simpl; split; intros; congruence. Qed.

Lemma truthy_false s : truthy s = false ↔ s = EmptyString.
Proof. destruct s; simpl; split; intros; congruence. Qed.

Lemma changeColumn_id col ch col' :
  TableModal.changeColumn col ch = Some col' → c_id col' = c_id col.
Proof.
  destruct ch as [[]|[]|[]|v|v]; simpl;
    repeat case_match; intros; simplify_eq; reflexivity.
Qed.

Lemma changeColumn_keyNotNull col ch col' :
  TableModal.changeColumn col ch = Some col' →
  keyNotNull col → keyNotNull col'.
Proof.
  unfold keyNotNull.
  destruct ch as [[]|[]|[]|v|v]; simpl;
    repeat case_match; intros; simplify_eq; simpl in *;
    try done; auto; destruct (primaryKey col); simpl in *; auto; done.
Qed.

Lemma changeColumn_counterTyped col ch col' :
  TableModal.changeColumn col ch = Some col' →
  counterTyped col → counterTyped col'.
Proof.
  unfold counterTyped.
  destruct ch as [[]|[]|[]|v|v]; simpl;
    repeat case_match; intros ? [??]; simplify_eq; simpl in *;
    split; intros; try done; try congruence; intuition congruence.
Qed.

Lemma changeColumn_counterIsKey col ch col' :
  ch ≠ TableModal.primaryKey_ false →
  TableModal.changeColumn col ch = Some col' →
  counterIsKey col → counterIsKey col'.
Proof.
  unfold counterIsKey.
  destruct ch as [[]|[]|[]|v|v]; simpl; intros Hch;
    repeat case_match; intros; simplify_eq; simpl in *;
    try done; try congruence; intuition congruence.
Qed.

(** X7.  A change made in the table dialog touches only the column at the
    given index, keeps every id and the number of columns, and keeps two
    rules on the flags: a key column is never nullable, and the
    autoIncrement flag is set exactly on the columns of type
    AUTOINCREMENT.  That an autoIncrement column is a key is kept by every
    change but the un-checking of the key. *)
Theorem handleColumnChange_keeps_flags index ch cols cols' :
  TableModal.handleColumnChange index ch cols = Some cols' →
  List.length cols' = List.length cols ∧
  map c_id cols' = map c_id cols ∧
  (∀ j, j ≠ index → cols' !! j = cols !! j) ∧
  (Forall keyNotNull cols → Forall keyNotNull cols') ∧
  (Forall counterTyped cols → Forall counterTyped cols') ∧
  (ch ≠ TableModal.primaryKey_ false →
   Forall counterIsKey cols → Forall counterIsKey cols').
Proof.
  unfold TableModal.handleColumnChange.
  destruct (cols !! index) as [col|] eqn:Hcol; simpl; [|done].
  destruct (TableModal.changeColumn col ch) as [col'|] eqn:Hch;
    intros [= <-]; [|by split_and!].
  split_and!.
  - by rewrite length_insert.
  - rewrite list_fmap_insert, (changeColumn_id _ _ _ Hch).
    apply list_insert_id. by rewrite list_lookup_fmap, Hcol.
  - intros j Hj. by apply list_lookup_insert_ne.
  - intros H. apply Forall_insert; [done|].
    eapply changeColumn_keyNotNull; [done|].
    by eapply Forall_lookup_1.
  - intros H. apply Forall_insert; [done|].
    eapply changeColumn_counterTyped; [done|].
    by eapply Forall_lookup_1.
  - intros Hne H. apply Forall_insert; [done|].
    eapply changeColumn_counterIsKey; [done..|].
    by eapply Forall_lookup_1.
Qed.

Lemma handleColumnChange_keeps_flags_witness :
  Forall keyNotNull
    [mkColumn "c1" "id" INTEGER true] ∧
  Forall keyNotNull
    [set_type AUTOINCREMENT
       (set_unique true (set_nullable false
          (set_primaryKey true (set_autoIncrement true
             (mkColumn "c1" "id" INTEGER true)))))].
Proof.
  split.
  - constructor; [|constructor]. intros _. reflexivity.
  - apply (handleColumnChange_keeps_flags 0
             (TableModal.type_ AUTOINCREMENT)
             [mkColumn "c1" "id" INTEGER true]); [reflexivity|].
    constructor; [|constructor]. intros _. reflexivity.
Defined.

(** The un-checking of the key is accepted on an autoIncrement column. *)
Lemma uncheck_key_on_counter index cols col :
  cols !! index = Some col →
  TableModal.handleColumnChange index (TableModal.primaryKey_ false) cols
  = Some (<[index := set_primaryKey false col]> cols).
Proof.
  intros H. unfold TableModal.handleColumnChange. by rewrite H.
Qed.

(** X8.  A column switched to AUTOINCREMENT in the table dialog is
    declared by the generator with the word COUNTER twice:
    [[name] COUNTER COUNTER NOT NULL]. *)
Theorem counter_column_declared_twice index cols cols' :
  TableModal.handleColumnChange index (TableModal.type_ AUTOINCREMENT) cols
  = Some cols' →
  ∃ col', cols' !! index = Some col' ∧
          generateColumnDef col'
          = "[" +:+ c_name col' +:+ "] COUNTER COUNTER NOT NULL".
Proof.
  unfold TableModal.handleColumnChange.
  destruct (cols !! index) as [col|] eqn:Hcol; simpl; [|done].
  intros [= <-]. eexists. split.
  - apply list_lookup_insert_eq. by eapply lookup_lt_Some.
  - unfold generateColumnDef; simpl. rewrite !append_assoc. reflexivity.
Qed.

Lemma counter_column_declared_twice_witness :
  ∃ col', [set_type AUTOINCREMENT
             (set_unique true (set_nullable false
                (set_primaryKey true (set_autoIncrement true
                   (mkColumn "c1" "id" INTEGER true)))))] !! 0%nat
          = Some col' ∧
          generateColumnDef col'
          = "[" +:+ c_name col' +:+ "] COUNTER COUNTER NOT NULL".
Proof.
  apply (counter_column_declared_twice 0 [mkColumn "c1" "id" INTEGER true]).
  reflexivity.
Defined.

(** X9.  The table dialog saves exactly when the trimmed table name is not
    empty, there is a column and no column name trims to nothing.  The
    saved table then has a non-empty id and name, the same columns with
    trimmed, non-empty names, and a position with no zero coordinate. *)
Theorem handleSave_validates (trim : string → string) table now tableName cols :
  match TableModal.handleSave trim table now tableName cols with
  | Some t =>
      trim tableName ≠ EmptyString ∧ cols ≠ [] ∧
      Forall (λ c, trim (c_name c) ≠ EmptyString) cols ∧
      t_id t ≠ EmptyString ∧
      t_name t = trim tableName ∧
      columns t = map (λ c, set_name (trim (c_name c)) c) cols ∧
      Forall (λ c, c_name c ≠ EmptyString) (columns t) ∧
      t_x t ≠ 0%Z ∧ t_y t ≠ 0%Z
  | None =>
      trim tableName = EmptyString ∨ cols = [] ∨
      Exists (λ c, trim (c_name c) = EmptyString) cols
  end.
Proof.
  unfold TableModal.handleSave.
  destruct (truthy (trim tableName)) eqn:Hn; simpl;
    [|left; by apply truthy_false].
  destruct (Nat.eqb (List.length cols) 0) eqn:Hl;
    [right; left; by destruct cols|].
  assert (cols ≠ []) as Hcols by (by destruct cols).
  set (cs := cols) in *.
  destruct (existsb _ cs) eqn:He.
  - right. right. apply existsb_exists in He as (x & Hx & Hb).
    apply Exists_exists. exists x. split; [first [done | by apply list_elem_of_In]|].
    apply truthy_false. by apply negb_true_iff.
  - assert (Hall : Forall (λ c, trim (c_name c) ≠ EmptyString) cs).
    { apply Forall_forall. intros x Hx. apply truthy_ne.
      destruct (truthy (trim (c_name x))) eqn:Ht; [done|].
      assert (existsb (λ c, negb (truthy (trim (c_name c)))) cs = true)
        as Hc; [|congruence].
      apply existsb_exists. exists x. split; [first [done | by apply list_elem_of_In]|].
      by rewrite Ht. }
    simpl. split_and!; try done.
    + by apply truthy_ne.
    + destruct table as [t|]; [|done].
      destruct (truthy (t_id t)) eqn:Hid; [by apply truthy_ne|done].
    + apply Forall_fmap. eapply Forall_impl; [exact Hall|]. by intros x.
    + destruct table as [t|]; [|done].
      destruct (Z.eqb_spec (t_x t) 0); [done|done].
    + destruct table as [t|]; [|done].
      destruct (Z.eqb_spec (t_y t) 0); [done|done].
Qed.

(** * The entity dialog *)








(** * The canvas handlers *)

Lemma asTable_dataOfTable table :
  AppHandlers.asTable (AppHandlers.dataOfTable table) = Some table.
Proof. by destruct table. Qed.

Lemma find_none_not_in_ids (nodes : list App.Node) id :
  List.find (λ n, String.eqb (App.n_id n) id) nodes = None →
  ¬ In id (map App.n_id nodes).
Proof.
  induction nodes as [|n nodes IH]; simpl; [tauto|].
  destruct (String.eqb_spec (App.n_id n) id); [done|].
  intros H [?|?]; [done|]. by apply IH.
Qed.

Lemma Forall2_filter_pair {A B} (P : A → B → Prop) (p : A → bool)
    (q : B → bool) l k :
  (∀ a b, P a b → p a = q b) → Forall2 P l k →
  Forall2 P (List.filter p l) (List.filter q k).
Proof.
  intros Hpq. induction 1 as [|a b l k Hab _ IH]; simpl; [constructor|].
  rewrite (Hpq _ _ Hab). destruct (q b); [by constructor|done].
Qed.

(** X11.  Deleting a table keeps the canvas consistent.  If every
    relationship joined two nodes of the canvas, and edges and
    relationships went in pairs, both still hold afterwards; the table is
    no node any more and no remaining relationship or edge starts or ends
    at it; every other node and every relationship and edge between other
    tables is kept.  [deleteTableById] does the same once confirmed and
    nothing otherwise. *)
Theorem handleDeleteTable_removes_references tableId s :
  (endpointsExist s →
   endpointsExist (AppHandlers.handleDeleteTable tableId s)) ∧
  (edgesMatch s → edgesMatch (AppHandlers.handleDeleteTable tableId s)) ∧
  ¬ In tableId
      (map App.n_id
           (AppHandlers.cv_nodes (AppHandlers.handleDeleteTable tableId s))) ∧
  (∀ n, In n (AppHandlers.cv_nodes (AppHandlers.handleDeleteTable tableId s))
        ↔ In n (AppHandlers.cv_nodes s) ∧ App.n_id n ≠ tableId) ∧
  (∀ r, In r (AppHandlers.cv_relationships
                (AppHandlers.handleDeleteTable tableId s))
        ↔ In r (AppHandlers.cv_relationships s) ∧
          sourceTableId r ≠ tableId ∧ targetTableId r ≠ tableId) ∧
  (∀ e, In e (AppHandlers.cv_edges (AppHandlers.handleDeleteTable tableId s))
        ↔ In e (AppHandlers.cv_edges s) ∧
          AppHandlers.ed_source e ≠ tableId ∧
          AppHandlers.ed_target e ≠ tableId) ∧
  AppHandlers.deleteTableById true tableId s
  = AppHandlers.handleDeleteTable tableId s ∧
  AppHandlers.deleteTableById false tableId s = s.
Proof.
  assert (Hn : ∀ n, In n (AppHandlers.cv_nodes
                            (AppHandlers.handleDeleteTable tableId s))
                    ↔ In n (AppHandlers.cv_nodes s) ∧ App.n_id n ≠ tableId).
  { intros n. simpl. rewrite filter_In, negb_true_iff.
    by destruct (String.eqb_spec (App.n_id n) tableId); intuition. }
  assert (Hr : ∀ r, In r (AppHandlers.cv_relationships
                            (AppHandlers.handleDeleteTable tableId s))
                    ↔ In r (AppHandlers.cv_relationships s) ∧
                      sourceTableId r ≠ tableId ∧ targetTableId r ≠ tableId).
  { intros r. simpl. rewrite filter_In, andb_true_iff, !negb_true_iff.
    by destruct (String.eqb_spec (sourceTableId r) tableId),
                (String.eqb_spec (targetTableId r) tableId); intuition. }
  split_and!; try done.
  - intros H r Hin. apply Hr in Hin as (Hin & Hs & Ht).
    destruct (H r Hin) as [H1 H2].
    apply in_map_iff in H1 as (n1 & E1 & I1).
    apply in_map_iff in H2 as (n2 & E2 & I2).
    split; apply in_map_iff; [exists n1|exists n2];
      (split; [done|]); apply Hn; split; congruence.
  - unfold edgesMatch. simpl. apply Forall2_filter_pair.
    by intros e r (_ & -> & ->).
  - rewrite in_map_iff. intros (n & Hid & Hin). apply Hn in Hin. tauto.
  - intros e. simpl. rewrite filter_In, andb_true_iff, !negb_true_iff.
    by destruct (String.eqb_spec (AppHandlers.ed_source e) tableId),
                (String.eqb_spec (AppHandlers.ed_target e) tableId);
      intuition.
Qed.

Lemma handleDeleteTable_removes_references_witness :
  endpointsExist chainCanvas ∧ edgesMatch chainCanvas ∧
  endpointsExist (AppHandlers.handleDeleteTable "t1" chainCanvas) ∧
  edgesMatch (AppHandlers.handleDeleteTable "t1" chainCanvas) ∧
  AppHandlers.cv_relationships (AppHandlers.handleDeleteTable "t1" chainCanvas)
  = [ mkRel "r2" "t2" "c2" "t3" "c3" Card_1_N false false ].
Proof.
  assert (endpointsExist chainCanvas) as H1.
  { intros r [<-|[<-|[]]]; split; simpl; tauto. }
  assert (edgesMatch chainCanvas) as H2.
  { repeat constructor. }
  split_and!; [exact H1|exact H2| | |reflexivity].
  - by apply (handleDeleteTable_removes_references "t1" chainCanvas).
  - by apply (handleDeleteTable_removes_references "t1" chainCanvas).
Defined.

(** X12.  Saving a table stores it under its id: afterwards a node with
    that id exists, every node with that id carries exactly the saved
    table, every other node is an old one, and the ids are the old ones,
    with the new id at the end if it was not there.  Distinct node ids
    stay distinct. *)
Theorem handleSaveTable_stores_table table nodes :
  (∃ n', In n' (AppHandlers.handleSaveTable table nodes) ∧
         App.n_id n' = t_id table) ∧
  (∀ n', In n' (AppHandlers.handleSaveTable table nodes) →
         App.n_id n' = t_id table →
         AppHandlers.asTable (App.n_data n') = Some table) ∧
  (∀ n', In n' (AppHandlers.handleSaveTable table nodes) →
         App.n_id n' ≠ t_id table → In n' nodes) ∧
  map App.n_id (AppHandlers.handleSaveTable table nodes)
  = (if decide (t_id table ∈ map App.n_id nodes)
     then map App.n_id nodes
     else map App.n_id nodes ++ [t_id table]) ∧
  (NoDup (map App.n_id nodes) →
   NoDup (map App.n_id (AppHandlers.handleSaveTable table nodes))).
Proof.
  unfold AppHandlers.handleSaveTable.
  destruct (List.find _ nodes) as [n0|] eqn:Hf.
  - apply find_some in Hf as [Hin Hid].
    apply String.eqb_eq in Hid.
    set (f := λ n : App.Node,
                if String.eqb (App.n_id n) (t_id table)
                then AppHandlers.with_data n (AppHandlers.dataOfTable table)
                else n).
    assert (Hids : map App.n_id (map f nodes) = map App.n_id nodes).
    { rewrite map_map. apply map_ext. intros n. unfold f.
      by destruct (String.eqb _ _). }
    split_and!.
    + exists (f n0). split; [by apply in_map|].
      unfold f. rewrite Hid, String.eqb_refl. done.
    + intros n' Hn' Hid'. apply in_map_iff in Hn' as (n & <- & _).
      unfold f in *. destruct (String.eqb_spec (App.n_id n) (t_id table)).
      * apply asTable_dataOfTable.
      * done.
    + intros n' Hn' Hid'. apply in_map_iff in Hn' as (n & <- & Hn).
      unfold f in *. destruct (String.eqb_spec (App.n_id n) (t_id table)).
      * done.
      * done.
    + rewrite Hids. destruct (decide _) as [|Hno]; [done|].
      destruct Hno. apply list_elem_of_In, in_map_iff. by exists n0.
    + by rewrite Hids.
  - pose proof (find_none_not_in_ids _ _ Hf) as Hno.
    split_and!.
    + eexists. split; [apply in_app_iff; right; by left|done].
    + intros n' Hn' Hid'. apply in_app_iff in Hn' as [Hn'|[<-|[]]].
      * destruct Hno. apply in_map_iff. by exists n'.
      * apply asTable_dataOfTable.
    + intros n' Hn' Hid'. by apply in_app_iff in Hn' as [Hn'|[<-|[]]].
    + rewrite map_app. destruct (decide _) as [Hyes|]; [|done].
      by apply list_elem_of_In in Hyes.
    + intros Hnd. rewrite map_app. simpl.
      apply NoDup_app. split_and!; [done| |apply NoDup_singleton].
      intros x Hx ->%list_elem_of_singleton.
      by apply Hno, list_elem_of_In.
Qed.

Lemma handleSaveTable_stores_table_witness :
  NoDup (map App.n_id (AppHandlers.cv_nodes chainCanvas)) ∧
  NoDup (map App.n_id
           (AppHandlers.handleSaveTable customerEdited
              (AppHandlers.cv_nodes chainCanvas))) ∧
  map App.n_id
    (AppHandlers.handleSaveTable customerEdited
       (AppHandlers.cv_nodes chainCanvas)) = ["t1"; "t2"; "t3"] ∧
  NoDup (map App.n_id
           (AppHandlers.handleSaveTable unkeyedPerson
              (AppHandlers.cv_nodes chainCanvas))) ∧
  map App.n_id
    (AppHandlers.handleSaveTable unkeyedPerson
       (AppHandlers.cv_nodes chainCanvas)) = ["t1"; "t2"; "t3"; "T1"].
Proof.
  assert (NoDup (map App.n_id (AppHandlers.cv_nodes chainCanvas))) as H.
  { apply (bool_decide_unpack _). vm_compute. exact I. }
  split_and!; [exact H| |reflexivity| |reflexivity].
  - by apply (handleSaveTable_stores_table customerEdited
                (AppHandlers.cv_nodes chainCanvas)).
  - by apply (handleSaveTable_stores_table unkeyedPerson
                (AppHandlers.cv_nodes chainCanvas)).
Defined.

(** X13.  The cardinality label of the relationship dialog is the label
    the canvas puts on the edge of the saved relationship, and it tells
    the settings apart: two different choices of cardinality and
    optional sides never give the same label. *)
Theorem cardinality_label_faithful :
  (∀ r c so to od ou,
     ∃ r', RelationshipModal.handleSave (Some r) c so to od ou = Some r' ∧
           AppHandlers.labelText r'
           = RelationshipModal.getCardinalityLabel c so to) ∧
  (∀ c so to c' so' to',
     RelationshipModal.getCardinalityLabel c so to
     = RelationshipModal.getCardinalityLabel c' so' to' →
     c = c' ∧ so = so' ∧ to = to').
Proof.
  split.
  - intros r c so to od ou. eexists. split; [reflexivity|].
    by destruct c.
  - intros [] [] [] [] [] []; vm_compute; intros H; (done || discriminate H).
Qed.

Lemma cardinality_label_faithful_witness :
  Card_1_N = Card_1_N ∧ true = true ∧ false = false.
Proof.
  apply cardinality_label_faithful. reflexivity.
Defined.




(** * The recommendation badge *)


Lemma find_none_existsb {A} (p : A → bool) l :
  List.find p l = None ↔ existsb p l = false.
Proof.
  induction l as [|x l IH]; simpl; [done|].
  destruct (p x); simpl; [|done]. split; done.
Qed.

Lemma tableLoop_spec all rest trest nonMNRelationships :
  Forall2 (λ d t, AppHandlers.asTable d = Some t) rest trest →
  ∃ b, AppHandlers.tableLoop all rest nonMNRelationships = Some b ∧
       (b = true ↔
        Exists (λ t, existsb primaryKey (columns t) = false ∨
                     existsb (AppHandlers.relFlags all
                                (AppHandlers.dataOfTable t) (columns t))
                             nonMNRelationships = true) trest).
Proof.
  induction 1 as [|d t rest trest Hd _ IH]; simpl.
  - exists false. split; [done|]. split; [done|]. by intros ?%Exists_nil.
  - unfold AppHandlers.asTable in Hd.
    destruct (App.d_columns d) as [cols|] eqn:Hc; simpl in *; [|done].
    injection Hd as <-. simpl.
    destruct (existsb primaryKey cols) eqn:Hpk; simpl.
    + destruct (existsb (AppHandlers.relFlags all d cols) _) eqn:Hrf.
      * exists true. split; [done|]. split; [|done]. intros _.
        apply Exists_cons_hd. right. exact Hrf.
      * destruct IH as (b & Hb & Hiff). exists b. split; [done|].
        rewrite Hiff, Exists_cons. simpl. split; [intros ?; by right|].
        intros [[?|Hx]|?]; [congruence| |done].
        change (existsb (AppHandlers.relFlags all d cols)
                        nonMNRelationships = true) in Hx.
        congruence.
    + exists true. split; [done|]. split; [|done]. intros _.
      apply Exists_cons_hd. by left.
Qed.

Lemma asTable_ids datas ts id :
  Forall2 (λ d t, AppHandlers.asTable d = Some t) datas ts →
  is_Some (findTable ts id) →
  is_Some (List.find (λ d, String.eqb (App.d_id d) id) datas).
Proof.
  induction 1 as [|d t datas ts Hd _ IH]; simpl; [done|].
  unfold AppHandlers.asTable in Hd.
  destruct (App.d_columns d); simpl in *; [|done]. injection Hd as <-.
  unfold findTable in *. simpl.
  destruct (String.eqb (App.d_id d) id); [by eexists|]. apply IH.
Qed.



(** * Connecting two tables *)

Lemma endsWith_app a b : endsWith (a +:+ b) b = true.
Proof.
  induction a as [|c a IH].
  - change (EmptyString +:+ b) with b.
    destruct b; simpl; [done|].
    by rewrite Ascii.eqb_refl, String.eqb_refl.
  - change (String c a +:+ b) with (String c (a +:+ b)).
    simpl. rewrite IH. apply orb_true_r.
Qed.

Lemma find_app_None {A} (p : A → bool) l1 l2 :
  List.find p l1 = None → List.find p (l1 ++ l2) = List.find p l2.
Proof.
  induction l1 as [|x l1 IH]; simpl; [done|].
  destruct (p x); [done|]. apply IH.
Qed.

Lemma find_map_keep_id (f : App.Node → App.Node) id l :
  (∀ n, App.n_id (f n) = App.n_id n) →
  List.find (λ n, String.eqb (App.n_id n) id) (map f l)
  = f <$> List.find (λ n, String.eqb (App.n_id n) id) l.
Proof.
  intros Hf. induction l as [|x l IH]; simpl; [done|].
  rewrite Hf. by destruct (String.eqb (App.n_id x) id).
Qed.

Lemma handle_id_not_found column cols :
  Forall (λ c, endsWith (c_id c) "-source" = false) cols →
  List.find (λ c, String.eqb (c_id c) (AppHandlers.sourceHandleId column))
            cols = None.
Proof.
  induction 1 as [|c cols Hc _ IH]; simpl; [done|].
  destruct (String.eqb_spec (c_id c) (AppHandlers.sourceHandleId column))
    as [E|_]; [|done].
  unfold AppHandlers.sourceHandleId in E.
  rewrite E, endsWith_app in Hc. done.
Qed.

(** X16.  What [onConnect] does to the nodes.  Node ids, kinds and
    positions stay.  A node is changed only if it has the id of the
    target, and then its data is that of the target node with one column
    appended: named after the source table and its first key column,
    typed like that key, nullable and no key, marked as a foreign key to
    it; this happens only if the target had no column of that name.
    Connecting the same two nodes again changes no node. *)
Theorem onConnect_adds_key_column_once
    (addEdge : AppHandlers.Edge → list AppHandlers.Edge → list AppHandlers.Edge)
    params nowRel nowCol s s' :
  AppHandlers.onConnect addEdge params nowRel nowCol s = Some s' →
  map App.n_id (AppHandlers.cv_nodes s')
  = map App.n_id (AppHandlers.cv_nodes s) ∧
  Forall2
    (λ n n',
       n' = n ∨
       (App.n_id n = AppHandlers.target params ∧
        App.n_id n' = App.n_id n ∧ App.n_type n' = App.n_type n ∧
        App.n_position n' = App.n_position n ∧
        ∃ sourceNode targetNode sourceColumns sourcePK targetColumns fk,
          List.find (λ n, String.eqb (App.n_id n) (AppHandlers.source params))
                    (AppHandlers.cv_nodes s) = Some sourceNode ∧
          List.find (λ n, String.eqb (App.n_id n) (AppHandlers.target params))
                    (AppHandlers.cv_nodes s) = Some targetNode ∧
          App.d_columns (App.n_data sourceNode) = Some sourceColumns ∧
          List.find primaryKey sourceColumns = Some sourcePK ∧
          App.d_columns (App.n_data targetNode) = Some targetColumns ∧
          existsb (λ c, String.eqb (c_name c) (c_name fk)) targetColumns
          = false ∧
          App.d_columns (App.n_data n') = Some (targetColumns ++ [fk]) ∧
          App.d_id (App.n_data n') = App.d_id (App.n_data targetNode) ∧
          App.d_name (App.n_data n') = App.d_name (App.n_data targetNode) ∧
          c_name fk
          = App.d_name (App.n_data sourceNode) +:+ "_" +:+ c_name sourcePK ∧
          c_type fk = c_type sourcePK ∧
          primaryKey fk = false ∧ nullable fk = true ∧
          isForeignKey fk = Some true ∧
          referencesTable fk = Some (App.d_name (App.n_data sourceNode)) ∧
          referencesColumn fk = Some (c_name sourcePK)))
    (AppHandlers.cv_nodes s) (AppHandlers.cv_nodes s') ∧
  ∀ nowRel' nowCol',
    ∃ s'', AppHandlers.onConnect addEdge params nowRel' nowCol' s' = Some s'' ∧
           AppHandlers.cv_nodes s'' = AppHandlers.cv_nodes s'.
Proof.
  assert (Hrefl : ∀ (P : App.Node → App.Node → Prop) l,
            (∀ n, P n n) → Forall2 P l l).
  { intros P l HP. apply Forall_Forall2_diag, Forall_forall. auto. }
  unfold AppHandlers.onConnect.
  destruct s as [nodes edges rels]; simpl.
  destruct (List.find (λ n, String.eqb (App.n_id n)
                              (AppHandlers.source params)) nodes)
    as [sn|] eqn:Hsn; simpl;
    [destruct (List.find (λ n, String.eqb (App.n_id n)
                                 (AppHandlers.target params)) nodes)
       as [tn|] eqn:Htn; simpl|].
  - destruct (App.d_columns (App.n_data sn)) as [sc|] eqn:Hsc; simpl;
      [|done].
    destruct (List.find primaryKey sc) as [pk|] eqn:Hpk; simpl.
    + destruct (App.d_columns (App.n_data tn)) as [tc|] eqn:Htc; simpl;
        [|done].
      destruct (List.find (λ col, String.eqb (c_name col) _) tc)
        as [x|] eqn:Hex; simpl.
      * intros [= <-]; simpl. split_and!; [done|apply Hrefl; by left|].
        intros nr nc. rewrite Hsn, Htn. simpl. rewrite Hsc. simpl.
        rewrite Hpk, Htc. simpl. rewrite Hex. simpl. by eexists.
      * intros [= <-]; simpl.
        set (fk := {| c_id := "col-" +:+ nowCol +:+ "-fk";
                      c_name := App.d_name (App.n_data sn) +:+ "_"
                                +:+ c_name pk |}).
        set (f := λ n : App.Node,
                    if String.eqb (App.n_id n) (AppHandlers.target params)
                    then AppHandlers.with_data n _ else n).
        assert (Hf : ∀ n, App.n_id (f n) = App.n_id n).
        { intros n. unfold f. by destruct (String.eqb _ _). }
        pose proof Htn as Htid. apply find_some in Htid as [_ Htid].
        apply String.eqb_eq in Htid.
        split_and!.
        -- rewrite map_map. apply map_ext. exact Hf.
        -- apply Forall2_fmap_r, Hrefl. intros n. unfold f, compose.
           cbn beta.
           destruct (String.eqb_spec (App.n_id n) (AppHandlers.target params))
             as [E|E]; [right|by left].
           split_and!; try done.
           exists sn, tn, sc, pk, tc, fk. split_and!; try done.
           by apply find_none_existsb.
        -- intros nr nc. rewrite !(find_map_keep_id f _ _ Hf), Hsn, Htn.
           simpl.
           assert (∃ sc', App.d_columns (App.n_data (f sn)) = Some sc' ∧
                          List.find primaryKey sc' = Some pk ∧
                          App.d_name (App.n_data (f sn))
                          = App.d_name (App.n_data sn))
             as (sc' & -> & Hpk' & ->).
           { unfold f.
             destruct (String.eqb_spec (App.n_id sn)
                         (AppHandlers.target params)) as [E|E]; simpl.
             - pose proof Hsn as Hsid. apply find_some in Hsid as [_ Hsid].
               apply String.eqb_eq in Hsid.
               assert (sn = tn) as ->.
               { rewrite <- Hsid, E in Hsn. congruence. }
               assert (sc = tc) as -> by congruence.
               eexists. split_and!; [done| |done].
               by apply find_app_Some.
             - by exists sc. }
           simpl. rewrite Hpk'.
           assert (App.d_columns (App.n_data (f tn)) = Some (tc ++ [fk]))
             as ->.
           { unfold f. by rewrite Htid, String.eqb_refl. }
           simpl. rewrite (find_app_None _ _ _ Hex). simpl.
           rewrite String.eqb_refl. simpl. by eexists.
    + intros [= <-]; simpl. split_and!; [done|apply Hrefl; by left|].
      intros nr nc. rewrite Hsn, Htn. simpl. rewrite Hsc. simpl.
      rewrite Hpk. simpl. by eexists.
  - intros [= <-]; simpl. split_and!; [done|apply Hrefl; by left|].
    intros nr nc. rewrite Hsn, Htn. simpl. by eexists.
  - intros [= <-]; simpl. split_and!; [done|apply Hrefl; by left|].
    intros nr nc. rewrite Hsn. simpl. by eexists.
Qed.

Lemma onConnect_adds_key_column_once_witness :
  ∃ s', AppHandlers.onConnect (λ e es, es ++ [e]) drawnConnection "1" "2"
          shopCanvas = Some s' ∧
        map App.n_id (AppHandlers.cv_nodes s')
        = map App.n_id (AppHandlers.cv_nodes shopCanvas).
Proof.
  eexists. split; [reflexivity|].
  eapply (onConnect_adds_key_column_once (λ e es, es ++ [e])
            drawnConnection "1" "2" shopCanvas).
  reflexivity.
Defined.

(** X17.  A relationship drawn on the canvas from a column handle of a
    table node is recorded with the handle id as its source column.  As
    long as no column id ends in [-source], no column has that id: the
    resolver skips the relationship and adds no column for it, and, when
    both tables exist, the warning badge is on. *)
Theorem drawn_relationship_never_resolves
    (addEdge : AppHandlers.Edge → list AppHandlers.Edge → list AppHandlers.Edge)
    params nowRel nowCol s s' ts column :
  AppHandlers.onConnect addEdge params nowRel nowCol s = Some s' →
  AppHandlers.sourceHandle params = AppHandlers.sourceHandleId column →
  tablesOf (AppHandlers.cv_nodes s') = Some ts →
  Forall noHandleIds ts →
  ∃ r, AppHandlers.cv_relationships s'
       = AppHandlers.cv_relationships s ++ [r] ∧
       r_id r = "rel-" +:+ nowRel ∧
       sourceTableId r = AppHandlers.source params ∧
       sourceColumnId r = AppHandlers.sourceHandle params ∧
       targetTableId r = AppHandlers.target params ∧
       targetColumnId r = AppHandlers.targetHandle params ∧
       cardinality r = Card_1_N ∧
       idsResolve ts r = false ∧
       fkStep ts r = Some ts ∧
       (is_Some (findTable ts (AppHandlers.source params)) →
        is_Some (findTable ts (AppHandlers.target params)) →
        AppHandlers.hasHighPriorityRecommendations
          (AppHandlers.cv_nodes s') (AppHandlers.cv_relationships s')
        = Some true).
Proof.
  intros Hc Hh Hts Hids.
  unfold AppHandlers.onConnect in Hc.
  apply bind_Some in Hc as (nodes' & _ & [= <-]). simpl in *.
  eexists. split; [reflexivity|]. simpl.
  assert (Hcol : ∀ st, st ∈ ts →
            existsb (λ c, String.eqb (c_id c) (AppHandlers.sourceHandle params))
                    (columns st) = false).
  { intros st Hst. apply find_none_existsb. rewrite Hh.
    apply handle_id_not_found. by eapply Forall_forall in Hids. }
  assert (Hres : idsResolve ts
                   {| r_id := "rel-" +:+ nowRel;
                      sourceTableId := AppHandlers.source params;
                      sourceColumnId := AppHandlers.sourceHandle params;
                      targetTableId := AppHandlers.target params;
                      targetColumnId := AppHandlers.targetHandle params;
                      cardinality := Card_1_N;
                      sourceOptional := false; targetOptional := false;
                      onDelete := CASCADE; onUpdate := CASCADE |} = false).
  { unfold idsResolve. simpl.
    destruct (findTable ts (AppHandlers.source params)) as [st|] eqn:Hst;
      [|done].
    destruct (findTable ts (AppHandlers.target params)); [|done].
    unfold findColumn.
    assert (st ∈ ts) as Hin.
    { apply list_elem_of_In. by apply find_some in Hst as [? _]. }
    apply Hcol, find_none_existsb in Hin. by rewrite Hin. }
  split_and!; try done.
  - by rewrite fkStep_unfold, Hres.
  - intros [st Hst] Htt.
    unfold tablesOf in Hts. apply mapM_Some in Hts.
    unfold AppHandlers.hasHighPriorityRecommendations.
    set (datas := map App.n_data (List.filter App.is_tableNode nodes')) in *.
    match goal with
    | |- AppHandlers.tableLoop _ _ ?l = _ =>
        destruct (tableLoop_spec datas datas ts l Hts) as (b & Hb & Hiff)
    end.
    rewrite Hb. f_equal. apply Hiff.
    assert (st ∈ ts) as Hin.
    { apply list_elem_of_In. by apply find_some in Hst as [? _]. }
    apply Exists_exists. exists st. split; [done|]. right.
    apply existsb_exists. eexists. split.
    + apply filter_In. split; [apply in_app_iff; right; by left|done].
    + unfold AppHandlers.relFlags. simpl.
      rewrite (findTable_id _ _ _ Hst), String.eqb_refl. simpl.
      destruct (asTable_ids _ _ _ Hts Htt) as [dt ->].
      by rewrite (Hcol st Hin).
Qed.

Lemma drawn_relationship_never_resolves_witness :
  ∃ s', AppHandlers.onConnect (λ e es, es ++ [e]) drawnConnection "1" "2"
          shopCanvas = Some s' ∧
        AppHandlers.hasHighPriorityRecommendations
          (AppHandlers.cv_nodes s') (AppHandlers.cv_relationships s')
        = Some true.
Proof.
  eexists. split; [reflexivity|].
  edestruct (drawn_relationship_never_resolves (λ e es, es ++ [e])
               drawnConnection "1" "2" shopCanvas)
    as (r & _ & _ & _ & _ & _ & _ & _ & _ & _ & H).
  - reflexivity.
  - reflexivity.
  - reflexivity.
  - repeat constructor.
  - apply H; by eexists.
Defined.

(** * Materialising a junction table *)

Lemma generateCreateTable_opening t :
  ∃ rest, generateCreateTable t
          = "CREATE TABLE [" +:+ t_name t +:+ "] (" +:+ nl +:+ rest.
Proof.
  assert (∃ x, x = generateCreateTable t) as [x Hx] by eauto.
  rewrite <- Hx. unfold generateCreateTable in Hx. cbn zeta in Hx.
  destruct (Nat.ltb _ _); rewrite !append_assoc in Hx; eexists; exact Hx.
Qed.

Lemma tablesOf_app nodes ts n t :
  tablesOf nodes = Some ts →
  App.is_tableNode n = true →
  AppHandlers.asTable (App.n_data n) = Some t →
  tablesOf (nodes ++ [n]) = Some (ts ++ [t]).
Proof.
  unfold tablesOf. intros H Hn Ht. apply mapM_Some in H.
  apply mapM_Some. rewrite List.filter_app, map_app. simpl. rewrite Hn.
  apply Forall2_app; [done|]. by constructor.
Qed.

(** X18.  Following the advice to create a junction table for an N:M
    relationship leaves the relationship in place.  The handler adds a
    table named after the two tables; the generator still emits its own
    junction table for the relationship: the script then holds two
    statements opening with CREATE TABLE for the same name. *)
Theorem junction_table_created_twice dialect now s ts r st tt sp tp
    nowTable nowCol1 nowCol2 nowRel1 nowRel2 :
  tablesOf (AppHandlers.cv_nodes s) = Some ts →
  In r (AppHandlers.cv_relationships s) →
  cardinality r = Card_N_M →
  findTable ts (sourceTableId r) = Some st →
  findTable ts (targetTableId r) = Some tt →
  findPK st = Some sp → findPK tt = Some tp →
  ∃ ts' rest1 rest2,
    tablesOf (AppHandlers.cv_nodes
                (AppHandlers.handleCreateJunctionTable st tt
                   nowTable nowCol1 nowCol2 nowRel1 nowRel2 s)) = Some ts' ∧
    In r (AppHandlers.cv_relationships
            (AppHandlers.handleCreateJunctionTable st tt
               nowTable nowCol1 nowCol2 nowRel1 nowRel2 s)) ∧
    AppHandlers.generateSQL dialect now
      (AppHandlers.cv_nodes
         (AppHandlers.handleCreateJunctionTable st tt
            nowTable nowCol1 nowCol2 nowRel1 nowRel2 s))
      (AppHandlers.cv_relationships
         (AppHandlers.handleCreateJunctionTable st tt
            nowTable nowCol1 nowCol2 nowRel1 nowRel2 s))
    = Some (generateHeader dialect now +:+ nl +:+ nl +:+
            ddlBody {| tables := ts';
                       relationships :=
                         AppHandlers.cv_relationships
                           (AppHandlers.handleCreateJunctionTable st tt
                              nowTable nowCol1 nowCol2 nowRel1 nowRel2 s) |}) ∧
    In ("CREATE TABLE [" +:+ (t_name st +:+ "_" +:+ t_name tt) +:+ "] ("
          +:+ nl +:+ rest1)
       (junctionStatements
          {| tables := ts';
             relationships :=
               AppHandlers.cv_relationships
                 (AppHandlers.handleCreateJunctionTable st tt
                    nowTable nowCol1 nowCol2 nowRel1 nowRel2 s) |}) ∧
    In ("CREATE TABLE [" +:+ (t_name st +:+ "_" +:+ t_name tt) +:+ "] ("
          +:+ nl +:+ rest2)
       (createStatements
          {| tables := ts';
             relationships :=
               AppHandlers.cv_relationships
                 (AppHandlers.handleCreateJunctionTable st tt
                    nowTable nowCol1 nowCol2 nowRel1 nowRel2 s) |}).
Proof.
  intros Hts Hr Hnm Hst Htt Hsp Htp.
  set (s' := AppHandlers.handleCreateJunctionTable st tt
               nowTable nowCol1 nowCol2 nowRel1 nowRel2 s).
  assert (∃ n t, AppHandlers.cv_nodes s' = AppHandlers.cv_nodes s ++ [n] ∧
                 App.is_tableNode n = true ∧
                 AppHandlers.asTable (App.n_data n) = Some t ∧
                 t_name t = t_name st +:+ "_" +:+ t_name tt)
    as (n & t & Hnodes & Hn & Hnt & Hname).
  { eexists _, _. split; [reflexivity|]. split; [done|]. split; done. }
  assert (∃ r1 r2, AppHandlers.cv_relationships s'
                   = AppHandlers.cv_relationships s ++ [r1; r2])
    as (r1 & r2 & Hrels) by (by eexists _, _).
  pose proof (tablesOf_app _ _ _ _ Hts Hn Hnt) as Hts'.
  rewrite <- Hnodes in Hts'.
  set (S' := {| tables := ts ++ [t];
                relationships := AppHandlers.cv_relationships s' |}).
  assert (Hcreate : ∃ t', In t' (resolvedTables S') ∧ t_name t' = t_name t).
  { pose proof (resolvedTables_eq S') as Heq.
    apply addForeignKeyFields_fkLoop in Heq as (ts2 & Hloop & [= Heq]).
    rewrite <- Heq in Hloop. apply fkLoop_extends in Hloop.
    simpl in Hloop. unfold extends in Hloop.
    apply Forall2_app_inv_l in Hloop as (k1 & k2 & _ & Hk2 & ->).
    apply Forall2_cons_inv_l in Hk2 as (t' & k3 & Hg & _ & ->).
    exists t'. split; [apply in_app_iff; right; by left|].
    by destruct Hg as (_ & ? & _). }
  destruct Hcreate as (t' & Hin' & Hname').
  destruct (generateCreateTable_opening t') as [rest2 Hrest2].
  rewrite Hname', Hname in Hrest2.
  exists (ts ++ [t]). eexists _, rest2. split_and!.
  - exact Hts'.
  - rewrite Hrels. apply in_app_iff. by left.
  - unfold AppHandlers.generateSQL.
    fold (tablesOf (AppHandlers.cv_nodes s')). rewrite Hts'. simpl.
    apply generate_sections.
  - unfold junctionStatements. apply in_map_iff. exists r. split.
    + rewrite (generateJunctionTable_text r _ st tt sp tp);
        [reflexivity
        |simpl; unfold findTable; by apply find_app_Some
        |simpl; unfold findTable; by apply find_app_Some
        |done|done].
    + unfold onlyMN. apply filter_In. split.
      * cbn [relationships]. fold s'. rewrite Hrels.
        apply in_app_iff. by left.
      * by rewrite Hnm.
  - rewrite <- Hrest2. unfold createStatements. by apply in_map.
Qed.

Lemma junction_table_created_twice_witness :
  ∃ ts' rest1 rest2,
    tablesOf (AppHandlers.cv_nodes
                (AppHandlers.handleCreateJunctionTable
                   (mkTable "S" "Student" [mkColumn "s1" "id" INTEGER true])
                   (mkTable "K" "Course" [mkColumn "k1" "id" INTEGER true])
                   "1" "2" "3" "4" "5" studentCourseCanvas)) = Some ts' ∧
    In ("CREATE TABLE [Student_Course] (" +:+ nl +:+ rest1)
       (junctionStatements
          {| tables := ts';
             relationships :=
               AppHandlers.cv_relationships
                 (AppHandlers.handleCreateJunctionTable
                    (mkTable "S" "Student" [mkColumn "s1" "id" INTEGER true])
                    (mkTable "K" "Course" [mkColumn "k1" "id" INTEGER true])
                    "1" "2" "3" "4" "5" studentCourseCanvas) |}) ∧
    In ("CREATE TABLE [Student_Course] (" +:+ nl +:+ rest2)
       (createStatements
          {| tables := ts';
             relationships :=
               AppHandlers.cv_relationships
                 (AppHandlers.handleCreateJunctionTable
                    (mkTable "S" "Student" [mkColumn "s1" "id" INTEGER true])
                    (mkTable "K" "Course" [mkColumn "k1" "id" INTEGER true])
                    "1" "2" "3" "4" "5" studentCourseCanvas) |}).
Proof.
  destruct (junction_table_created_twice ACCESS "now" studentCourseCanvas
              (tables studentCourseSchema)
              (mkRel "r1" "S" "s1" "K" "k1" Card_N_M false false)
              (mkTable "S" "Student" [mkColumn "s1" "id" INTEGER true])
              (mkTable "K" "Course" [mkColumn "k1" "id" INTEGER true])
              (mkColumn "s1" "id" INTEGER true)
              (mkColumn "k1" "id" INTEGER true)
              "1" "2" "3" "4" "5")
    as (ts' & rest1 & rest2 & H1 & _ & _ & H2 & H3);
    try reflexivity.
  - by left.
  - exists ts', rest1, rest2. split_and!; [exact H1|exact H2|exact H3].
Defined.

(** * What a round trip through the conceptual mode loses *)

(** X19.  A table node converted to an entity node and back keeps its
    columns one for one, but every flag other than the key is rebuilt
    from the key: a column comes back NOT NULL, unique and autoIncrement
    exactly when it is a key, and without its foreign-key marks.  The
    generator then declares a column that is no key without NOT NULL and
    without UNIQUE, whatever it was before. *)
Theorem round_trip_resets_constraints n cs :
  App.d_columns (App.n_data n) = Some cs →
  ∃ e t cs',
    App.entityOfTableNode n = Some e ∧
    App.tableOfEntityNode e = Some t ∧
    App.d_columns (App.n_data t) = Some cs' ∧
    Forall2
      (λ c c',
         c_id c' = c_id c ∧ c_name c' = c_name c ∧ c_type c' = c_type c ∧
         primaryKey c' = primaryKey c ∧
         nullable c' = negb (primaryKey c) ∧
         unique c' = primaryKey c ∧
         autoIncrement c' = primaryKey c ∧
         isForeignKey c' = None ∧ referencesTable c' = None ∧
         referencesColumn c' = None ∧
         generateColumnDef c'
         = "[" +:+ c_name c +:+ "] " +:+ mapDataType (c_type c)
             +:+ (if primaryKey c
                  then match c_type c with
                       | AUTOINCREMENT => " COUNTER NOT NULL"
                       | _ => " NOT NULL"
                       end
                  else EmptyString))
      cs cs'.
Proof.
  intros Hcs. unfold App.entityOfTableNode, App.tableOfEntityNode.
  rewrite Hcs. simpl. eexists _, _, _. split_and!; try done.
  apply Forall2_fmap_r, Forall2_fmap_r, Forall_Forall2_diag, Forall_forall.
  intros c _. unfold compose.
  split_and!; try (simpl; by destruct (primaryKey c)).
  unfold generateColumnDef. simpl.
  destruct (primaryKey c); simpl.
  - destruct (c_type c); simpl; rewrite ?append_assoc; reflexivity.
  - rewrite append_nil_r. reflexivity.
Qed.

Lemma round_trip_resets_constraints_witness :
  ∃ e t cs',
    App.entityOfTableNode personNode = Some e ∧
    App.tableOfEntityNode e = Some t ∧
    App.d_columns (App.n_data t) = Some cs' ∧
    map nullable cs' = [false; true; true].
Proof.
  destruct (round_trip_resets_constraints personNode
              [ mkColumn "c1" "id" AUTOINCREMENT true;
                mkColumn "c2" "name" TEXT false;
                mkColumn "c3" "born" DATETIME false ] eq_refl)
    as (e & t & cs' & H1 & H2 & H3 & _).
  exists e, t, cs'. split_and!; [exact H1|exact H2|exact H3|].
  simpl in H1. injection H1 as <-. simpl in H2. injection H2 as <-.
  simpl in H3. injection H3 as <-. reflexivity.
Defined.

(** X20.  A column added in the table dialog has an empty name, so the
    dialog refuses to save until it is named (given that trimming the
    empty string gives the empty string). *)
Theorem added_column_must_be_named (trim : string → string)
    table now now' tableName cols :
  trim EmptyString = EmptyString →
  TableModal.handleSave trim table now tableName
    (TableModal.handleAddColumn now' cols) = None.
Proof.
  intros Htrim. unfold TableModal.handleSave, TableModal.handleAddColumn.
  destruct (truthy (trim tableName)); simpl; [|done].
  rewrite length_app. simpl.
  destruct (Nat.eqb_spec (List.length cols + 1) 0) as [|_]; [done|].
  rewrite existsb_app. simpl. rewrite Htrim. simpl.
  by rewrite orb_true_r.
Qed.

Lemma added_column_must_be_named_witness :
  TableModal.handleSave (λ s, s) None "1" "Person"
    (TableModal.handleAddColumn "2" [mkColumn "c1" "id" INTEGER true]) = None.
Proof.
  apply (added_column_must_be_named (λ s, s)). reflexivity.
Defined.

(** * The fix for a table without a key *)

(** X21.  The fix offered for a table without a primary key, run on the
    table of the finding.  On a table without columns it changes nothing.
    Otherwise every node with the id of the table gets that table with
    its first column made the key, so the finding is gone; the other
    nodes stay.  All other columns come out as no key and nullable,
    whatever they were, with id, name and type unchanged. *)
Theorem primary_key_fix_effect t nds :
  (columns t = [] → App.handleAddConstraint t "PRIMARY_KEY" nds = nds) ∧
  (columns t ≠ [] →
   map App.n_id (App.handleAddConstraint t "PRIMARY_KEY" nds)
   = map App.n_id nds ∧
   Forall2
     (λ n n',
        if String.eqb (App.n_id n) (t_id t) then
          ∃ cs',
            AppHandlers.asTable (App.n_data n') = Some (with_columns t cs') ∧
            RecommendationPanel.noPKFinding (with_columns t cs') = [] ∧
            List.length cs' = List.length (columns t) ∧
            ∀ i c, columns t !! i = Some c →
                   ∃ c', cs' !! i = Some c' ∧
                         c_id c' = c_id c ∧ c_name c' = c_name c ∧
                         c_type c' = c_type c ∧
                         primaryKey c' = Nat.eqb i 0 ∧
                         nullable c' = negb (Nat.eqb i 0)
        else n' = n)
     nds (App.handleAddConstraint t "PRIMARY_KEY" nds)).
Proof.
  unfold App.handleAddConstraint. split.
  - intros ->. reflexivity.
  - intros Hne.
    assert (Nat.ltb 0 (List.length (columns t)) = true) as ->.
    { destruct (columns t); [done|reflexivity]. }
    simpl. split.
    + rewrite map_map. apply map_ext. intros n.
      by destruct (String.eqb _ _).
    + apply Forall2_fmap_r, Forall_Forall2_diag, Forall_forall.
      intros n _. unfold compose.
      destruct (String.eqb (App.n_id n) (t_id t)); [|done].
      exists (App.markFirstPrimary (columns t)). split_and!.
      * reflexivity.
      * unfold RecommendationPanel.noPKFinding. simpl.
        by rewrite markFirstPrimary_has_key.
      * apply length_imap.
      * intros i c Hc. unfold App.markFirstPrimary.
        rewrite list_lookup_imap, Hc. simpl. by eexists.
Qed.

Lemma primary_key_fix_effect_witness :
  map App.n_id (App.handleAddConstraint unkeyedPerson "PRIMARY_KEY" [personNode])
  = map App.n_id [personNode] ∧
  Forall2
    (λ n n',
       if String.eqb (App.n_id n) (t_id unkeyedPerson) then
         ∃ cs',
           AppHandlers.asTable (App.n_data n')
           = Some (with_columns unkeyedPerson cs') ∧
           RecommendationPanel.noPKFinding (with_columns unkeyedPerson cs')
           = [] ∧
           List.length cs' = List.length (columns unkeyedPerson) ∧
           ∀ i c, columns unkeyedPerson !! i = Some c →
                  ∃ c', cs' !! i = Some c' ∧
                        c_id c' = c_id c ∧ c_name c' = c_name c ∧
                        c_type c' = c_type c ∧
                        primaryKey c' = Nat.eqb i 0 ∧
                        nullable c' = negb (Nat.eqb i 0)
       else n' = n)
    [personNode]
    (App.handleAddConstraint unkeyedPerson "PRIMARY_KEY" [personNode]).
Proof.
  apply (primary_key_fix_effect unkeyedPerson [personNode]). discriminate.
Defined.
